(** * A dependency-injection container: model and verification

    The development embeds the resolution engine of the container
    (registration, provider lookup along the parent chain, [resolve],
    [instantiate], property injection, the [onInit] hook and the singleton
    cache) and proves properties of it.

    The repository holds the container three times:
    - [src/di.ts], the file the package builds;
    - [src/test.ts], a second copy;
    - a commented copy (the one whose header documents the design).
    The three differ in [instantiate], in the cache handling of [resolve]
    and in [tokenToString]; the model takes the copy as a parameter
    ([SourceFile]) and follows each one where they differ. *)

From stdpp Require Import base gmap strings list.

(** ** Data model *)

Inductive SourceFile :=
| DiTs        (* src/di.ts *)
| TestTs      (* src/test.ts *)
| Commented.  (* the commented copy *)

(** Constructors (classes), heap objects and containers have an identity;
    each is named by a number. *)
Abbreviation ClassId := nat.
Abbreviation Loc := nat.
Abbreviation ContainerId := nat.

(** [type Token = symbol | string | (new (...args) => T)].  A symbol carries
    its description; equality of tokens is the one of [Map] keys and of
    [Array.prototype.includes]: strings by content, symbols and
    constructors by identity. *)
Inductive Token :=
| TStr (s : string)
| TSym (id : nat) (description : option string)
| TClass (ctor : ClassId).

#[global] Instance Token_eq_dec : EqDecision Token.
Proof. solve_decision. Defined.

#[global] Instance Token_countable : Countable Token.
Proof.
  refine (inj_countable'
    (λ t, match t with
          | TStr s => inl s
          | TSym i d => inr (inl (i, d))
          | TClass c => inr (inr c)
          end)
    (λ x, match x with
          | inl s => TStr s
          | inr (inl (i, d)) => TSym i d
          | inr (inr c) => TClass c
          end) _).
  by intros [].
Defined.

Inductive Scope := Singleton | Transient.

#[global] Instance Scope_eq_dec : EqDecision Scope.
Proof. solve_decision. Defined.

(** Run-time values.  Objects are references into the heap, so that
    [===] on them is equality of locations.  Functions, classes among
    them, are not values here: no provider holds one as its [useValue] and
    no field of an object does. *)
Inductive Value :=
| VUndefined
| VNull
| VBool (b : bool)
| VNum (n : Z)
| VStr (s : string)
| VObj (l : Loc).

#[global] Instance Value_eq_dec : EqDecision Value.
Proof. solve_decision. Defined.

(** [a === b] *)
Definition strict_equal (a b : Value) : bool := bool_decide (a = b).

(** [!v] is [negb (truthy v)] *)
Definition truthy (v : Value) : bool :=
  match v with
  | VUndefined | VNull => false
  | VBool b => b
  | VNum n => negb (n =? 0)%Z
  | VStr s => negb (String.eqb s "")
  | VObj _ => true
  end.

Definition typeof (v : Value) : string :=
  match v with
  | VUndefined => "undefined"
  | VNull => "object"
  | VBool _ => "boolean"
  | VNum _ => "number"
  | VStr _ => "string"
  | VObj _ => "object"
  end.

(** Property keys: [string | symbol]. *)
Inductive PropertyKey :=
| KStr (s : string)
| KSym (id : nat).

#[global] Instance PropertyKey_eq_dec : EqDecision PropertyKey.
Proof. solve_decision. Defined.

Record PropertyDescriptor := {
  configurable : bool;
  enumerable : bool;
  writable : bool;
  value : Value;
}.

(** A heap object: the class whose prototype it has ([None] for a plain
    object literal, whose prototype is that of [Object]) and its own
    properties.  A read of a property that the object does not own, such
    as [instance.constructor] or [instance.onInit], ends at that class. *)
Record Obj := {
  obj_constructor : option ClassId;
  obj_props : list (PropertyKey * PropertyDescriptor);
}.

(** *** User code

    Constructors, factories and hooks are code of the application, not of
    the container.  They are modelled as data, by what they do to the
    container and to the heap. *)

(** A constructor assigns fields from its arguments or from constants
    ([constructor(private logger) {}] is [this.logger = args[0]]), or
    throws. *)
Inductive FieldInit :=
| FromArg (i : nat)
| FromConst (v : Value).

Inductive CtorBody :=
| CtorAssign (inits : list (PropertyKey * FieldInit))
| CtorThrow (msg : string).

(** The body of an [onInit] method, statement by statement.  A hook may
    throw, may call [resolve] on the container that is resolving the
    instance, and may do so under a module-level boolean that it flips
    ([if (!done) { done = true; container.resolve(t) }]).  The hooks
    considered assign no field of an object. *)
Inductive HookStep :=
| HookThrow (msg : string)
| HookResolve (t : Token)
| HookResolveOnce (flag : nat) (t : Token).

Record ClassDef := {
  cls_name : option string;           (* Ctor.name *)
  cls_inject : option (list Token);   (* static inject *)
  cls_ctor : CtorBody;
  cls_onInit : option (list HookStep);  (* the prototype's onInit, if any *)
}.

(** A factory function [(...deps) => T]. *)
Inductive Factory :=
| FnConst (v : Value)      (* returns a value captured by the closure *)
| FnArg (i : nat)          (* returns deps[i] *)
| FnNew (ctor : ClassId)   (* returns new ctor(...deps) *)
| FnThrow (msg : string).

(** A provider object as it is at run time: every field may be missing.
    [useValue] absent is [VUndefined]. *)
Record Provider := {
  token : option Token;
  scope : option Scope;
  useClass : option ClassId;
  useValue : Value;
  useFactory : option Factory;
  deps : option (list Token);
}.

Inductive Error :=
| ResolutionError (msg : string)
| CircularDependencyError (msg : string)
| ProviderNotFoundError (msg : string)
| UserError (msg : string).   (* an exception of user code *)

(** ** The store *)

(** [class Container]: its three fields.  The cache is a [Map] keyed by
    [provider.token] as read at run time, hence by [option Token]
    ([None] is the key [undefined]). *)
Record Container := {
  providers : gmap Token Provider;
  singletons : gmap (option Token) Value;
  parent : option ContainerId;
}.

Record World := {
  heap : list Obj;
  containers : list Container;
  (* const propertyInjections: WeakMap<Function, Array<{key, token}>> *)
  propertyInjections : gmap ClassId (list (PropertyKey * Token));
  (* module-level booleans of user code *)
  flags : gset nat;
}.

Definition empty_world : World :=
  {| heap := []; containers := []; propertyInjections := ∅; flags := ∅ |}.

Definition set_heap (h : list Obj) (w : World) : World :=
  {| heap := h; containers := containers w;
     propertyInjections := propertyInjections w; flags := flags w |}.

Definition set_containers (cs : list Container) (w : World) : World :=
  {| heap := heap w; containers := cs;
     propertyInjections := propertyInjections w; flags := flags w |}.

Definition set_propertyInjections
    (pi : gmap ClassId (list (PropertyKey * Token))) (w : World) : World :=
  {| heap := heap w; containers := containers w;
     propertyInjections := pi; flags := flags w |}.

Definition set_flags (fl : gset nat) (w : World) : World :=
  {| heap := heap w; containers := containers w;
     propertyInjections := propertyInjections w; flags := fl |}.

(** ** Computations: state, exceptions and fuel

    A call either returns, or throws, both in a new store (an exception
    rolls nothing back), or it exhausts the fuel, which stands for a
    recursion that does not end. *)
Inductive Result (A : Type) :=
| Ret (a : A) (w : World)
| Throw (e : Error) (w : World)
| OutOfFuel.
Arguments Ret {A} a w.
Arguments Throw {A} e w.
Arguments OutOfFuel {A}.

Definition M (A : Type) : Type := World → Result A.

#[global] Instance M_ret : MRet M := λ A a w, Ret a w.
#[global] Instance M_bind : MBind M := λ A B f m w,
  match m w with
  | Ret a w' => f a w'
  | Throw e w' => Throw e w'
  | OutOfFuel => OutOfFuel
  end.

Definition throw {A} (e : Error) : M A := λ w, Throw e w.
Definition modify (f : World → World) : M unit := λ w, Ret () (f w).
Definition out_of_fuel {A} : M A := λ _, OutOfFuel.

(** [for (const x of l) body(x)] *)
Fixpoint for_of {A} (l : list A) (body : A → M unit) : M unit :=
  match l with
  | [] => mret ()
  | x :: l' => body x ≫= λ _, for_of l' body
  end.

(** ** Objects *)

(** [o[key] = v] on the own properties, and [Object.defineProperty]. *)
Fixpoint put_prop (key : PropertyKey) (d : PropertyDescriptor)
    (ps : list (PropertyKey * PropertyDescriptor)) :=
  match ps with
  | [] => [(key, d)]
  | (k, d') :: ps' =>
      if decide (k = key) then (key, d) :: ps' else (k, d') :: put_prop key d ps'
  end.

Fixpoint get_prop (key : PropertyKey)
    (ps : list (PropertyKey * PropertyDescriptor)) : option PropertyDescriptor :=
  match ps with
  | [] => None
  | (k, d) :: ps' => if decide (k = key) then Some d else get_prop key ps'
  end.

Definition data_property (v : Value) : PropertyDescriptor :=
  {| configurable := true; enumerable := true; writable := true; value := v |}.

Definition defineProperty (l : Loc) (key : PropertyKey) (d : PropertyDescriptor)
    (w : World) : World :=
  match heap w !! l with
  | Some o =>
      set_heap (<[l := {| obj_constructor := obj_constructor o;
                          obj_props := put_prop key d (obj_props o) |}]> (heap w)) w
  | None => w
  end.

(** The own property [key] of the object at [l]. *)
Definition own_property (w : World) (l : Loc) (key : PropertyKey)
    : option PropertyDescriptor :=
  o ← heap w !! l; get_prop key (obj_props o).

(** [instance.constructor] as a class: the class of the object, unless an
    own property of that name (which holds no class here) hides it. *)
Definition constructor_of (w : World) (l : Loc) : option ClassId :=
  o ← heap w !! l;
  match get_prop (KStr "constructor") (obj_props o) with
  | Some _ => None
  | None => obj_constructor o
  end.

(** [new Ctor(...args)] *)
Definition field_value (args : list Value) (i : FieldInit) : Value :=
  match i with
  | FromArg n => default VUndefined (args !! n)
  | FromConst v => v
  end.

Definition init_props (args : list Value) (inits : list (PropertyKey * FieldInit))
    : list (PropertyKey * PropertyDescriptor) :=
  foldl (λ ps '(k, i), put_prop k (data_property (field_value args i)) ps) [] inits.

(** ** The container *)

Section Engine.

(** The copy of the source that is modelled, and the classes of the
    application. *)
Variable src : SourceFile.
Variable classes : ClassId → ClassDef.

(** [function tokenToString(t: Token): string] *)
Definition anonymous_class : string :=
  match src with
  | DiTs | Commented => "[AnonymousClass]"
  | TestTs => "[AnonymousClass"
  end.

Definition tokenToString (t : Token) : string :=
  match t with
  | TStr s => s
  | TSym _ description => default "Symbol()" description
  | TClass ctor => default anonymous_class (cls_name (classes ctor))
  end.

(** The three type guards. *)
Definition isClassProvider (p : Provider) : bool := bool_decide (is_Some (useClass p)).
Definition isValueProvider (p : Provider) : bool := negb (bool_decide (useValue p = VUndefined)).
Definition isFactoryProvider (p : Provider) : bool := bool_decide (is_Some (useFactory p)).

(** [new Container(parent)] and [createChild()] *)
Definition new_Container (parent : option ContainerId) : M ContainerId := λ w,
  Ret (length (containers w))
      (set_containers
         (containers w ++ [{| providers := ∅; singletons := ∅; parent := parent |}]) w).

Definition createChild (this : ContainerId) : M ContainerId :=
  new_Container (Some this).

Definition update_container (this : ContainerId) (f : Container → Container)
    (w : World) : World :=
  set_containers (alter f this (containers w)) w.

Definition providers_set (k : Token) (p : Provider) (ct : Container) : Container :=
  {| providers := <[k := p]> (providers ct);
     singletons := singletons ct; parent := parent ct |}.

Definition singletons_set (k : option Token) (v : Value) (ct : Container) : Container :=
  {| providers := providers ct;
     singletons := <[k := v]> (singletons ct); parent := parent ct |}.

(** [this.singletons.has(k)] and [this.singletons.get(k)] *)
Definition singletons_has (this : ContainerId) (k : option Token) (w : World) : bool :=
  match containers w !! this with
  | Some ct => bool_decide (is_Some (singletons ct !! k))
  | None => false
  end.

Definition singletons_get (this : ContainerId) (k : option Token) (w : World) : Value :=
  default VUndefined (ct ← containers w !! this; singletons ct !! k).

(** [private setProvider(p: Provider)].  A token is falsy when it is
    missing or the empty string; [!p] does not arise for a provider
    object. *)
Definition token_falsy (t : option Token) : bool :=
  match t with
  | None => true
  | Some (TStr s) => String.eqb s ""
  | Some _ => false
  end.

Definition setProvider (this : ContainerId) (p : Provider) : M unit :=
  match token p with
  | Some k =>
      if token_falsy (token p)
      then throw (ResolutionError "Invalid provider: missing token")
      else modify (update_container this (providers_set k p))
  | None => throw (ResolutionError "Invalid provider: missing token")
  end.

(** [register(...providers: Provider[])] returns [this]. *)
Definition register (this : ContainerId) (ps : list Provider) : M ContainerId :=
  for_of ps (setProvider this) ≫= λ _, mret this.

(** [private getProvider(token)]: the local table, then the parent's
    lookup.  A parent exists before its child, so the chain is no longer
    than the number of containers, which bounds the walk. *)
Fixpoint getProvider_walk (bound : nat) (w : World) (this : ContainerId) (tok : Token)
    : option Provider :=
  match bound with
  | 0 => None
  | S bound' =>
      match containers w !! this with
      | None => None
      | Some ct =>
          match providers ct !! tok with
          | Some p => Some p
          | None =>
              match parent ct with
              | Some pa => getProvider_walk bound' w pa tok
              | None => None
              end
          end
      end
  end.

Definition getProvider (w : World) (this : ContainerId) (tok : Token) : option Provider :=
  getProvider_walk (length (containers w)) w this tok.

(** [new Ctor(...args)]: a fresh object at the end of the heap. *)
Definition construct (Ctor : ClassId) (args : list Value) : M Value := λ w,
  match cls_ctor (classes Ctor) with
  | CtorThrow msg => Throw (UserError msg) w
  | CtorAssign inits =>
      Ret (VObj (length (heap w)))
          (set_heap (heap w ++ [{| obj_constructor := Some Ctor;
                                   obj_props := init_props args inits |}]) w)
  end.

(** [provider.useFactory(...args)] *)
Definition call_factory (f : Factory) (args : list Value) : M Value :=
  match f with
  | FnConst v => mret v
  | FnArg i => mret (default VUndefined (args !! i))
  | FnNew ctor => construct ctor args
  | FnThrow msg => throw (UserError msg)
  end.

(** In the methods below [resolve] stands for [this.resolve], the
    recursive call. *)
Section Methods.

Variable this : ContainerId.
Variable resolve : Token → list Token → M Value.

Definition instantiate_class (Ctor : ClassId) (stack : list Token) : M Value :=
  let deps := default [] (cls_inject (classes Ctor)) in
  args ← mapM (λ dep, resolve dep stack) deps;
  construct Ctor args.

Definition instantiate_factory (provider : Provider) (useFactory : Factory)
    (stack : list Token) : M Value :=
  let deps := default [] (deps provider) in
  args ← mapM (λ dep, resolve dep stack) deps;
  call_factory useFactory args.

(** [private instantiate(provider, stack)], copy by copy: the order of the
    guards and what follows the last one. *)
Definition instantiate (provider : Provider) (stack : list Token) : M Value :=
  match src with
  | DiTs =>
      match useClass provider with
      | Some Ctor => instantiate_class Ctor stack
      | None =>
          match useFactory provider with
          | Some f => instantiate_factory provider f stack
          | None =>
              if isValueProvider provider then mret (useValue provider)
              else mret VUndefined
          end
      end
  | TestTs =>
      match useClass provider with
      | Some Ctor => instantiate_class Ctor stack
      | None =>
          if isValueProvider provider then mret (useValue provider)
          else
            match useFactory provider with
            | Some f => instantiate_factory provider f stack
            | None => mret VUndefined
            end
      end
  | Commented =>
      match useClass provider with
      | Some Ctor => instantiate_class Ctor stack
      | None =>
          match useFactory provider with
          | Some f => instantiate_factory provider f stack
          | None =>
              if isValueProvider provider then mret (useValue provider)
              else throw (ResolutionError "Unknown provider type")
          end
      end
  end.

(** [private applyPropertyInjections(instance)]: the list is read once,
    under [instance.constructor], before the loop. *)
Definition inject_property (l : Loc) (entry : PropertyKey * Token) : M unit :=
  v ← resolve entry.2 [];
  modify (defineProperty l entry.1 (data_property v)).

Definition applyPropertyInjections (instance : Value) : M unit := λ w,
  if negb (truthy instance) || negb (String.eqb (typeof instance) "object")
  then Ret () w
  else
    match instance with
    | VObj l =>
        let ctor := constructor_of w l in
        let list := default [] (c ← ctor; propertyInjections w !! c) in
        for_of list (inject_property l) w
    | _ => Ret () w
    end.

(** [typeof instance?.onInit === "function"]: the method of the class,
    unless an own property of that name (which holds no function here)
    hides it. *)
Definition onInit_of (w : World) (instance : Value) : option (list HookStep) :=
  match instance with
  | VObj l =>
      o ← heap w !! l;
      match get_prop (KStr "onInit") (obj_props o) with
      | Some _ => None
      | None => c ← obj_constructor o; cls_onInit (classes c)
      end
  | _ => None
  end.

Definition run_step (s : HookStep) : M unit :=
  match s with
  | HookThrow msg => throw (UserError msg)
  | HookResolve t => resolve t [] ≫= λ _, mret ()
  | HookResolveOnce flag t => λ w,
      if bool_decide (flag ∈ flags w) then Ret () w
      else (resolve t [] ≫= λ _, mret ()) (set_flags ({[flag]} ∪ flags w) w)
  end.

Definition call_onInit (instance : Value) : M unit := λ w,
  match onInit_of w instance with
  | Some body => for_of body run_step w
  | None => Ret () w
  end.

(** The three places where [resolve] touches the cache:
    [scope === Scope.Singleton && this.singletons.has(provider.token)],
    the [return this.singletons.get(...)] that follows, and the
    [this.singletons.set(provider.token, instance)] before the final
    return, which [src/di.ts] does not have. *)
Definition effective_scope (provider : Provider) : Scope :=
  default Singleton (scope provider).

Definition cache_hit (provider : Provider) (w : World) : bool :=
  bool_decide (effective_scope provider = Singleton)
  && singletons_has this (token provider) w.

Definition cache_read (tok : Token) (provider : Provider) (w : World) : Value :=
  match src with
  | TestTs => singletons_get this (Some tok) w
  | DiTs | Commented => singletons_get this (token provider) w
  end.

Definition cache_store (provider : Provider) (instance : Value) : M unit :=
  match src with
  | DiTs => mret ()
  | TestTs | Commented =>
      if bool_decide (effective_scope provider = Singleton)
      then modify (update_container this (singletons_set (token provider) instance))
      else mret ()
  end.

(** [resolve<T>(token, _stack = [])], one call deep. *)
Definition resolve_body (tok : Token) (_stack : list Token) : M Value := λ w,
  if bool_decide (tok ∈ _stack) then
    let path := String.concat " -> " (tokenToString <$> _stack ++ [tok]) in
    Throw (CircularDependencyError ("Circular dependency detected: " +:+ path)) w
  else
    match getProvider w this tok with
    | None =>
        Throw (ProviderNotFoundError ("No provider for token: " +:+ tokenToString tok)) w
    | Some provider =>
        if cache_hit provider w then Ret (cache_read tok provider w) w
        else
          (instance ← instantiate provider (_stack ++ [tok]);
           _ ← applyPropertyInjections instance;
           _ ← call_onInit instance;
           _ ← cache_store provider instance;
           mret instance) w
    end.

End Methods.

Fixpoint resolve (fuel : nat) (this : ContainerId) (tok : Token) (_stack : list Token)
    : M Value :=
  match fuel with
  | 0 => out_of_fuel
  | S fuel' => resolve_body this (resolve fuel' this) tok _stack
  end.

End Engine.

(** [export function Inject(token): PropertyDecorator]: applied to the
    prototype of [ctor] and a property key when the class is defined, it
    appends to the list kept for [ctor]. *)
Definition Inject (token : Token) (ctor : ClassId) (propertyKey : PropertyKey) : M unit :=
  modify (λ w,
    let list := default [] (propertyInjections w !! ctor) in
    set_propertyInjections
      (<[ctor := list ++ [(propertyKey, token)]]> (propertyInjections w)) w).

(** [class ContainerModule]: [load(container)] calls the loaders in order. *)
Definition load (loaders : list (ContainerId → M unit)) (container : ContainerId) : M unit :=
  for_of loaders (λ fn, fn container).

(** ** Specification vocabulary *)

(** [m] leaves every store in a store related to it by [R], whether it
    returns or throws. *)
Definition preserves (R : World → World → Prop) {A} (m : M A) : Prop :=
  ∀ w, match m w with
       | Ret _ w' | Throw _ w' => R w w'
       | OutOfFuel => True
       end.

(** [m'] agrees with [m] wherever [m] has fuel enough. *)
Definition refines {A} (m m' : M A) : Prop :=
  ∀ w, m w ≠ OutOfFuel → m' w = m w.

(** What [resolve] never changes: the provider tables, the parent links
    and the property-injection metadata. *)
Definition same_registry (w w' : World) : Prop :=
  providers <$> containers w = providers <$> containers w'
  ∧ parent <$> containers w = parent <$> containers w'
  ∧ propertyInjections w = propertyInjections w'.

(** The heap only grows. *)
Definition heap_grows (w w' : World) : Prop :=
  length (heap w) ≤ length (heap w').

(** The cache of container [c] is untouched. *)
Definition same_cache (c : ContainerId) (w w' : World) : Prop :=
  singletons <$> containers w !! c = singletons <$> containers w' !! c.

(** No cache of any container is touched. *)
Definition same_caches (w w' : World) : Prop :=
  singletons <$> containers w = singletons <$> containers w'.

(** The provider that a series of registrations leaves for token [k]:
    the last one of the series that carries [k], if any. *)
Fixpoint latest (k : Token) (ps : list Provider) : option Provider :=
  match ps with
  | [] => None
  | p :: ps' =>
      match latest k ps' with
      | Some q => Some q
      | None => if decide (token p = Some k) then Some p else None
      end
  end.

(** The entry of key [k] in the cache of container [c] is untouched. *)
Definition cache_entry (w : World) (c : ContainerId) (k : option Token) : option Value :=
  ct ← containers w !! c; singletons ct !! k.

Definition same_cache_entry (c : ContainerId) (k : option Token) (w w' : World) : Prop :=
  cache_entry w c k = cache_entry w' c k.

(** The cache of container [c] loses no entry and changes none. *)
Definition cache_kept (c : ContainerId) (w w' : World) : Prop :=
  ∀ k x, cache_entry w c k = Some x → cache_entry w' c k = Some x.

(** Since the store [w0] nothing was registered, and the cache of [this]
    has no hit for provider [p]. *)
Definition still_missing (this : ContainerId) (p : Provider) (w0 w : World) : Prop :=
  same_registry w0 w ∧ cache_hit this p w = false.

(** Every object keeps its class, and no object disappears. *)
Definition constructors_kept (w w' : World) : Prop :=
  ∀ l o, heap w !! l = Some o →
         ∃ o', heap w' !! l = Some o' ∧ obj_constructor o' = obj_constructor o.

(** A relation between stores that every elementary update of a
    resolution on [this] respects: allocation, property definition, the
    flip of a flag of user code, and the write to the cache of [this] for
    the token of a Singleton provider that the lookup returned when the
    call began and that the cache did not hold then. *)
Record Respected (this : ContainerId) (R : World → World → Prop) : Prop := {
  respected_refl : ∀ w, R w w;
  respected_trans : ∀ w1 w2 w3, R w1 w2 → R w2 w3 → R w1 w3;
  respected_alloc : ∀ w o, R w (set_heap (heap w ++ [o]) w);
  respected_define : ∀ w l k d, R w (defineProperty l k d w);
  respected_flag : ∀ w f, R w (set_flags ({[f]} ∪ flags w) w);
  respected_cache : ∀ w0 w tok p v,
    getProvider w0 this tok = Some p →
    effective_scope p = Singleton →
    cache_hit this p w0 = false →
    R w0 w →
    R w0 (update_container this (singletons_set (token p) v) w);
}.

(** *** Chains of constructor dependencies

    On container [this], token [t] has an uncached class provider whose
    class takes [t'] as its first constructor dependency. *)
Definition first_dependency (classes : ClassId → ClassDef) (this : ContainerId)
    (w : World) (t t' : Token) : Prop :=
  ∃ p Ctor ds,
    getProvider w this t = Some p ∧ useClass p = Some Ctor
    ∧ cls_inject (classes Ctor) = Some (t' :: ds) ∧ cache_hit this p w = false.

(** [t] leads to [last] through the tokens of [rest], each one the first
    dependency of the one before. *)
Fixpoint dependency_chain (classes : ClassId → ClassDef) (this : ContainerId)
    (w : World) (t : Token) (rest : list Token) (last : Token) : Prop :=
  match rest with
  | [] => first_dependency classes this w t last
  | t' :: rest' =>
      first_dependency classes this w t t'
      ∧ dependency_chain classes this w t' rest' last
  end.

(** *** References

    [VObj l] is held by a provider when it is its [useValue] or the value
    that its factory closure returns. *)
Definition provider_holds (p : Provider) (v : Value) : Prop :=
  useValue p = v ∨ useFactory p = Some (FnConst v).

(** No provider, no cache, no field of an object and no constructor
    refers to location [l]. *)
Definition unreferenced (classes : ClassId → ClassDef) (l : Loc) (w : World) : Prop :=
  (∀ c ct k p, containers w !! c = Some ct → providers ct !! k = Some p →
               ¬ provider_holds p (VObj l))
  ∧ (∀ c ct k, containers w !! c = Some ct → singletons ct !! k ≠ Some (VObj l))
  ∧ (∀ l' o k d, heap w !! l' = Some o → (k, d) ∈ obj_props o → value d ≠ VObj l)
  ∧ (∀ C inits k, cls_ctor (classes C) = CtorAssign inits →
                  (k, FromConst (VObj l)) ∉ inits).

(** No cache of any container holds the object at [l]. *)
Definition uncached (l : Loc) (w : World) : Prop :=
  ∀ c ct k, containers w !! c = Some ct → singletons ct !! k ≠ Some (VObj l).

(** A store without dangling references: what is not allocated yet is
    referred to nowhere. *)
Definition closed (classes : ClassId → ClassDef) (w : World) : Prop :=
  ∀ l, length (heap w) ≤ l → unreferenced classes l w.

(** [m] never obtains location [l], which it does not allocate itself
    (it exists before or does not exist after): [l] stays unreferenced, the
    object at [l] is not touched, and the result is [good]. *)
Definition avoids (classes : ClassId → ClassDef) (l : Loc) {A} (good : A → Prop)
    (m : M A) : Prop :=
  ∀ w, unreferenced classes l w →
    match m w with
    | Ret a w' =>
        l < length (heap w) ∨ length (heap w') ≤ l →
        good a ∧ unreferenced classes l w' ∧ heap w' !! l = heap w !! l
    | Throw _ w' =>
        l < length (heap w) ∨ length (heap w') ≤ l →
        unreferenced classes l w' ∧ heap w' !! l = heap w !! l
    | OutOfFuel => True
    end.

(** Every table entry is filed under the token of its provider, as
    [setProvider] files it. *)
Definition registry_wf (w : World) : Prop :=
  ∀ c ct k p, containers w !! c = Some ct → providers ct !! k = Some p →
              token p = Some k.

(** A parent was constructed before its child. *)
Definition chain_wf (w : World) : Prop :=
  ∀ c ct pa, containers w !! c = Some ct → parent ct = Some pa → pa < c.

(** ** Object literals and sample programs *)

(** [{ token, useClass, scope }], [{ token, useValue, scope }],
    [{ token, useFactory, deps, scope }] and [{ token }]. *)
Definition class_provider (t : Token) (Ctor : ClassId) (s : option Scope) : Provider :=
  {| token := Some t; scope := s; useClass := Some Ctor; useValue := VUndefined;
     useFactory := None; deps := None |}.

Definition value_provider (t : Token) (v : Value) (s : option Scope) : Provider :=
  {| token := Some t; scope := s; useClass := None; useValue := v;
     useFactory := None; deps := None |}.

Definition factory_provider (t : Token) (f : Factory) (ds : option (list Token))
    (s : option Scope) : Provider :=
  {| token := Some t; scope := s; useClass := None; useValue := VUndefined;
     useFactory := Some f; deps := ds |}.

Definition bare_provider (t : option Token) : Provider :=
  {| token := t; scope := None; useClass := None; useValue := VUndefined;
     useFactory := None; deps := None |}.

(** [class name { static inject = [...]; constructor() {} }] *)
Definition simple_class (name : string) (inject : option (list Token)) : ClassDef :=
  {| cls_name := Some name; cls_inject := inject; cls_ctor := CtorAssign [];
     cls_onInit := None |}.

(** A plain object literal on the heap. *)
Definition literal (ps : list (PropertyKey * Value)) : Obj :=
  {| obj_constructor := None;
     obj_props := (λ '(k, v), (k, data_property v)) <$> ps |}.

(** A root container alone, and a root with a child. *)
Definition root_world : World :=
  set_containers [{| providers := ∅; singletons := ∅; parent := None |}] empty_world.

(** [class A { static inject = [B] }], [class B { static inject = [A] }],
    both registered under their own constructor. *)
Definition cycle_classes (c : ClassId) : ClassDef :=
  match c with
  | 0 => simple_class "A" (Some [TClass 1])
  | 1 => simple_class "B" (Some [TClass 0])
  | _ => simple_class "" None
  end.

Definition cycle_run (src : SourceFile) : Result Value :=
  (root ← new_Container None;
   _ ← register root [class_provider (TClass 0) 0 None;
                      class_provider (TClass 1) 1 None];
   resolve src cycle_classes 3 root (TClass 0) []) empty_world.

(** The root container after that registration. *)
Definition cycle_world : World :=
  set_containers
    [{| providers := {[ TClass 0 := class_provider (TClass 0) 0 None;
                        TClass 1 := class_provider (TClass 1) 1 None ]};
        singletons := ∅; parent := None |}] empty_world.

(** [{ token: "T", useClass: A, useValue: 1 }]: two payloads at once. *)
Definition two_payloads : Provider :=
  {| token := Some (TStr "T"); scope := None; useClass := Some 0;
     useValue := VNum 1; useFactory := None; deps := None |}.

(** [{ token: "T", useValue: undefined }], registered on the root. *)
Definition undefined_value_run (src : SourceFile) : Result Value :=
  (_ ← register 0 [value_provider (TStr "T") VUndefined None];
   resolve src cycle_classes 1 0 (TStr "T") []) root_world.

(** [{ token: "T", useValue: null }], registered on the root. *)
Definition null_world : World :=
  set_containers
    [{| providers := {[ TStr "T" := value_provider (TStr "T") VNull None ]};
        singletons := ∅; parent := None |}] empty_world.

(** [class Service {}] registered under ["S"] with the given scope, and
    resolved twice on the root. *)
Definition service_classes (c : ClassId) : ClassDef := simple_class "Service" None.

Definition singleton_run (src : SourceFile) (s : option Scope) : Result (Value * Value) :=
  (_ ← register 0 [class_provider (TStr "S") 0 s];
   a ← resolve src service_classes 1 0 (TStr "S") [];
   b ← resolve src service_classes 1 0 (TStr "S") [];
   mret (a, b)) root_world.

(** The root with [class Service] registered under ["S"]. *)
Definition service_world (s : option Scope) : World :=
  set_containers
    [{| providers := {[ TStr "S" := class_provider (TStr "S") 0 s ]};
        singletons := ∅; parent := None |}] empty_world.

(** [const config = { appName: "MyApp" }] on the heap and the provider
    [{ token: "Config", useValue: config, scope }] on the root. *)
Definition config_world (s : option Scope) : World :=
  {| heap := [literal [(KStr "appName", VStr "MyApp")]];
     containers :=
       [{| providers := {[ TStr "Config" := value_provider (TStr "Config") (VObj 0) s ]};
           singletons := ∅; parent := None |}];
     propertyInjections := ∅; flags := ∅ |}.

(** ** Statements that are put to the test *)

(** Transient freshness for every kind of provider: two resolutions of a
    Transient token in a row never return the same value. *)
Definition transient_always_fresh (src : SourceFile) : Prop :=
  ∀ classes fuel this tok p w v1 w1 v2 w2,
    getProvider w this tok = Some p → scope p = Some Transient →
    resolve src classes fuel this tok [] w = Ret v1 w1 →
    resolve src classes fuel this tok [] w1 = Ret v2 w2 →
    v1 ≠ v2.

(** Child isolation for every kind of provider: parent and child never
    return the same value for a Singleton token declared on the parent. *)
Definition child_never_shares (src : SourceFile) : Prop :=
  ∀ classes fuel P C tok p w0 w1 v1 w2 v2 w3,
    createChild P w0 = Ret C w1 →
    getProvider w1 P tok = Some p → effective_scope p = Singleton →
    resolve src classes fuel P tok [] w1 = Ret v1 w2 →
    resolve src classes fuel C tok [] w2 = Ret v2 w3 →
    v1 ≠ v2.

(** Property injection for every declared pair: when [resolve] has built
    an instance of a class for which the pair [(key, t)] is declared, the
    field [key] of the instance holds what resolving [t] directly on the
    same container yields. *)
Definition every_pair_injected (src : SourceFile) : Prop :=
  ∀ classes fuel this tok w l w' p Ctor entries key t,
    resolve src classes fuel this tok [] w = Ret (VObj l) w' →
    getProvider w this tok = Some p → useClass p = Some Ctor →
    cache_hit this p w = false →
    propertyInjections w !! Ctor = Some entries → (key, t) ∈ entries →
    ∃ v w'', resolve src classes fuel this t [] w' = Ret v w''
             ∧ own_property w' l key = Some (data_property v).

(** A root holding [{ token: "S", useClass: Service, scope }], with a
    child created by [createChild]. *)
Definition family_world (s : option Scope) : World :=
  set_containers
    [{| providers := {[ TStr "S" := class_provider (TStr "S") 0 s ]};
        singletons := ∅; parent := None |};
     {| providers := ∅; singletons := ∅; parent := Some 0 |}] empty_world.

(** [class Greeter { @Inject("Logger") anotherLogger }] and
    [class ConsoleLogger {}], both registered on the root, the logger as a
    Singleton; the metadata is what the decorator recorded. *)
Definition greeter_classes (c : ClassId) : ClassDef :=
  match c with
  | 0 => simple_class "Greeter" None
  | _ => simple_class "ConsoleLogger" None
  end.

Definition greeter_world : World :=
  {| heap := [];
     containers :=
       [{| providers := {[ TStr "Greeter" := class_provider (TStr "Greeter") 0
                                               (Some Transient);
                           TStr "Logger" := class_provider (TStr "Logger") 1 None ]};
           singletons := ∅; parent := None |}];
     propertyInjections := {[ 0 := [(KStr "anotherLogger", TStr "Logger")] ]};
     flags := ∅ |}.

(** [class Form { @Inject("B") @Inject("A") x }]: the decorators are
    applied from the bottom up, so the list is [(x, "A"), (x, "B")]; the
    two tokens are registered with the values [1] and [2]. *)
Definition form_classes (c : ClassId) : ClassDef := simple_class "Form" None.

Definition form_world : World :=
  {| heap := [];
     containers :=
       [{| providers := {[ TStr "Form" := class_provider (TStr "Form") 0 (Some Transient);
                           TStr "A" := value_provider (TStr "A") (VNum 1) None;
                           TStr "B" := value_provider (TStr "B") (VNum 2) None ]};
           singletons := ∅; parent := None |}];
     propertyInjections := {[ 0 := [(KStr "x", TStr "A"); (KStr "x", TStr "B")] ]};
     flags := ∅ |}.

(** [class Odd { @Inject("A") x; constructor() { this.constructor = 0 } }]:
    the instance has an own property named [constructor]. *)
Definition odd_classes (c : ClassId) : ClassDef :=
  {| cls_name := Some "Odd"; cls_inject := None;
     cls_ctor := CtorAssign [(KStr "constructor", FromConst (VNum 0))];
     cls_onInit := None |}.

Definition odd_world : World :=
  {| heap := [];
     containers :=
       [{| providers := {[ TStr "Odd" := class_provider (TStr "Odd") 0 (Some Transient);
                           TStr "A" := value_provider (TStr "A") (VNum 1) None ]};
           singletons := ∅; parent := None |}];
     propertyInjections := {[ 0 := [(KStr "x", TStr "A")] ]};
     flags := ∅ |}.

(** [class Service { onInit() { if (!done) { done = true; root.resolve("S") } } }]
    and [class Service { onInit() { throw new Error("boom") } }]. *)
Definition reentrant_classes (c : ClassId) : ClassDef :=
  {| cls_name := Some "Service"; cls_inject := None; cls_ctor := CtorAssign [];
     cls_onInit := Some [HookResolveOnce 0 (TStr "S")] |}.

Definition failing_classes (c : ClassId) : ClassDef :=
  {| cls_name := Some "Service"; cls_inject := None; cls_ctor := CtorAssign [];
     cls_onInit := Some [HookThrow "boom"] |}.

(** The object that [new Ctor()] makes for a constructor that takes no
    dependency. *)
Definition fresh_object (Ctor : ClassId) (inits : list (PropertyKey * FieldInit)) : Obj :=
  {| obj_constructor := Some Ctor; obj_props := init_props [] inits |}.

(** The root has resolved ["S"] once, and then created a child. *)
Definition family_cached_world : World :=
  {| heap := [fresh_object 0 []];
     containers :=
       [{| providers := {[ TStr "S" := class_provider (TStr "S") 0 None ]};
           singletons := {[ Some (TStr "S") := VObj 0 ]}; parent := None |};
        {| providers := ∅; singletons := ∅; parent := Some 0 |}];
     propertyInjections := ∅; flags := ∅ |}.

(** A root and its child that both resolved ["Config"] while the root
    held [{ token: "Config", useValue: config }]; then the root registered
    [{ token: "Config", useClass: Service }] in its place. *)
Definition stale_run (src : SourceFile) : Result (Value * Value) :=
  (child ← createChild 0;
   _ ← resolve src service_classes 1 0 (TStr "Config") [];
   _ ← resolve src service_classes 1 child (TStr "Config") [];
   _ ← register 0 [class_provider (TStr "Config") 0 None];
   a ← resolve src service_classes 1 0 (TStr "Config") [];
   b ← resolve src service_classes 1 child (TStr "Config") [];
   mret (a, b)) (config_world None).

(** Two providers for the same token, a class and then a value. *)
Definition shadowing_providers : list Provider :=
  [class_provider (TStr "S") 0 None; value_provider (TStr "S") (VNum 1) None].

(** A loader that registers one provider: [(c) => c.register(p)]. *)
Definition register_loader (p : Provider) : ContainerId → M unit :=
  λ c, register c [p] ≫= λ _, mret ().

(** [class Repo {}], [class Service { static inject = ["Repo", "Missing"] }]:
    the second dependency has no provider. *)
Definition broken_classes (c : ClassId) : ClassDef :=
  match c with
  | 0 => simple_class "Service" (Some [TStr "Repo"; TStr "Missing"])
  | _ => simple_class "Repo" None
  end.

Definition broken_world : World :=
  set_containers
    [{| providers := {[ TStr "S" := class_provider (TStr "S") 0 None;
                        TStr "Repo" := class_provider (TStr "Repo") 1 (Some Transient) ]};
        singletons := ∅; parent := None |}] empty_world.

(** [{ token: "V", useValue: 1, useFactory: () => 2 }] *)
Definition value_and_factory : Provider :=
  {| token := Some (TStr "V"); scope := None; useClass := None;
     useValue := VNum 1; useFactory := Some (FnConst (VNum 2)); deps := None |}.

(** [class A { static inject = ["B"] }] and [class B { @Inject("A") a }]:
    a cycle that goes through a property injection. *)
Definition injection_cycle_classes (c : ClassId) : ClassDef :=
  match c with
  | 0 => simple_class "A" (Some [TStr "B"])
  | _ => simple_class "B" None
  end.

Definition injection_cycle_world : World :=
  {| heap := [];
     containers :=
       [{| providers := {[ TStr "A" := class_provider (TStr "A") 0 None;
                           TStr "B" := class_provider (TStr "B") 1 None ]};
           singletons := ∅; parent := None |}];
     propertyInjections := {[ 1 := [(KStr "a", TStr "A")] ]};
     flags := ∅ |}.

(** [class Client { static inject = ["Url"]; constructor(url) { this.url = url } }]
    registered on the root, which has its own ["Url"]; the child registers
    another ["Url"]. *)
Definition client_classes (c : ClassId) : ClassDef :=
  {| cls_name := Some "Client"; cls_inject := Some [TStr "Url"];
     cls_ctor := CtorAssign [(KStr "url", FromArg 0)]; cls_onInit := None |}.

Definition override_world : World :=
  set_containers
    [{| providers := {[ TStr "Client" := class_provider (TStr "Client") 0 (Some Transient);
                        TStr "Url" := value_provider (TStr "Url") (VStr "prod") None ]};
        singletons := ∅; parent := None |};
     {| providers := {[ TStr "Url" := value_provider (TStr "Url") (VStr "test") None ]};
        singletons := ∅; parent := Some 0 |}] empty_world.

(** ** The demonstration program of the commented copy *)

(** An object literal is a new object on the heap. *)
Definition new_literal (ps : list (PropertyKey * Value)) : M Value := λ w,
  Ret (VObj (length (heap w))) (set_heap (heap w ++ [literal ps]) w).

(** [const TOKENS = { Logger: Symbol("Logger"), Config: Symbol("Config"),
    Clock: Symbol("Clock") }] *)
Definition TOKENS_Logger : Token := TSym 0 (Some "Logger").
Definition TOKENS_Config : Token := TSym 1 (Some "Config").
Definition TOKENS_Clock : Token := TSym 2 (Some "Clock").

(** [class ConsoleLogger], [class SystemClock] and [class Greeter], whose
    methods ([log], [now], [greet], and the body of [onInit], which only
    logs) do not use the container. *)
Definition ConsoleLogger : ClassId := 0.
Definition SystemClock : ClassId := 1.
Definition Greeter : ClassId := 2.

Definition demo_classes (c : ClassId) : ClassDef :=
  match c with
  | 0 => simple_class "ConsoleLogger" None
  | 1 => simple_class "SystemClock" None
  | _ =>
      {| cls_name := Some "Greeter";
         cls_inject := Some [TOKENS_Logger; TOKENS_Config; TOKENS_Clock];
         cls_ctor := CtorAssign [(KStr "logger", FromArg 0);
                                 (KStr "config", FromArg 1);
                                 (KStr "clock", FromArg 2)];
         cls_onInit := Some [] |}
  end.

(** [const coreModule = new ContainerModule([...])] *)
Definition coreModule : list (ContainerId → M unit) :=
  [ (λ c, register c [class_provider TOKENS_Logger ConsoleLogger (Some Singleton)]
          ≫= λ _, mret ());
    (λ c, register c [class_provider TOKENS_Clock SystemClock (Some Transient)]
          ≫= λ _, mret ());
    (λ c, config ← new_literal [(KStr "appName", VStr "MyApp")];
          register c [value_provider TOKENS_Config config None] ≫= λ _, mret ());
    (λ c, register c [class_provider (TClass Greeter) Greeter (Some Transient)]
          ≫= λ _, mret ()) ].

(** [export function buildRootContainer()] *)
Definition buildRootContainer : M ContainerId :=
  root ← new_Container None;
  _ ← load coreModule root;
  mret root.

(** The module from top to bottom: the decorator of [Greeter] runs when
    the class is defined, then the body of [if (require.main === module)],
    which prints the two comparisons. *)
Definition demo_main (src : SourceFile) : M (bool * bool) :=
  _ ← Inject TOKENS_Logger Greeter (KStr "anotherLogger");
  root ← buildRootContainer;
  child ← createChild root;
  g1 ← resolve src demo_classes 3 root (TClass Greeter) [];
  g2 ← resolve src demo_classes 3 child (TClass Greeter) [];
  a ← resolve src demo_classes 3 root TOKENS_Logger [];
  b ← resolve src demo_classes 3 child TOKENS_Logger [];
  c ← resolve src demo_classes 3 root TOKENS_Logger [];
  d ← resolve src demo_classes 3 root TOKENS_Logger [];
  mret (strict_equal a b, strict_equal c d).

(** Three classes in a ring: [A] takes [B], [B] takes [C], [C] takes [A]. *)
Definition ring_classes (c : ClassId) : ClassDef :=
  match c with
  | 0 => simple_class "A" (Some [TStr "B"])
  | 1 => simple_class "B" (Some [TStr "C"])
  | _ => simple_class "C" (Some [TStr "A"])
  end.

Definition ring_world : World :=
  set_containers
    [{| providers := {[ TStr "A" := class_provider (TStr "A") 0 None;
                        TStr "B" := class_provider (TStr "B") 1 None;
                        TStr "C" := class_provider (TStr "C") 2 None ]};
        singletons := ∅; parent := None |}] empty_world.

(** ** Basic facts about computations *)

Section Computations.

Context {A B : Type}.

Lemma bind_ret (m : M A) (f : A → M B) (w w' : World) (a : A) :
  m w = Ret a w' → (m ≫= f) w = f a w'.
Proof. intros H. unfold mbind, M_bind. by rewrite H. Qed.

Lemma bind_throw (m : M A) (f : A → M B) (w w' : World) (e : Error) :
  m w = Throw e w' → (m ≫= f) w = Throw e w'.
Proof. intros H. unfold mbind, M_bind. by rewrite H. Qed.

Lemma bind_out_of_fuel (m : M A) (f : A → M B) (w : World) :
  m w = OutOfFuel → (m ≫= f) w = OutOfFuel.
Proof. intros H. unfold mbind, M_bind. by rewrite H. Qed.

Lemma bind_inv_ret (m : M A) (f : A → M B) (w w' : World) (b : B) :
  (m ≫= f) w = Ret b w' → ∃ a w1, m w = Ret a w1 ∧ f a w1 = Ret b w'.
Proof. unfold mbind, M_bind. destruct (m w); naive_solver. Qed.

Lemma bind_inv_throw (m : M A) (f : A → M B) (w w' : World) (e : Error) :
  (m ≫= f) w = Throw e w' →
  m w = Throw e w' ∨ ∃ a w1, m w = Ret a w1 ∧ f a w1 = Throw e w'.
Proof. unfold mbind, M_bind. destruct (m w); naive_solver. Qed.

End Computations.

Section Preserves.

Variable R : World → World → Prop.
Hypothesis R_refl : ∀ w, R w w.
Hypothesis R_trans : ∀ w1 w2 w3, R w1 w2 → R w2 w3 → R w1 w3.

Lemma preserves_ret {A} (a : A) : preserves R (mret a).
Proof. intros w. apply R_refl. Qed.

Lemma preserves_throw {A} (e : Error) : preserves R (@throw A e).
Proof. intros w. apply R_refl. Qed.

Lemma preserves_bind {A B} (m : M A) (f : A → M B) :
  preserves R m → (∀ a, preserves R (f a)) → preserves R (m ≫= f).
Proof.
  intros Hm Hf w. specialize (Hm w). unfold mbind, M_bind.
  destruct (m w) as [a w1|e w1|]; [|done..].
  specialize (Hf a w1). destruct (f a w1); eauto.
Qed.

Lemma preserves_modify (f : World → World) :
  (∀ w, R w (f w)) → preserves R (modify f).
Proof. intros H w. apply H. Qed.

Lemma preserves_mapM {A B} (f : A → M B) (l : list A) :
  (∀ a, preserves R (f a)) → preserves R (mapM f l).
Proof.
  intros Hf. induction l as [|x l IH]; simpl.
  - apply preserves_ret.
  - apply preserves_bind; [apply Hf|]. intros y.
    apply preserves_bind; [apply IH|]. intros k. apply preserves_ret.
Qed.

Lemma preserves_for_of {A} (l : list A) (body : A → M unit) :
  (∀ a, preserves R (body a)) → preserves R (for_of l body).
Proof.
  intros Hf. induction l as [|x l IH]; simpl.
  - apply preserves_ret.
  - apply preserves_bind; [apply Hf|]. intros _. apply IH.
Qed.

End Preserves.

(** ** What a resolution preserves

    One induction over the depth of the recursion serves every relation
    that the elementary updates respect: allocation, property definition,
    flipping a flag of user code, and the write to the cache of the
    resolving container, which happens for the token of a Singleton
    provider that the lookup returned when the call began and that the
    cache did not hold then. *)

Section ResolvePreserves.

Variable src : SourceFile.
Variable classes : ClassId → ClassDef.
Variable this : ContainerId.
Variable R : World → World → Prop.
Hypothesis R_refl : ∀ w, R w w.
Hypothesis R_trans : ∀ w1 w2 w3, R w1 w2 → R w2 w3 → R w1 w3.
Hypothesis R_alloc : ∀ w o, R w (set_heap (heap w ++ [o]) w).
Hypothesis R_define : ∀ w l k d, R w (defineProperty l k d w).
Hypothesis R_flag : ∀ w f, R w (set_flags ({[f]} ∪ flags w) w).
Hypothesis R_cache : ∀ w0 w tok p v,
  getProvider w0 this tok = Some p →
  effective_scope p = Singleton →
  cache_hit this p w0 = false →
  R w0 w →
  R w0 (update_container this (singletons_set (token p) v) w).

Lemma preserves_construct Ctor args : preserves R (construct classes Ctor args).
Proof.
  intros w. unfold construct. destruct (cls_ctor (classes Ctor)); [apply R_alloc|apply R_refl].
Qed.

Lemma preserves_call_factory f args : preserves R (call_factory classes f args).
Proof.
  destruct f; simpl.
  - by apply preserves_ret.
  - by apply preserves_ret.
  - apply preserves_construct.
  - by apply preserves_throw.
Qed.

Section Body.

Variable rec : Token → list Token → M Value.
Hypothesis rec_preserves : ∀ t s, preserves R (rec t s).

Lemma preserves_instantiate_class Ctor stack :
  preserves R (instantiate_class classes rec Ctor stack).
Proof.
  apply preserves_bind; [done| |].
  - apply preserves_mapM; [done..|]. intros dep. apply rec_preserves.
  - intros args. apply preserves_construct.
Qed.

Lemma preserves_instantiate_factory p f stack :
  preserves R (instantiate_factory classes rec p f stack).
Proof.
  apply preserves_bind; [done| |].
  - apply preserves_mapM; [done..|]. intros dep. apply rec_preserves.
  - intros args. apply preserves_call_factory.
Qed.

Lemma preserves_instantiate p stack :
  preserves R (instantiate src classes rec p stack).
Proof.
  unfold instantiate.
  destruct src, (useClass p), (useFactory p), (isValueProvider p);
    first [apply preserves_instantiate_class
          |apply preserves_instantiate_factory
          |by apply preserves_ret
          |by apply preserves_throw].
Qed.

Lemma preserves_inject_property l entry :
  preserves R (inject_property rec l entry).
Proof.
  apply preserves_bind; [done|apply rec_preserves|].
  intros v. apply preserves_modify. intros w. apply R_define.
Qed.

Lemma preserves_applyPropertyInjections instance :
  preserves R (applyPropertyInjections rec instance).
Proof.
  intros w. unfold applyPropertyInjections.
  destruct (negb (truthy instance) || negb (String.eqb (typeof instance) "object"));
    [apply R_refl|].
  destruct instance; try apply R_refl.
  apply (preserves_for_of R R_refl R_trans). intros e. apply preserves_inject_property.
Qed.

Lemma preserves_run_step s : preserves R (run_step rec s).
Proof.
  destruct s as [msg|t|flag t]; simpl.
  - by apply preserves_throw.
  - apply preserves_bind; [done|apply rec_preserves|]. intros _. by apply preserves_ret.
  - intros w. destruct (bool_decide (flag ∈ flags w)); [apply R_refl|].
    assert (Hp : preserves R (rec t [] ≫= λ _, mret ())).
    { apply preserves_bind; [done|apply rec_preserves|]. intros _. by apply preserves_ret. }
    specialize (Hp (set_flags ({[flag]} ∪ flags w) w)).
    destruct ((rec t [] ≫= λ _, mret ()) (set_flags ({[flag]} ∪ flags w) w));
      [| |done]; (eapply R_trans; [apply R_flag|done]).
Qed.

Lemma preserves_call_onInit instance : preserves R (call_onInit classes rec instance).
Proof.
  intros w. unfold call_onInit. destruct (onInit_of classes w instance); [|apply R_refl].
  apply (preserves_for_of R R_refl R_trans). apply preserves_run_step.
Qed.

Lemma preserves_resolve_body tok stack :
  preserves R (resolve_body src classes this rec tok stack).
Proof.
  intros w. unfold resolve_body.
  destruct (bool_decide (tok ∈ stack)); [apply R_refl|].
  destruct (getProvider w this tok) as [p|] eqn:Hp; [|apply R_refl].
  destruct (cache_hit this p w) eqn:Hhit; [apply R_refl|].
  pose proof (preserves_instantiate p (stack ++ [tok]) w) as H1.
  unfold mbind, M_bind.
  destruct (instantiate src classes rec p (stack ++ [tok]) w) as [inst w1|e w1|]; [|done..].
  pose proof (preserves_applyPropertyInjections inst w1) as H2.
  destruct (applyPropertyInjections rec inst w1) as [[] w2|e w2|]; [|by eauto|done].
  pose proof (preserves_call_onInit inst w2) as H3.
  destruct (call_onInit classes rec inst w2) as [[] w3|e w3|]; [|by eauto|done].
  assert (H03 : R w w3) by eauto.
  unfold cache_store.
  destruct src; simpl; [done| |];
    (case_bool_decide as Hs; simpl; [by eapply R_cache|done]).
Qed.

End Body.

Theorem resolve_preserves fuel tok stack :
  preserves R (resolve src classes fuel this tok stack).
Proof.
  revert tok stack. induction fuel as [|n IH]; intros tok stack.
  - intros w. exact I.
  - simpl. by apply preserves_resolve_body.
Qed.

End ResolvePreserves.

(** The same, for a relation packaged as [Respected], at each phase of
    a call. *)

Section Phases.

Variable src : SourceFile.
Variable classes : ClassId → ClassDef.
Variable this : ContainerId.
Variable R : World → World → Prop.
Hypothesis HR : Respected this R.
Variable fuel : nat.

Lemma resolve_respects tok stack :
  preserves R (resolve src classes fuel this tok stack).
Proof. destruct HR. by apply resolve_preserves. Qed.

Lemma resolve_all_respects stack deps :
  preserves R (mapM (λ dep, resolve src classes fuel this dep stack) deps).
Proof.
  destruct HR. apply preserves_mapM; [done..|]. intros dep. by apply resolve_preserves.
Qed.

Lemma instantiate_respects p stack :
  preserves R (instantiate src classes (resolve src classes fuel this) p stack).
Proof. destruct HR. apply preserves_instantiate; try done. apply resolve_respects. Qed.

Lemma inject_all_respects l entries :
  preserves R (for_of entries (inject_property (resolve src classes fuel this) l)).
Proof.
  destruct HR. apply preserves_for_of; [done..|]. intros e.
  apply preserves_inject_property; try done. apply resolve_respects.
Qed.

Lemma applyPropertyInjections_respects instance :
  preserves R (applyPropertyInjections (resolve src classes fuel this) instance).
Proof.
  destruct HR. apply preserves_applyPropertyInjections; try done. apply resolve_respects.
Qed.

Lemma call_onInit_respects instance :
  preserves R (call_onInit classes (resolve src classes fuel this) instance).
Proof. destruct HR. apply preserves_call_onInit; try done. apply resolve_respects. Qed.

End Phases.

(** ** The registry, the heap and the other caches *)

Lemma same_registry_refl w : same_registry w w.
Proof. done. Qed.

Lemma same_registry_trans w1 w2 w3 :
  same_registry w1 w2 → same_registry w2 w3 → same_registry w1 w3.
Proof. intros (?&?&?) (?&?&?). repeat split; congruence. Qed.

Lemma same_registry_defineProperty w l k d : same_registry w (defineProperty l k d w).
Proof. unfold defineProperty. by destruct (heap w !! l). Qed.

Lemma same_registry_cache_write w this k v :
  same_registry w (update_container this (singletons_set k v) w).
Proof.
  unfold same_registry, update_container; simpl. split_and!; [| |done].
  - rewrite (list_fmap_alter _ _ id); [by rewrite list_alter_id|].
    by apply Forall_true.
  - rewrite (list_fmap_alter _ _ id); [by rewrite list_alter_id|].
    by apply Forall_true.
Qed.

Lemma same_registry_respected this : Respected this same_registry.
Proof.
  split.
  - apply same_registry_refl.
  - apply same_registry_trans.
  - done.
  - apply same_registry_defineProperty.
  - done.
  - intros w0 w tok' p v _ _ _ H. eapply same_registry_trans; [done|].
    apply same_registry_cache_write.
Qed.

Lemma getProvider_walk_same_registry bound w w' c tok :
  same_registry w w' →
  getProvider_walk bound w' c tok = getProvider_walk bound w c tok.
Proof.
  intros (Hp & Hpa & _). revert c. induction bound as [|n IH]; intros c; [done|].
  simpl.
  assert (H1 : providers <$> containers w' !! c = providers <$> containers w !! c).
  { by rewrite <-!list_lookup_fmap, Hp. }
  assert (H2 : parent <$> containers w' !! c = parent <$> containers w !! c).
  { by rewrite <-!list_lookup_fmap, Hpa. }
  destruct (containers w' !! c) as [ct'|], (containers w !! c) as [ct|];
    simplify_eq/=; [|done].
  rewrite H1, H2. destruct (providers ct !! tok); [done|].
  destruct (parent ct); [apply IH|done].
Qed.

Lemma same_registry_length w w' :
  same_registry w w' → length (containers w') = length (containers w).
Proof. intros (Hp & _). by rewrite <-(length_fmap providers), <-Hp, length_fmap. Qed.

Lemma getProvider_same_registry w w' c tok :
  same_registry w w' → getProvider w' c tok = getProvider w c tok.
Proof.
  intros H. unfold getProvider. rewrite (same_registry_length w w') by done.
  by apply getProvider_walk_same_registry.
Qed.

Lemma registry_wf_same_registry w w' :
  same_registry w w' → registry_wf w → registry_wf w'.
Proof.
  intros (Hp & _) Hwf c ct' k p Hc Hk.
  assert (H1 : providers <$> containers w !! c = Some (providers ct')).
  { by rewrite <-list_lookup_fmap, Hp, list_lookup_fmap, Hc. }
  destruct (containers w !! c) as [ct|] eqn:Hct; simplify_eq/=.
  eapply Hwf; [done|]. by rewrite H1.
Qed.

Theorem resolve_same_registry src classes fuel this tok stack :
  preserves same_registry (resolve src classes fuel this tok stack).
Proof. apply resolve_respects, same_registry_respected. Qed.

Lemma heap_grows_trans w1 w2 w3 : heap_grows w1 w2 → heap_grows w2 w3 → heap_grows w1 w3.
Proof. unfold heap_grows. lia. Qed.

Lemma heap_grows_defineProperty w l k d : heap_grows w (defineProperty l k d w).
Proof.
  unfold heap_grows, defineProperty. destruct (heap w !! l); simpl; [|done].
  by rewrite length_insert.
Qed.

Lemma heap_grows_respected this : Respected this heap_grows.
Proof.
  split.
  - by unfold heap_grows.
  - apply heap_grows_trans.
  - intros w o. unfold heap_grows; simpl. rewrite length_app. lia.
  - apply heap_grows_defineProperty.
  - by unfold heap_grows.
  - by intros w0 w tok' p v _ _ _ H.
Qed.

Theorem resolve_heap_grows src classes fuel this tok stack :
  preserves heap_grows (resolve src classes fuel this tok stack).
Proof. apply resolve_respects, heap_grows_respected. Qed.

Lemma constructors_kept_respected this : Respected this constructors_kept.
Proof.
  split.
  - intros w l o H. by exists o.
  - intros w1 w2 w3 H12 H23 l o H.
    destruct (H12 l o H) as (o2 & H2 & E2). destruct (H23 l o2 H2) as (o3 & H3 & E3).
    exists o3. split; [done|congruence].
  - intros w o l o' H. exists o'. split; [|done]. simpl. by apply lookup_app_l_Some.
  - intros w l k d l' o H. unfold defineProperty.
    destruct (heap w !! l) as [ol|] eqn:Hl; [|by exists o]. simpl.
    destruct (decide (l = l')) as [->|Hne].
    + eexists. split; [apply list_lookup_insert_eq; by eapply lookup_lt_Some|].
      simpl. congruence.
    + exists o. by rewrite list_lookup_insert_ne.
  - intros w f l o H. by exists o.
  - intros w0 w tok' p v _ _ _ H. done.
Qed.

(** A resolution on [this] leaves the cache of every other container
    alone. *)
Lemma same_cache_respected this c : c ≠ this → Respected this (same_cache c).
Proof.
  intros Hne. split; unfold same_cache.
  - done.
  - intros; congruence.
  - done.
  - intros w l k d. unfold defineProperty. by destruct (heap w !! l).
  - done.
  - intros w0 w tok' p v _ _ _ H. rewrite H. unfold update_container; simpl.
    by rewrite list_lookup_alter_ne.
Qed.

Theorem resolve_same_cache src classes fuel this tok stack c :
  c ≠ this → preserves (same_cache c) (resolve src classes fuel this tok stack).
Proof. intros Hne. by apply resolve_respects, same_cache_respected. Qed.

(** ** Fuel

    A call that ends with some fuel ends the same way with more: results
    do not depend on the bound. *)

Section Refines.

Lemma refines_refl {A} (m : M A) : refines m m.
Proof. by intros w _. Qed.

Lemma refines_bind {A B} (m m' : M A) (f f' : A → M B) :
  refines m m' → (∀ a, refines (f a) (f' a)) → refines (m ≫= f) (m' ≫= f').
Proof.
  intros Hm Hf w. unfold mbind, M_bind. specialize (Hm w).
  destruct (m w) as [a w1|e w1|] eqn:E; [| |done].
  - intros H. rewrite Hm by done. by apply Hf.
  - intros _. by rewrite Hm.
Qed.

Lemma refines_mapM {A B} (f f' : A → M B) (l : list A) :
  (∀ a, refines (f a) (f' a)) → refines (mapM f l) (mapM f' l).
Proof.
  intros Hf. induction l as [|x l IH]; simpl; [apply refines_refl|].
  apply refines_bind; [apply Hf|]. intros y.
  apply refines_bind; [apply IH|]. intros k. apply refines_refl.
Qed.

Lemma refines_for_of {A} (l : list A) (body body' : A → M unit) :
  (∀ a, refines (body a) (body' a)) → refines (for_of l body) (for_of l body').
Proof.
  intros Hf. induction l as [|x l IH]; simpl; [apply refines_refl|].
  apply refines_bind; [apply Hf|]. intros _. apply IH.
Qed.

Variable src : SourceFile.
Variable classes : ClassId → ClassDef.
Variable this : ContainerId.
Variables rec rec' : Token → list Token → M Value.
Hypothesis rec_refines : ∀ t s, refines (rec t s) (rec' t s).

Lemma refines_instantiate p stack :
  refines (instantiate src classes rec p stack) (instantiate src classes rec' p stack).
Proof.
  unfold instantiate, instantiate_class, instantiate_factory.
  destruct src, (useClass p), (useFactory p), (isValueProvider p);
    first [apply refines_refl
          |apply refines_bind; [apply refines_mapM; intros dep; apply rec_refines
                               |intros args; apply refines_refl]].
Qed.

Lemma refines_applyPropertyInjections instance :
  refines (applyPropertyInjections rec instance) (applyPropertyInjections rec' instance).
Proof.
  intros w. unfold applyPropertyInjections.
  destruct (negb (truthy instance) || negb (String.eqb (typeof instance) "object")); [done|].
  destruct instance; try done.
  apply refines_for_of. intros e. unfold inject_property.
  apply refines_bind; [apply rec_refines|]. intros v. apply refines_refl.
Qed.

Lemma refines_run_step s : refines (run_step rec s) (run_step rec' s).
Proof.
  destruct s as [msg|t|flag t]; simpl.
  - apply refines_refl.
  - apply refines_bind; [apply rec_refines|]. intros v. apply refines_refl.
  - intros w. destruct (bool_decide (flag ∈ flags w)); [done|].
    apply (refines_bind (rec t []) (rec' t [])); [apply rec_refines|].
    intros v. apply refines_refl.
Qed.

Lemma refines_call_onInit instance :
  refines (call_onInit classes rec instance) (call_onInit classes rec' instance).
Proof.
  intros w. unfold call_onInit. destruct (onInit_of classes w instance); [|done].
  apply refines_for_of, refines_run_step.
Qed.

Lemma refines_resolve_body tok stack :
  refines (resolve_body src classes this rec tok stack)
          (resolve_body src classes this rec' tok stack).
Proof.
  intros w. unfold resolve_body.
  destruct (bool_decide (tok ∈ stack)); [done|].
  destruct (getProvider w this tok) as [p|]; [|done].
  destruct (cache_hit this p w); [done|].
  revert w. apply refines_bind; [apply refines_instantiate|]. intros inst.
  apply refines_bind; [apply refines_applyPropertyInjections|]. intros _.
  apply refines_bind; [apply refines_call_onInit|]. intros _.
  apply refines_refl.
Qed.

End Refines.

Lemma resolve_fuel_S src classes fuel this tok stack :
  refines (resolve src classes fuel this tok stack)
          (resolve src classes (S fuel) this tok stack).
Proof.
  revert tok stack. induction fuel as [|n IH]; intros tok stack.
  - by intros w H.
  - change (refines (resolve_body src classes this (resolve src classes n this) tok stack)
                    (resolve_body src classes this (resolve src classes (S n) this) tok stack)).
    by apply refines_resolve_body.
Qed.

Theorem resolve_fuel_mono src classes fuel fuel' this tok stack :
  fuel ≤ fuel' →
  refines (resolve src classes fuel this tok stack)
          (resolve src classes fuel' this tok stack).
Proof.
  induction 1 as [|m _ IH]; [apply refines_refl|].
  intros w H. rewrite <-(IH w H). apply resolve_fuel_S. by rewrite (IH w H).
Qed.

(** ** [resolve], case by case *)

Section ResolveCases.

Variable src : SourceFile.
Variable classes : ClassId → ClassDef.
Variable this : ContainerId.
Variable rec : Token → list Token → M Value.

Lemma resolve_body_cycle tok stack w :
  tok ∈ stack →
  resolve_body src classes this rec tok stack w =
    Throw (CircularDependencyError
             ("Circular dependency detected: " +:+
              String.concat " -> " (tokenToString src classes <$> stack ++ [tok]))) w.
Proof. intros H. unfold resolve_body. by rewrite bool_decide_eq_true_2. Qed.

Lemma resolve_body_not_found tok stack w :
  tok ∉ stack → getProvider w this tok = None →
  resolve_body src classes this rec tok stack w =
    Throw (ProviderNotFoundError
             ("No provider for token: " +:+ tokenToString src classes tok)) w.
Proof. intros H Hp. unfold resolve_body. by rewrite bool_decide_eq_false_2, Hp. Qed.

Lemma resolve_body_hit tok stack w p :
  tok ∉ stack → getProvider w this tok = Some p → cache_hit this p w = true →
  resolve_body src classes this rec tok stack w = Ret (cache_read src this tok p w) w.
Proof. intros H Hp Hh. unfold resolve_body. by rewrite bool_decide_eq_false_2, Hp, Hh. Qed.

Lemma resolve_body_miss tok stack w p :
  tok ∉ stack → getProvider w this tok = Some p → cache_hit this p w = false →
  resolve_body src classes this rec tok stack w =
    (instance ← instantiate src classes rec p (stack ++ [tok]);
     _ ← applyPropertyInjections rec instance;
     _ ← call_onInit classes rec instance;
     _ ← cache_store src this p instance;
     mret instance) w.
Proof. intros H Hp Hh. unfold resolve_body. by rewrite bool_decide_eq_false_2, Hp, Hh. Qed.

(** A provider with [useClass] is a class provider for all three copies. *)
Lemma instantiate_useClass p Ctor stack :
  useClass p = Some Ctor →
  instantiate src classes rec p stack = instantiate_class classes rec Ctor stack.
Proof. intros H. unfold instantiate. by destruct src; rewrite H. Qed.

(** The first dependency that throws aborts the construction. *)
Lemma instantiate_class_throw Ctor stack dep ds e w w' :
  cls_inject (classes Ctor) = Some (dep :: ds) →
  rec dep stack w = Throw e w' →
  instantiate_class classes rec Ctor stack w = Throw e w'.
Proof.
  intros Hi H. unfold instantiate_class. rewrite Hi. apply bind_throw.
  change (mapM (λ dep, rec dep stack) (dep :: ds))
    with (rec dep stack ≫= λ y, mapM (λ dep, rec dep stack) ds ≫= λ k, mret (y :: k)).
  by apply bind_throw.
Qed.

End ResolveCases.

(** ** Cycle detection *)

(** C4.  A call [resolve(token, stack)] with [token] already in [stack]
    throws a [CircularDependencyError] whose message is the chain of the
    stringified tokens of [stack] followed by [token], joined by [" -> "].
    In particular, when class providers for [a] and [b] are found, the class
    of [a] injecting [b] and the class of [b] injecting [a], and neither is
    cached, resolving [a] throws with the chain [a -> b -> a]. *)
Theorem resolve_circular src classes fuel this w :
  (∀ tok stack, tok ∈ stack →
     resolve src classes (S fuel) this tok stack w =
       Throw (CircularDependencyError
                ("Circular dependency detected: " +:+
                 String.concat " -> " (tokenToString src classes <$> stack ++ [tok]))) w)
  ∧ (∀ a b pa pb A B,
       a ≠ b →
       getProvider w this a = Some pa → useClass pa = Some A →
       cls_inject (classes A) = Some [b] → cache_hit this pa w = false →
       getProvider w this b = Some pb → useClass pb = Some B →
       cls_inject (classes B) = Some [a] → cache_hit this pb w = false →
       resolve src classes (S (S (S fuel))) this a [] w =
         Throw (CircularDependencyError
                  ("Circular dependency detected: " +:+
                   tokenToString src classes a +:+ " -> " +:+
                   tokenToString src classes b +:+ " -> " +:+
                   tokenToString src classes a)) w).
Proof.
  split.
  - intros tok stack H. by apply resolve_body_cycle.
  - intros a b pa pb A B Hab Ha HA HiA Hca Hb HB HiB Hcb.
    change (resolve src classes (S (S (S fuel))) this a [] w)
      with (resolve_body src classes this (resolve src classes (S (S fuel)) this) a [] w).
    rewrite (resolve_body_miss _ _ _ _ _ _ _ pa) by (done || apply not_elem_of_nil).
    apply bind_throw. rewrite (instantiate_useClass _ _ _ _ A) by done.
    eapply instantiate_class_throw; [done|].
    change (resolve src classes (S (S fuel)) this b ([] ++ [a]) w)
      with (resolve_body src classes this (resolve src classes (S fuel) this) b [a] w).
    rewrite (resolve_body_miss _ _ _ _ _ _ _ pb)
      by (done || by intros ->%list_elem_of_singleton).
    apply bind_throw. rewrite (instantiate_useClass _ _ _ _ B) by done.
    eapply instantiate_class_throw; [done|].
    change (resolve src classes (S fuel) this a ([a] ++ [b]) w)
      with (resolve_body src classes this (resolve src classes fuel this) a [a; b] w).
    rewrite resolve_body_cycle by apply list_elem_of_here. done.
Qed.

Lemma resolve_circular_witness :
  TClass 0 ∈ [TClass 0; TClass 1]
  ∧ resolve DiTs cycle_classes 1 0 (TClass 0) [TClass 0; TClass 1] cycle_world =
      Throw (CircularDependencyError "Circular dependency detected: A -> B -> A")
            cycle_world
  ∧ resolve DiTs cycle_classes 3 0 (TClass 0) [] cycle_world =
      Throw (CircularDependencyError "Circular dependency detected: A -> B -> A")
            cycle_world.
Proof.
  split; [apply list_elem_of_here|]. split.
  - apply (proj1 (resolve_circular DiTs cycle_classes 0 0 cycle_world)).
    apply list_elem_of_here.
  - apply (proj2 (resolve_circular DiTs cycle_classes 0 0 cycle_world)
             (TClass 0) (TClass 1)
             (class_provider (TClass 0) 0 None) (class_provider (TClass 1) 1 None) 0 1);
      first [discriminate | reflexivity].
Defined.

(** The scenario itself, from an empty program state, in each copy. *)
Lemma cycle_run_throws src :
  ∃ w, cycle_run src =
       Throw (CircularDependencyError "Circular dependency detected: A -> B -> A") w.
Proof. destruct src; eexists; reflexivity. Qed.

(** ** Registration *)

Lemma for_of_app {A} (l1 l2 : list A) (body : A → M unit) w :
  for_of (l1 ++ l2) body w = (for_of l1 body ≫= λ _, for_of l2 body) w.
Proof.
  revert w. induction l1 as [|x l1 IH]; intros w; simpl; [done|].
  unfold mbind, M_bind. destruct (body x w) as [[] w1| |]; [|done..]. apply IH.
Qed.

Lemma setProvider_missing_token this p w :
  token p = None →
  setProvider this p w = Throw (ResolutionError "Invalid provider: missing token") w.
Proof. intros H. unfold setProvider. by rewrite H. Qed.

Lemma setProvider_accepts this p k w :
  token p = Some k → token_falsy (Some k) = false →
  setProvider this p w = Ret () (update_container this (providers_set k p) w).
Proof. intros H Hk. unfold setProvider. by rewrite H, Hk. Qed.

(** C7.  Registering a provider object that lacks a token throws a
    [ResolutionError] from [setProvider], in the store as it was: no entry
    is added for it.  In a call of [register] with several providers the
    ones before it have been entered, and neither it nor any after it
    is; [register] with the token-less provider first leaves the store
    unchanged.  No resolution is involved: [register] only loops over
    [setProvider]. *)
Theorem register_missing_token this p w :
  token p = None →
  setProvider this p w = Throw (ResolutionError "Invalid provider: missing token") w
  ∧ (∀ post, register this (p :: post) w =
               Throw (ResolutionError "Invalid provider: missing token") w)
  ∧ (∀ pre post w1,
       for_of pre (setProvider this) w = Ret () w1 →
       register this (pre ++ p :: post) w =
         Throw (ResolutionError "Invalid provider: missing token") w1).
Proof.
  intros H. split_and!.
  - by apply setProvider_missing_token.
  - intros post. unfold register. apply bind_throw. simpl.
    apply bind_throw. by apply setProvider_missing_token.
  - intros pre post w1 Hpre. unfold register. apply bind_throw.
    rewrite for_of_app. erewrite bind_ret by done. simpl.
    apply bind_throw. by apply setProvider_missing_token.
Qed.

Lemma register_missing_token_witness :
  token (bare_provider None) = None
  ∧ register 0 [bare_provider None] root_world =
      Throw (ResolutionError "Invalid provider: missing token") root_world.
Proof.
  split; [reflexivity|].
  apply (proj1 (proj2 (register_missing_token 0 (bare_provider None) root_world
                         eq_refl))).
Defined.

Lemma getProvider_local w this ct tok p :
  containers w !! this = Some ct → providers ct !! tok = Some p →
  getProvider w this tok = Some p.
Proof.
  intros Hc Hp. unfold getProvider.
  destruct (length (containers w)) as [|n] eqn:Hlen.
  - apply lookup_lt_Some in Hc. lia.
  - simpl. by rewrite Hc, Hp.
Qed.

(** C9.  [setProvider] looks at the token only: a provider with a truthy
    token is entered whatever payload fields it carries, and is then what
    the lookup returns.  In [instantiate] the test for [useClass] comes
    first in each copy, so a provider that has [useClass] is instantiated
    as a class provider whatever else it carries. *)
Theorem register_ignores_payload this p k w :
  token p = Some k → token_falsy (Some k) = false →
  setProvider this p w = Ret () (update_container this (providers_set k p) w)
  ∧ register this [p] w = Ret this (update_container this (providers_set k p) w)
  ∧ (this < length (containers w) →
     getProvider (update_container this (providers_set k p) w) this k = Some p)
  ∧ (∀ src classes rec Ctor stack,
       useClass p = Some Ctor →
       instantiate src classes rec p stack = instantiate_class classes rec Ctor stack).
Proof.
  intros H Hk. split_and!.
  - by apply setProvider_accepts.
  - unfold register. simpl. unfold mbind, M_bind.
    by rewrite (setProvider_accepts _ _ k).
  - intros Hlt. destruct (lookup_lt_is_Some_2 _ _ Hlt) as [ct Hct].
    eapply getProvider_local.
    + unfold update_container; simpl. by rewrite list_lookup_alter_eq, Hct.
    + simpl. apply lookup_insert_eq.
  - intros. by apply instantiate_useClass.
Qed.

Lemma register_ignores_payload_witness :
  token two_payloads = Some (TStr "T")
  ∧ token_falsy (Some (TStr "T")) = false
  ∧ getProvider (update_container 0 (providers_set (TStr "T") two_payloads) root_world)
      0 (TStr "T") = Some two_payloads.
Proof.
  split; [reflexivity|]. split; [reflexivity|].
  apply (proj1 (proj2 (proj2 (register_ignores_payload 0 two_payloads (TStr "T")
                                root_world eq_refl eq_refl)))).
  simpl. lia.
Defined.

(** ** Instances that are not objects *)

(** C8.  When [instantiate] yields a value that is not an object (a value
    provider holding [null] or a primitive, say), [resolve] returns it:
    [applyPropertyInjections] returns at once, the test for [onInit] finds
    nothing to call, the cache write (where the copy has one) cannot throw,
    and the value comes back as it is. *)
Theorem resolve_non_object src classes fuel this tok stack w p v w1 :
  tok ∉ stack →
  getProvider w this tok = Some p →
  cache_hit this p w = false →
  instantiate src classes (resolve src classes fuel this) p (stack ++ [tok]) w = Ret v w1 →
  (∀ l, v ≠ VObj l) →
  applyPropertyInjections (resolve src classes fuel this) v w1 = Ret () w1
  ∧ call_onInit classes (resolve src classes fuel this) v w1 = Ret () w1
  ∧ ∃ w2, cache_store src this p v w1 = Ret () w2
          ∧ resolve src classes (S fuel) this tok stack w = Ret v w2.
Proof.
  intros Hstack Hp Hmiss Hinst Hv.
  assert (H1 : applyPropertyInjections (resolve src classes fuel this) v w1 = Ret () w1).
  { unfold applyPropertyInjections.
    destruct v as [| |b|n|s|l]; simpl; [done|done|by rewrite orb_true_r..|].
    by destruct (Hv l). }
  assert (H2 : call_onInit classes (resolve src classes fuel this) v w1 = Ret () w1).
  { unfold call_onInit. destruct v as [| | | | |l]; simpl; try done.
    by destruct (Hv l). }
  split; [done|]. split; [done|].
  assert (H3 : ∃ w2, cache_store src this p v w1 = Ret () w2).
  { unfold cache_store. destruct src; [by eexists| |];
      (destruct (bool_decide (effective_scope p = Singleton)); by eexists). }
  destruct H3 as [w2 H3]. exists w2. split; [done|].
  simpl resolve. rewrite (resolve_body_miss _ _ _ _ _ _ _ p) by done.
  erewrite bind_ret by done. erewrite bind_ret by done.
  erewrite bind_ret by done. erewrite bind_ret by done. done.
Qed.

Lemma resolve_non_object_witness :
  (TStr "T" ∉ [])
  ∧ (∀ l, VNull ≠ VObj l)
  ∧ resolve DiTs cycle_classes 1 0 (TStr "T") [] null_world = Ret VNull null_world.
Proof.
  split; [apply not_elem_of_nil|]. split; [done|].
  destruct (resolve_non_object DiTs cycle_classes 0 0 (TStr "T") [] null_world
              (value_provider (TStr "T") VNull None) VNull null_world)
    as (_ & _ & w2 & Hstore & Hres).
  - apply not_elem_of_nil.
  - reflexivity.
  - reflexivity.
  - reflexivity.
  - done.
  - injection Hstore as <-. exact Hres.
Defined.

(** ** Providers of no known kind *)

Lemma instantiate_no_payload classes rec p stack w :
  useClass p = None → useFactory p = None → useValue p = VUndefined →
  instantiate DiTs classes rec p stack w = Ret VUndefined w
  ∧ instantiate TestTs classes rec p stack w = Ret VUndefined w
  ∧ instantiate Commented classes rec p stack w =
      Throw (ResolutionError "Unknown provider type") w.
Proof.
  intros H1 H2 H3. unfold instantiate, isValueProvider. by rewrite H1, H2, H3.
Qed.

(** C2.  For the provider [{ token: "T", useValue: undefined }], which is
    of none of the three kinds, [resolve] of [src/di.ts] and of
    [src/test.ts] returns [undefined]; only the commented copy throws the
    [ResolutionError]. *)
Theorem unknown_provider_returns_undefined :
  (∃ w, undefined_value_run DiTs = Ret VUndefined w)
  ∧ (∃ w, undefined_value_run TestTs = Ret VUndefined w)
  ∧ (∃ w, undefined_value_run Commented =
          Throw (ResolutionError "Unknown provider type") w).
Proof. split_and!; eexists; reflexivity. Qed.

(** ** Singletons *)

(** C1.  In [src/di.ts] nothing ever writes the cache: a class registered
    as Singleton (by default or in so many words) and resolved twice on the
    root gives two objects and leaves the cache empty, where the two other
    copies give the same object twice. *)
Theorem singleton_rebuilt_in_di_ts (s : option Scope) :
  effective_scope (class_provider (TStr "S") 0 s) = Singleton →
  (∃ w, singleton_run DiTs s = Ret (VObj 0, VObj 1) w
        ∧ cache_entry w 0 (Some (TStr "S")) = None)
  ∧ (∃ w, singleton_run TestTs s = Ret (VObj 0, VObj 0) w)
  ∧ (∃ w, singleton_run Commented s = Ret (VObj 0, VObj 0) w).
Proof.
  destruct s as [[]|]; [|discriminate|]; intros _;
    (split_and!; eexists; [split|..]; reflexivity).
Qed.

Lemma singleton_rebuilt_in_di_ts_witness :
  effective_scope (class_provider (TStr "S") 0 None) = Singleton
  ∧ ∃ w, singleton_run DiTs None = Ret (VObj 0, VObj 1) w
         ∧ cache_entry w 0 (Some (TStr "S")) = None.
Proof.
  split; [reflexivity|].
  exact (proj1 (singleton_rebuilt_in_di_ts None eq_refl)).
Defined.

(** ** What a returning [resolve] went through *)

Lemma resolve_ret_inv src classes fuel this tok stack w v w' :
  resolve src classes (S fuel) this tok stack w = Ret v w' →
  (tok ∉ stack)
  ∧ ∃ p, getProvider w this tok = Some p
    ∧ ((cache_hit this p w = true ∧ v = cache_read src this tok p w ∧ w' = w)
       ∨ (cache_hit this p w = false
          ∧ ∃ w1 w2 w3,
              instantiate src classes (resolve src classes fuel this) p
                (stack ++ [tok]) w = Ret v w1
              ∧ applyPropertyInjections (resolve src classes fuel this) v w1 = Ret () w2
              ∧ call_onInit classes (resolve src classes fuel this) v w2 = Ret () w3
              ∧ cache_store src this p v w3 = Ret () w')).
Proof.
  simpl resolve. unfold resolve_body.
  case_bool_decide as Hin; [done|]. intros H. split; [done|].
  destruct (getProvider w this tok) as [p|]; [|done]. exists p. split; [done|].
  destruct (cache_hit this p w) eqn:Hhit.
  - left. by simplify_eq.
  - right. split; [done|].
    apply bind_inv_ret in H as (inst & w1 & H1 & H).
    apply bind_inv_ret in H as ([] & w2 & H2 & H).
    apply bind_inv_ret in H as ([] & w3 & H3 & H).
    apply bind_inv_ret in H as ([] & w4 & H4 & H).
    injection H as -> ->. by exists w1, w2, w3.
Qed.

Lemma cache_store_inv src this p v w w' :
  cache_store src this p v w = Ret () w' →
  w' = w
  ∨ (src ≠ DiTs ∧ effective_scope p = Singleton
     ∧ w' = update_container this (singletons_set (token p) v) w).
Proof.
  unfold cache_store. destruct src; [intros [= <-]; by left| |];
    (case_bool_decide; intros [= <-]; [by right|by left]).
Qed.

Lemma cache_store_heap src this p v w w' :
  cache_store src this p v w = Ret () w' → heap w' = heap w.
Proof. intros [->|(_ & _ & ->)]%cache_store_inv; done. Qed.

Lemma cache_hit_transient this p w :
  effective_scope p = Transient → cache_hit this p w = false.
Proof. intros H. unfold cache_hit. by rewrite H. Qed.

Lemma getProvider_valid w this tok p :
  getProvider w this tok = Some p → this < length (containers w).
Proof.
  unfold getProvider. destruct (length (containers w)) as [|n] eqn:Hlen; [done|].
  simpl. destruct (containers w !! this) eqn:Hc; [|done].
  intros _. rewrite <-Hlen. by eapply lookup_lt_Some.
Qed.

Lemma getProvider_walk_token bound w this tok p :
  registry_wf w → getProvider_walk bound w this tok = Some p → token p = Some tok.
Proof.
  intros Hwf. revert this. induction bound as [|n IH]; intros this; [done|].
  simpl. destruct (containers w !! this) as [ct|] eqn:Hc; [|done].
  destruct (providers ct !! tok) as [q|] eqn:Hq.
  - intros [= ->]. by eapply Hwf.
  - destruct (parent ct); [apply IH|done].
Qed.

Lemma getProvider_token w this tok p :
  registry_wf w → getProvider w this tok = Some p → token p = Some tok.
Proof. apply getProvider_walk_token. Qed.

(** ** Fresh objects *)

Section Fresh.

Variable src : SourceFile.
Variable classes : ClassId → ClassDef.
Variable this : ContainerId.

Lemma construct_fresh Ctor args w v w1 :
  construct classes Ctor args w = Ret v w1 →
  ∃ inits, cls_ctor (classes Ctor) = CtorAssign inits
    ∧ v = VObj (length (heap w))
    ∧ w1 = set_heap (heap w ++ [{| obj_constructor := Some Ctor;
                                   obj_props := init_props args inits |}]) w.
Proof.
  unfold construct. destruct (cls_ctor (classes Ctor)) as [inits|]; [|done].
  intros [= <- <-]. by exists inits.
Qed.

Lemma instantiate_class_fresh rec Ctor stack w v w1 :
  (∀ t s, preserves heap_grows (rec t s)) →
  instantiate_class classes rec Ctor stack w = Ret v w1 →
  ∃ l args inits,
    v = VObj l ∧ length (heap w) ≤ l
    ∧ cls_ctor (classes Ctor) = CtorAssign inits
    ∧ heap w1 !! l = Some {| obj_constructor := Some Ctor;
                             obj_props := init_props args inits |}.
Proof.
  intros Hrec H. unfold instantiate_class in H.
  apply bind_inv_ret in H as (args & w0 & Hargs & H).
  apply construct_fresh in H as (inits & Hctor & -> & ->).
  exists (length (heap w0)), args, inits. split_and!; [done| |done|].
  - pose proof (preserves_mapM heap_grows (λ _, le_n _) heap_grows_trans
                  (λ dep, rec dep stack)
                  (default [] (cls_inject (classes Ctor)))
                  (λ dep, Hrec dep stack) w) as Hg.
    by rewrite Hargs in Hg.
  - simpl. by rewrite lookup_app_r, Nat.sub_diag.
Qed.

(** A class provider that is not served from the cache yields an object
    that did not exist when the call began. *)
Lemma resolve_class_fresh fuel tok stack w v w' p Ctor :
  resolve src classes fuel this tok stack w = Ret v w' →
  getProvider w this tok = Some p → useClass p = Some Ctor →
  cache_hit this p w = false →
  ∃ l, v = VObj l ∧ length (heap w) ≤ l < length (heap w').
Proof.
  destruct fuel as [|fuel]; [done|].
  intros (_ & p' & Hp' & H)%resolve_ret_inv Hp HC Hmiss. simplify_eq.
  destruct H as [(? & _)|(_ & w1 & w2 & w3 & H1 & H2 & H3 & H4)]; [congruence|].
  rewrite (instantiate_useClass _ _ _ _ Ctor) in H1 by done.
  apply instantiate_class_fresh in H1 as (l & args & inits & -> & Hl & _ & Hobj);
    [|intros; apply resolve_heap_grows].
  exists l. split; [done|]. split; [done|].
  apply lookup_lt_Some in Hobj.
  pose proof (applyPropertyInjections_respects src classes this heap_grows
                (heap_grows_respected this) fuel (VObj l) w1) as G2.
  rewrite H2 in G2.
  pose proof (call_onInit_respects src classes this heap_grows
                (heap_grows_respected this) fuel (VObj l) w2) as G3.
  rewrite H3 in G3.
  apply cache_store_heap in H4. unfold heap_grows in *. rewrite H4. lia.
Qed.

End Fresh.

(** ** Transient providers *)

Lemma singletons_has_entry this k w :
  singletons_has this k w = bool_decide (is_Some (cache_entry w this k)).
Proof.
  unfold singletons_has, cache_entry. by destruct (containers w !! this).
Qed.

Lemma cache_entry_write_ne this k k' v w :
  k ≠ k' →
  cache_entry (update_container this (singletons_set k v) w) this k' =
  cache_entry w this k'.
Proof.
  intros Hne. unfold cache_entry, update_container; simpl.
  rewrite list_lookup_alter_eq. destruct (containers w !! this); simpl; [|done].
  by rewrite lookup_insert_ne.
Qed.

Lemma cache_entry_write this k v w :
  this < length (containers w) →
  cache_entry (update_container this (singletons_set k v) w) this k = Some v.
Proof.
  intros [ct Hct]%lookup_lt_is_Some_2. unfold cache_entry, update_container; simpl.
  rewrite list_lookup_alter_eq, Hct. simpl. apply lookup_insert_eq.
Qed.

(** A resolution never writes the cache entry of a token whose provider is
    Transient. *)
Lemma resolve_transient_entry src classes fuel this tok p tok' stack w :
  registry_wf w → getProvider w this tok = Some p → effective_scope p = Transient →
  match resolve src classes fuel this tok' stack w with
  | Ret _ w' | Throw _ w' => same_cache_entry this (Some tok) w w'
  | OutOfFuel => True
  end.
Proof.
  intros Hwf Hp Hs.
  pose (R := λ w w' : World,
          same_registry w w'
          ∧ (registry_wf w → getProvider w this tok = Some p →
             same_cache_entry this (Some tok) w w')).
  assert (HR : preserves R (resolve src classes fuel this tok' stack)).
  { apply resolve_preserves; unfold R.
    - done.
    - intros w1 w2 w3 [Hr1 He1] [Hr2 He2].
      split; [by eapply same_registry_trans|]. intros Hwf1 Hp1.
      unfold same_cache_entry in *. rewrite He1 by done. apply He2.
      + by eapply registry_wf_same_registry.
      + by rewrite (getProvider_same_registry w1 w2).
    - done.
    - intros w1 l k d. split; [apply same_registry_defineProperty|]. intros _ _.
      unfold same_cache_entry, cache_entry, defineProperty. by destruct (heap w1 !! l).
    - done.
    - intros w0 w1 t q v Hq Hsq _ [Hr He].
      split; [eapply same_registry_trans; [done|apply same_registry_cache_write]|].
      intros Hwf0 Hp0. unfold same_cache_entry in *. rewrite He by done.
      symmetry. apply cache_entry_write_ne.
      rewrite (getProvider_token w0 this t q) by done.
      intros [= ->]. congruence. }
  specialize (HR w). destruct (resolve src classes fuel this tok' stack w);
    [| |done]; by apply HR.
Qed.

(** C3, as amended.  A provider registered with Transient scope never has
    the cache entry of its token written, whatever its kind; and two
    resolutions of a Transient class provider that both return give
    distinct objects. *)
Theorem transient_class_fresh src classes fuel fuel' this tok p w :
  registry_wf w → getProvider w this tok = Some p → scope p = Some Transient →
  (∀ stack, match resolve src classes fuel this tok stack w with
            | Ret _ w' | Throw _ w' => same_cache_entry this (Some tok) w w'
            | OutOfFuel => True
            end)
  ∧ (∀ Ctor v1 w1 v2 w2,
       useClass p = Some Ctor →
       resolve src classes fuel this tok [] w = Ret v1 w1 →
       resolve src classes fuel' this tok [] w1 = Ret v2 w2 →
       v1 ≠ v2).
Proof.
  intros Hwf Hp Hs.
  assert (Heff : effective_scope p = Transient) by (unfold effective_scope; by rewrite Hs).
  split.
  - intros stack. by eapply resolve_transient_entry.
  - intros Ctor v1 w1 v2 w2 HC H1 H2.
    pose proof (resolve_same_registry src classes fuel this tok [] w) as Hreg.
    rewrite H1 in Hreg.
    eapply resolve_class_fresh in H1 as (l1 & -> & _ & Hl1);
      [|done|done|by apply cache_hit_transient].
    eapply resolve_class_fresh in H2 as (l2 & -> & Hl2 & _);
      [| |done|by apply cache_hit_transient].
    + intros [= ->]. lia.
    + by rewrite (getProvider_same_registry w w1).
Qed.

(** ** Well-formed stores

    The stores that [new Container], [createChild] and [register] build
    file every provider under its token and order every parent before its
    child; [resolve] keeps both, since it leaves the registry alone. *)

Lemma registry_wf_empty : registry_wf empty_world.
Proof. intros c ct k p H. simpl in H. by rewrite lookup_nil in H. Qed.

Lemma registry_wf_new_Container parent w c w' :
  registry_wf w → new_Container parent w = Ret c w' → registry_wf w'.
Proof.
  intros Hwf [= <- <-] c' ct k p; simpl.
  intros [Hc|[_ Hc]]%lookup_app_Some; [by eapply Hwf|].
  apply list_lookup_singleton_Some in Hc as [_ <-]. simpl. by rewrite lookup_empty.
Qed.

Lemma setProvider_inv this p w w' :
  setProvider this p w = Ret () w' →
  ∃ k, token p = Some k ∧ w' = update_container this (providers_set k p) w.
Proof.
  unfold setProvider. destruct (token p) as [k|]; [|done].
  destruct (token_falsy (Some k)); [done|]. intros [= <-]. by exists k.
Qed.

Lemma registry_wf_setProvider this p w w' :
  registry_wf w → setProvider this p w = Ret () w' → registry_wf w'.
Proof.
  intros Hwf (k & Hk & ->)%setProvider_inv c ct k' p'.
  unfold update_container; simpl. rewrite list_lookup_alter.
  case_decide as Hc; [subst c|by apply Hwf].
  destruct (containers w !! this) as [ct0|] eqn:Hct; [|done].
  intros [= <-]; simpl. rewrite lookup_insert. case_decide.
  - intros [= <-]. by subst.
  - by eapply Hwf.
Qed.

Lemma for_of_setProvider_wf this ps w w' :
  registry_wf w → for_of ps (setProvider this) w = Ret () w' → registry_wf w'.
Proof.
  revert w. induction ps as [|p ps IH]; intros w Hwf; simpl.
  - by intros [= <-].
  - intros ([] & w1 & H1 & H2)%bind_inv_ret.
    eapply IH; [|done]. by eapply registry_wf_setProvider.
Qed.

Lemma registry_wf_register this ps w c w' :
  registry_wf w → register this ps w = Ret c w' → registry_wf w'.
Proof.
  intros Hwf ([] & w1 & H1 & [= _ <-])%bind_inv_ret.
  by eapply for_of_setProvider_wf.
Qed.

Lemma registry_wf_root : registry_wf root_world.
Proof.
  apply (registry_wf_new_Container None empty_world 0); [apply registry_wf_empty|done].
Qed.

Lemma chain_wf_same_registry w w' : same_registry w w' → chain_wf w → chain_wf w'.
Proof.
  intros (_ & Hpa & _) Hwf c ct' pa Hc Hp.
  assert (H1 : parent <$> containers w !! c = Some (parent ct')).
  { by rewrite <-list_lookup_fmap, Hpa, list_lookup_fmap, Hc. }
  destruct (containers w !! c) as [ct|] eqn:Hct; simplify_eq/=.
  eapply Hwf; [done|]. congruence.
Qed.

Lemma chain_wf_createChild this w c w' :
  chain_wf w → this < length (containers w) →
  createChild this w = Ret c w' →
  chain_wf w'
  ∧ c = length (containers w)
  ∧ containers w' = containers w ++ [{| providers := ∅; singletons := ∅;
                                        parent := Some this |}].
Proof.
  intros Hwf Hlt [= <- <-]. split; [|done].
  intros c' ct pa; simpl.
  intros [Hc|[Hlen Hc]]%lookup_app_Some; [by eapply Hwf|].
  apply list_lookup_singleton_Some in Hc as [Hc <-]. simpl. intros [= <-]. lia.
Qed.

Lemma chain_wf_setProvider this p w w' :
  chain_wf w → setProvider this p w = Ret () w' → chain_wf w'.
Proof.
  intros Hwf (k & Hk & ->)%setProvider_inv c ct pa.
  unfold update_container; simpl. rewrite list_lookup_alter.
  case_decide as Hc; [subst c|by apply Hwf].
  destruct (containers w !! this) as [ct0|] eqn:Hct; [|done].
  intros [= <-]; simpl. by apply Hwf.
Qed.

Lemma chain_wf_root : chain_wf root_world.
Proof.
  intros c ct pa [-> <-]%list_lookup_singleton_Some. done.
Qed.

Lemma transient_class_fresh_witness :
  registry_wf (service_world (Some Transient))
  ∧ getProvider (service_world (Some Transient)) 0 (TStr "S") =
      Some (class_provider (TStr "S") 0 (Some Transient))
  ∧ VObj 0 ≠ VObj 1.
Proof.
  assert (Hwf : registry_wf (service_world (Some Transient))).
  { apply (registry_wf_register 0
             [class_provider (TStr "S") 0 (Some Transient)] root_world 0);
      [apply registry_wf_root|reflexivity]. }
  split; [exact Hwf|]. split; [reflexivity|].
  eapply (proj2 (transient_class_fresh DiTs service_classes 1 1 0 (TStr "S")
                   (class_provider (TStr "S") 0 (Some Transient))
                   (service_world (Some Transient)) Hwf eq_refl eq_refl)
            0 (VObj 0) _ (VObj 1) _ eq_refl); reflexivity.
Defined.

(** C3 as stated fails in each copy: a Transient value provider hands out
    its stored object at every resolution. *)
Lemma transient_value_not_fresh :
  ¬ transient_always_fresh DiTs
  ∧ ¬ transient_always_fresh TestTs
  ∧ ¬ transient_always_fresh Commented.
Proof.
  split_and!; intros H;
    (eapply (H service_classes 1 0 (TStr "Config")
               (value_provider (TStr "Config") (VObj 0) (Some Transient))
               (config_world (Some Transient)) (VObj 0) _ (VObj 0) _);
     reflexivity).
Qed.

(** ** The singleton cache in the copies that write it *)

Lemma cache_store_singleton src this p v w :
  src ≠ DiTs → effective_scope p = Singleton →
  cache_store src this p v w =
    Ret () (update_container this (singletons_set (token p) v) w).
Proof.
  intros Hsrc Hs. unfold cache_store.
  destruct src; [done| |]; by rewrite bool_decide_eq_true_2.
Qed.

(** A Singleton that had to be built is in the cache of the resolving
    container when [resolve] returns. *)
Lemma resolve_caches src classes fuel this tok stack w v w' p :
  src ≠ DiTs →
  resolve src classes fuel this tok stack w = Ret v w' →
  getProvider w this tok = Some p → effective_scope p = Singleton →
  cache_hit this p w = false →
  cache_entry w' this (token p) = Some v.
Proof.
  intros Hsrc H Hp Hs Hmiss.
  pose proof (resolve_same_registry src classes fuel this tok stack w) as Hreg.
  rewrite H in Hreg. apply same_registry_length in Hreg.
  destruct fuel as [|fuel]; [done|].
  apply resolve_ret_inv in H as (_ & p' & Hp' & H). simplify_eq.
  destruct H as [(? & _)|(_ & w1 & w2 & w3 & H1 & H2 & H3 & H4)]; [congruence|].
  rewrite cache_store_singleton in H4 by done. injection H4 as <-.
  apply cache_entry_write.
  unfold update_container in Hreg; simpl in Hreg. rewrite length_alter in Hreg.
  rewrite Hreg. by eapply getProvider_valid.
Qed.

Lemma cache_read_entry src this tok p w x :
  token p = Some tok → cache_entry w this (token p) = Some x →
  cache_read src this tok p w = x.
Proof.
  intros Htok He. unfold cache_read, singletons_get. rewrite <-Htok.
  fold (cache_entry w this (token p)). rewrite He. by destruct src.
Qed.

(** In the copies that write the cache, what a resolution of a Singleton
    token returns is what the cache of the resolving container then
    holds for it. *)
Lemma resolve_singleton_cached src classes fuel this tok p w v w1 :
  src ≠ DiTs → registry_wf w →
  getProvider w this tok = Some p → effective_scope p = Singleton →
  resolve src classes fuel this tok [] w = Ret v w1 →
  cache_entry w1 this (token p) = Some v.
Proof.
  intros Hsrc Hwf Hp Hs H.
  destruct (cache_hit this p w) eqn:Hc; [|by eapply resolve_caches].
  destruct fuel as [|fuel]; [done|].
  apply resolve_ret_inv in H as (_ & p' & Hp' & H).
  assert (p' = p) as -> by congruence.
  destruct H as [(_ & -> & ->)|(? & _)]; [|congruence].
  unfold cache_hit in Hc. apply andb_true_iff in Hc as [_ Hc].
  rewrite singletons_has_entry in Hc. apply bool_decide_eq_true_1 in Hc as [x Hx].
  rewrite Hx. f_equal. symmetry. apply cache_read_entry; [|done].
  by eapply getProvider_token.
Qed.

(** Singleton stability, for [src/test.ts] and the commented copy: once a
    resolution of a Singleton token has returned, resolving the token again
    on the same container returns the same value and changes nothing. *)
Theorem singleton_stable src classes fuel fuel' this tok p w v w1 :
  src ≠ DiTs → registry_wf w →
  getProvider w this tok = Some p → effective_scope p = Singleton →
  resolve src classes fuel this tok [] w = Ret v w1 →
  resolve src classes (S fuel') this tok [] w1 = Ret v w1.
Proof.
  intros Hsrc Hwf Hp Hs H.
  pose proof (resolve_same_registry src classes fuel this tok [] w) as Hreg.
  rewrite H in Hreg.
  pose proof (resolve_singleton_cached _ _ _ _ _ _ _ _ _ Hsrc Hwf Hp Hs H) as Hent.
  simpl resolve. rewrite (resolve_body_hit _ _ _ _ _ _ _ p).
  - f_equal. apply cache_read_entry; [by eapply getProvider_token|done].
  - apply not_elem_of_nil.
  - by rewrite (getProvider_same_registry w w1).
  - unfold cache_hit. rewrite singletons_has_entry, Hent.
    by rewrite !bool_decide_eq_true_2.
Qed.

Lemma singleton_stable_witness :
  ∃ w1, resolve Commented service_classes 1 0 (TStr "S") [] (service_world None) =
          Ret (VObj 0) w1
        ∧ resolve Commented service_classes 1 0 (TStr "S") [] w1 = Ret (VObj 0) w1.
Proof.
  eexists. split; [reflexivity|].
  eapply (singleton_stable Commented service_classes 1 0 0 (TStr "S")
            (class_provider (TStr "S") 0 None) (service_world None)).
  - done.
  - apply (registry_wf_register 0 [class_provider (TStr "S") 0 None] root_world 0);
      [apply registry_wf_root|reflexivity].
  - reflexivity.
  - reflexivity.
  - reflexivity.
Defined.

(** ** Parent and child *)

Lemma getProvider_walk_bound w tok b1 b2 c :
  chain_wf w → c < b1 → c < b2 →
  getProvider_walk b1 w c tok = getProvider_walk b2 w c tok.
Proof.
  intros Hwf. revert b2 c. induction b1 as [|b1 IH]; intros b2 c H1 H2; [lia|].
  destruct b2 as [|b2]; [lia|]. simpl.
  destruct (containers w !! c) as [ct|] eqn:Hc; [|done].
  destruct (providers ct !! tok); [done|].
  destruct (parent ct) as [pa|] eqn:Hpa; [|done].
  pose proof (Hwf c ct pa Hc Hpa). apply IH; lia.
Qed.

(** Upward delegation: a child without a local entry answers with its
    parent's lookup. *)
Lemma getProvider_delegates w C ctC P tok :
  chain_wf w → containers w !! C = Some ctC → parent ctC = Some P →
  providers ctC !! tok = None →
  getProvider w C tok = getProvider w P tok.
Proof.
  intros Hwf HC HP Hnone. unfold getProvider.
  pose proof (lookup_lt_Some _ _ _ HC) as Hlt. pose proof (Hwf C ctC P HC HP).
  destruct (length (containers w)) as [|n]; [lia|].
  simpl getProvider_walk at 1. rewrite HC, Hnone, HP.
  apply getProvider_walk_bound; [done|lia..].
Qed.

(** No downward delegation: the walk from [P] only meets [P] and its
    ancestors. *)
Lemma getProvider_walk_none w bound P tok :
  chain_wf w →
  (∀ c ct, c ≤ P → containers w !! c = Some ct → providers ct !! tok = None) →
  getProvider_walk bound w P tok = None.
Proof.
  intros Hwf. revert P. induction bound as [|b IH]; intros P Hnone; [done|]. simpl.
  destruct (containers w !! P) as [ct|] eqn:Hc; [|done].
  rewrite (Hnone P ct) by done.
  destruct (parent ct) as [pa|] eqn:Hpa; [|done].
  pose proof (Hwf P ct pa Hc Hpa). apply IH. intros c ct' Hle. apply Hnone. lia.
Qed.

Lemma same_cache_entry_of c k w w' :
  same_cache c w w' → cache_entry w c k = cache_entry w' c k.
Proof.
  unfold same_cache, cache_entry. intros H.
  destruct (containers w !! c), (containers w' !! c); simpl in *; try done.
  by injection H as ->.
Qed.

(** ** Property injection *)

Lemma get_prop_put_prop key d ps : get_prop key (put_prop key d ps) = Some d.
Proof.
  induction ps as [|[k d'] ps IH]; simpl.
  - by rewrite decide_True.
  - destruct (decide (k = key)) as [->|Hne]; simpl.
    + by rewrite decide_True.
    + by rewrite decide_False.
Qed.

Lemma own_property_defineProperty w l key d :
  l < length (heap w) →
  own_property (defineProperty l key d w) l key = Some d.
Proof.
  intros Hlt. destruct (lookup_lt_is_Some_2 _ _ Hlt) as [o Ho].
  unfold own_property, defineProperty. rewrite Ho. simpl.
  rewrite list_lookup_insert_eq by done. simpl. apply get_prop_put_prop.
Qed.

Lemma own_property_cache_store src this p v w w' l key :
  cache_store src this p v w = Ret () w' → own_property w' l key = own_property w l key.
Proof. intros H%cache_store_heap. unfold own_property. by rewrite H. Qed.

(** ** The hook and the cache *)

(** A class without dependencies and without injections: [resolve] on a
    miss allocates the object, runs the hook and only then stores. *)
Lemma resolve_body_plain_class src classes this rec tok stack w p Ctor inits :
  tok ∉ stack → getProvider w this tok = Some p → useClass p = Some Ctor →
  cache_hit this p w = false →
  default [] (cls_inject (classes Ctor)) = [] →
  cls_ctor (classes Ctor) = CtorAssign inits →
  default [] (propertyInjections w !! Ctor) = [] →
  get_prop (KStr "onInit") (init_props [] inits) = None →
  resolve_body src classes this rec tok stack w =
    (_ ← for_of (default [] (cls_onInit (classes Ctor))) (run_step rec);
     _ ← cache_store src this p (VObj (length (heap w)));
     mret (VObj (length (heap w))))
      (set_heap (heap w ++ [fresh_object Ctor inits]) w).
Proof.
  intros Hstack Hp HC Hmiss Hinj Hctor Hpi Hown.
  rewrite (resolve_body_miss _ _ _ _ _ _ _ p) by done.
  assert (H1 : instantiate src classes rec p (stack ++ [tok]) w =
               Ret (VObj (length (heap w)))
                   (set_heap (heap w ++ [fresh_object Ctor inits]) w)).
  { rewrite (instantiate_useClass _ _ _ _ Ctor) by done.
    unfold instantiate_class. rewrite Hinj. simpl.
    unfold mbind, M_bind, mret, M_ret, construct. by rewrite Hctor. }
  erewrite bind_ret by exact H1.
  set (w1 := set_heap (heap w ++ [fresh_object Ctor inits]) w).
  assert (Hobj : heap w1 !! length (heap w) = Some (fresh_object Ctor inits)).
  { simpl. by rewrite lookup_app_r, Nat.sub_diag. }
  assert (H2 : applyPropertyInjections rec (VObj (length (heap w))) w1 = Ret () w1).
  { unfold applyPropertyInjections, constructor_of. simpl negb. simpl orb. cbv iota.
    rewrite Hobj. simpl.
    destruct (get_prop (KStr "constructor") (init_props [] inits)); [done|].
    simpl. by rewrite Hpi. }
  erewrite bind_ret by exact H2.
  assert (H3 : call_onInit classes rec (VObj (length (heap w))) w1 =
               for_of (default [] (cls_onInit (classes Ctor))) (run_step rec) w1).
  { unfold call_onInit, onInit_of. rewrite Hobj. simpl. rewrite Hown.
    by destruct (cls_onInit (classes Ctor)). }
  unfold mbind at 1, M_bind at 1. rewrite H3. done.
Qed.


(** ** References to an object

    A resolution hands out what the providers and the caches hold, what it
    allocates, and nothing else.  So a location that no one refers to and
    that the call does not allocate remains unreferenced and untouched, and
    is not the result. *)

Section Avoids.

Variable classes : ClassId → ClassDef.
Variable l : Loc.

Lemma avoids_ret {A} (good : A → Prop) (a : A) :
  good a → avoids classes l good (mret a).
Proof. by intros Hg w Hun _. Qed.

Lemma avoids_throw {A} (good : A → Prop) (e : Error) :
  avoids classes l good (throw e).
Proof. by intros w Hun _. Qed.

Lemma avoids_bind {A B} (ga : A → Prop) (gb : B → Prop) (m : M A) (f : A → M B) :
  preserves heap_grows m → (∀ a, preserves heap_grows (f a)) →
  avoids classes l ga m → (∀ a, ga a → avoids classes l gb (f a)) →
  avoids classes l gb (m ≫= f).
Proof.
  intros Gm Gf Hm Hf w Hun. specialize (Gm w). specialize (Hm w Hun).
  unfold mbind, M_bind. destruct (m w) as [a w1|e w1|]; [|done..].
  specialize (Gf a w1). unfold heap_grows in *.
  destruct (f a w1) as [b w2|e w2|] eqn:E; [| |done].
  - intros Hside. destruct Hm as (Ha & Hun1 & Hl1); [lia|].
    specialize (Hf a Ha w1 Hun1). rewrite E in Hf.
    destruct Hf as (Hb & Hun2 & Hl2); [lia|]. split_and!; [done..|congruence].
  - intros Hside. destruct Hm as (Ha & Hun1 & Hl1); [lia|].
    specialize (Hf a Ha w1 Hun1). rewrite E in Hf.
    destruct Hf as (Hun2 & Hl2); [lia|]. split; [done|congruence].
Qed.

Lemma avoids_weaken {A} (g g' : A → Prop) (m : M A) :
  (∀ a, g a → g' a) → avoids classes l g m → avoids classes l g' m.
Proof.
  intros Hg Hm w Hun. specialize (Hm w Hun).
  destruct (m w); [|done..]. intros Hs. destruct (Hm Hs) as (?&?&?). eauto.
Qed.

Lemma avoids_mapM {A} (f : A → M Value) (xs : list A) :
  (∀ a, preserves heap_grows (f a)) →
  (∀ a, avoids classes l (λ v, v ≠ VObj l) (f a)) →
  avoids classes l (Forall (λ v, v ≠ VObj l)) (mapM f xs).
Proof.
  intros Gf Hf. induction xs as [|x xs IH]; simpl.
  - by apply avoids_ret.
  - eapply avoids_bind; [apply Gf| |apply Hf|].
    + intros y. apply preserves_bind; [apply heap_grows_trans| |].
      * apply preserves_mapM; [by unfold heap_grows|apply heap_grows_trans|done].
      * intros k. apply preserves_ret. by unfold heap_grows.
    + intros y Hy. eapply avoids_bind; [| |apply IH|].
      * apply preserves_mapM; [by unfold heap_grows|apply heap_grows_trans|done].
      * intros k. apply preserves_ret. by unfold heap_grows.
      * intros k Hk. apply avoids_ret. by constructor.
Qed.

Lemma avoids_for_of {A} (xs : list A) (body : A → M unit) :
  (∀ a, preserves heap_grows (body a)) →
  (∀ a, avoids classes l (λ _, True) (body a)) →
  avoids classes l (λ _, True) (for_of xs body).
Proof.
  intros Gf Hf. induction xs as [|x xs IH]; simpl.
  - by apply avoids_ret.
  - eapply avoids_bind; [apply Gf| |apply Hf|].
    + intros _. apply preserves_for_of; [by unfold heap_grows|apply heap_grows_trans|done].
    + intros _ _. apply IH.
Qed.

End Avoids.

Lemma put_prop_elem key d0 ps k d :
  (k, d) ∈ put_prop key d0 ps → (k, d) = (key, d0) ∨ (k, d) ∈ ps.
Proof.
  induction ps as [|[k' d'] ps IH]; simpl.
  - intros ->%list_elem_of_singleton. by left.
  - destruct (decide (k' = key)) as [->|Hne].
    + intros [->|H]%elem_of_cons; [by left|]. right. by apply elem_of_cons; right.
    + intros [->|H]%elem_of_cons; [right; by apply elem_of_cons; left|].
      destruct (IH H) as [->|?]; [by left|]. right. by apply elem_of_cons; right.
Qed.

Lemma init_props_elem args inits k d :
  (k, d) ∈ init_props args inits →
  ∃ k' i, (k', i) ∈ inits ∧ d = data_property (field_value args i).
Proof.
  unfold init_props.
  assert (H : ∀ acc,
            (k, d) ∈ foldl (λ ps '(k, i), put_prop k (data_property (field_value args i)) ps)
                       acc inits →
            (k, d) ∈ acc ∨ ∃ k' i, (k', i) ∈ inits ∧ d = data_property (field_value args i)).
  { induction inits as [|[k0 i0] inits IH]; intros acc; simpl; [by left|].
    intros [Hacc|(k' & i & Hin & ->)]%IH.
    - apply put_prop_elem in Hacc as [[= -> ->]|Hacc]; [|by left].
      right. exists k0, i0. split; [by apply elem_of_cons; left|done].
    - right. exists k', i. split; [by apply elem_of_cons; right|done]. }
  intros [Hnil|?]%H; [|done]. by apply elem_of_nil in Hnil.
Qed.

Lemma getProvider_in_table w this tok p :
  getProvider w this tok = Some p →
  ∃ c ct, containers w !! c = Some ct ∧ providers ct !! tok = Some p.
Proof.
  unfold getProvider. generalize (length (containers w)) as bound. intros bound.
  revert this. induction bound as [|b IH]; intros this; [done|]. simpl.
  destruct (containers w !! this) as [ct|] eqn:Hc; [|done].
  destruct (providers ct !! tok) as [q|] eqn:Hq.
  - intros [= ->]. by exists this, ct.
  - destruct (parent ct); [apply IH|done].
Qed.

Section AvoidsEngine.

Variable src : SourceFile.
Variable classes : ClassId → ClassDef.
Variable this : ContainerId.
Variable l : Loc.

Lemma avoids_construct Ctor args :
  Forall (λ v, v ≠ VObj l) args →
  avoids classes l (λ v, v ≠ VObj l) (construct classes Ctor args).
Proof.
  intros Hargs w Hun. unfold construct.
  destruct (cls_ctor (classes Ctor)) as [inits|msg] eqn:Hctor; [|done].
  simpl. rewrite length_app. simpl. intros Hside.
  destruct Hun as (Hprov & Hcache & Hheap & Hcls). split_and!.
  - intros [= Heq]. lia.
  - split_and!; simpl; [done|done| |done].
    intros l' o k d [Ho|[_ Ho]]%lookup_app_Some Hin; [by eapply Hheap|].
    apply list_lookup_singleton_Some in Ho as [_ <-]. simpl in Hin.
    apply init_props_elem in Hin as (k' & i & Hi & ->). simpl.
    destruct i as [n|v]; simpl.
    + destruct (args !! n) as [v|] eqn:Hn; simpl; [|done].
      eapply Forall_lookup_1 in Hargs; [|done]. done.
    + intros ->. by eapply Hcls.
  - destruct Hside as [Hlt|Hge].
    + by rewrite lookup_app_l.
    + rewrite !lookup_ge_None_2; [done|lia|]. rewrite length_app. simpl. lia.
Qed.

Lemma avoids_call_factory f args :
  f ≠ FnConst (VObj l) → Forall (λ v, v ≠ VObj l) args →
  avoids classes l (λ v, v ≠ VObj l) (call_factory classes f args).
Proof.
  intros Hf Hargs. destruct f as [v|n|C|msg]; simpl.
  - apply avoids_ret. congruence.
  - apply avoids_ret. destruct (args !! n) as [v|] eqn:Hn; simpl; [|done].
    by eapply Forall_lookup_1 in Hargs.
  - by apply avoids_construct.
  - apply avoids_throw.
Qed.

Lemma avoids_define l' key v :
  l' ≠ l → v ≠ VObj l →
  avoids classes l (λ _, True) (modify (defineProperty l' key (data_property v))).
Proof.
  intros Hne Hv w Hun. unfold modify. intros _. split; [done|].
  unfold defineProperty. destruct (heap w !! l') as [o'|] eqn:Ho'; [|done].
  destruct Hun as (Hprov & Hcache & Hheap & Hcls). split.
  - split_and!; simpl; [done|done| |done].
    intros l2 o k d. destruct (decide (l' = l2)) as [<-|Hne2].
    + rewrite list_lookup_insert_eq by by eapply lookup_lt_Some.
      intros [= <-]. simpl. intros [[= -> ->]|Hin]%put_prop_elem; [done|].
      by eapply Hheap.
    + rewrite list_lookup_insert_ne by done. apply Hheap.
  - simpl. by rewrite list_lookup_insert_ne.
Qed.

Lemma avoids_cache_write k v :
  v ≠ VObj l →
  avoids classes l (λ _, True) (modify (update_container this (singletons_set k v))).
Proof.
  intros Hv w Hun. unfold modify. intros _. split; [done|].
  destruct Hun as (Hprov & Hcache & Hheap & Hcls). split; [|done].
  split_and!; [| |done..].
  - intros c ct k' p. unfold update_container; simpl. rewrite list_lookup_alter.
    case_decide as Hc; [subst c|apply Hprov].
    destruct (containers w !! this) as [ct0|] eqn:Hct; [|done].
    intros [= <-]; simpl. by eapply Hprov.
  - intros c ct k'. unfold update_container; simpl. rewrite list_lookup_alter.
    case_decide as Hc; [subst c|apply Hcache].
    destruct (containers w !! this) as [ct0|] eqn:Hct; [|done].
    intros [= <-]; simpl. rewrite lookup_insert. case_decide; [congruence|].
    by eapply Hcache.
Qed.

Lemma avoids_cache_store p v :
  v ≠ VObj l → avoids classes l (λ _, True) (cache_store src this p v).
Proof.
  intros Hv. unfold cache_store.
  destruct src; [by apply avoids_ret| |];
    (case_bool_decide; [by apply avoids_cache_write|by apply avoids_ret]).
Qed.

Lemma avoids_flag (f : World → World) :
  (∀ w, heap (f w) = heap w) → (∀ w, containers (f w) = containers w) →
  ∀ w, unreferenced classes l w → unreferenced classes l (f w).
Proof.
  intros Hh Hc w (Hprov & Hcache & Hheap & Hcls). unfold unreferenced.
  rewrite Hh, Hc. done.
Qed.

Section Body.

Variable rec : Token → list Token → M Value.
Hypothesis rec_grows : ∀ t s, preserves heap_grows (rec t s).
Hypothesis rec_avoids : ∀ t s, avoids classes l (λ v, v ≠ VObj l) (rec t s).

Lemma avoids_instantiate p stack :
  ¬ provider_holds p (VObj l) →
  avoids classes l (λ v, v ≠ VObj l) (instantiate src classes rec p stack).
Proof.
  intros Hp.
  assert (Hv : useValue p ≠ VObj l) by (intros H; apply Hp; by left).
  assert (Hf : ∀ f, useFactory p = Some f → f ≠ FnConst (VObj l)).
  { intros f Hf ->. apply Hp. by right. }
  destruct (heap_grows_respected this) as [Hr Ht Ha Hd _ _].
  assert (Hclass : ∀ Ctor, avoids classes l (λ v, v ≠ VObj l)
                             (instantiate_class classes rec Ctor stack)).
  { intros Ctor. eapply avoids_bind.
    - by apply preserves_mapM.
    - intros args. by apply preserves_construct.
    - by apply avoids_mapM.
    - intros args Hargs. by apply avoids_construct. }
  assert (Hfact : ∀ f, useFactory p = Some f →
                       avoids classes l (λ v, v ≠ VObj l)
                         (instantiate_factory classes rec p f stack)).
  { intros f Hpf. eapply avoids_bind.
    - by apply preserves_mapM.
    - intros args. by apply preserves_call_factory.
    - by apply avoids_mapM.
    - intros args Hargs. apply avoids_call_factory; [by apply Hf|done]. }
  unfold instantiate.
  destruct src, (useClass p), (useFactory p) as [f|] eqn:Hpf, (isValueProvider p);
    first [apply Hclass | by apply Hfact | by apply avoids_ret | apply avoids_throw].
Qed.

Lemma avoids_inject_property l' entry :
  l' ≠ l → avoids classes l (λ _, True) (inject_property rec l' entry).
Proof.
  intros Hne. destruct (heap_grows_respected this) as [Hr Ht Ha Hd _ _].
  eapply avoids_bind; [apply rec_grows| |apply rec_avoids|].
  - intros v. by apply preserves_modify.
  - intros v Hv. by apply avoids_define.
Qed.

Lemma avoids_applyPropertyInjections instance :
  instance ≠ VObj l →
  avoids classes l (λ _, True) (applyPropertyInjections rec instance).
Proof.
  intros Hi w Hun. unfold applyPropertyInjections.
  destruct (negb (truthy instance) || negb (String.eqb (typeof instance) "object"));
    [done|].
  destruct instance as [| | | | |l']; try done.
  destruct (heap_grows_respected this) as [Hr Ht Ha Hd _ _].
  apply avoids_for_of; [| |done].
  - intros e. by apply preserves_inject_property.
  - intros e. apply avoids_inject_property. congruence.
Qed.

Lemma avoids_run_step s : avoids classes l (λ _, True) (run_step rec s).
Proof.
  destruct (heap_grows_respected this) as [Hr Ht Ha Hd _ _].
  assert (Hcall : ∀ t, avoids classes l (λ _, True) (rec t [] ≫= λ _, mret ())).
  { intros t. eapply avoids_bind; [apply rec_grows| |apply rec_avoids|].
    - intros v. by apply preserves_ret.
    - intros v _. by apply avoids_ret. }
  destruct s as [msg|t|flag t]; simpl.
  - apply avoids_throw.
  - apply Hcall.
  - intros w Hun. destruct (bool_decide (flag ∈ flags w)); [done|].
    apply (Hcall t (set_flags ({[flag]} ∪ flags w) w)).
    by apply (avoids_flag (set_flags ({[flag]} ∪ flags w))).
Qed.

Lemma avoids_call_onInit instance :
  avoids classes l (λ _, True) (call_onInit classes rec instance).
Proof.
  intros w Hun. unfold call_onInit.
  destruct (onInit_of classes w instance); [|done].
  destruct (heap_grows_respected this) as [Hr Ht Ha Hd Hf _].
  apply avoids_for_of; [| |done].
  - intros s. by apply preserves_run_step.
  - apply avoids_run_step.
Qed.

End Body.

End AvoidsEngine.

Section AvoidsResolve.

Variable src : SourceFile.
Variable classes : ClassId → ClassDef.
Variable this : ContainerId.
Variable l : Loc.

Lemma cache_read_avoids tok p w :
  unreferenced classes l w → cache_read src this tok p w ≠ VObj l.
Proof.
  intros (_ & Hcache & _).
  assert (H : ∀ k, singletons_get this k w ≠ VObj l).
  { intros k. unfold singletons_get.
    destruct (containers w !! this) as [ct|] eqn:Hct; simpl; [|done].
    destruct (singletons ct !! k) as [v|] eqn:Hk; simpl; [|done].
    intros ->. by eapply Hcache. }
  unfold cache_read. destruct src; apply H.
Qed.

Lemma avoids_resolve_body rec tok stack :
  (∀ t s, preserves heap_grows (rec t s)) →
  (∀ t s, avoids classes l (λ v, v ≠ VObj l) (rec t s)) →
  avoids classes l (λ v, v ≠ VObj l) (resolve_body src classes this rec tok stack).
Proof.
  intros Grec Hrec w Hun. unfold resolve_body.
  destruct (bool_decide (tok ∈ stack)); [done|].
  destruct (getProvider w this tok) as [p|] eqn:Hp; [|done].
  destruct (cache_hit this p w).
  { intros _. split_and!; [by apply cache_read_avoids|done..]. }
  assert (Hholds : ¬ provider_holds p (VObj l)).
  { apply getProvider_in_table in Hp as (c & ct & Hc & Hk).
    destruct Hun as (Hprov & _). by eapply Hprov. }
  destruct (heap_grows_respected this) as [Hr Ht Ha Hd Hf Hc].
  assert (Gstore : ∀ inst, preserves heap_grows (cache_store src this p inst)).
  { intros inst. unfold cache_store.
    destruct src; [by apply preserves_ret| |];
      (case_bool_decide; [by apply preserves_modify|by apply preserves_ret]). }
  assert (Hchain :
    avoids classes l (λ v, v ≠ VObj l)
      (instance ← instantiate src classes rec p (stack ++ [tok]);
       _ ← applyPropertyInjections rec instance;
       _ ← call_onInit classes rec instance;
       _ ← cache_store src this p instance;
       mret instance)).
  { eapply avoids_bind.
    - by apply preserves_instantiate.
    - intros inst. apply preserves_bind; [done|by apply preserves_applyPropertyInjections|].
      intros _. apply preserves_bind; [done|by apply preserves_call_onInit|].
      intros _. apply preserves_bind; [done|apply Gstore|].
      intros _. by apply preserves_ret.
    - by apply (avoids_instantiate src classes this l).
    - intros inst Hinst. eapply avoids_bind.
      + by apply preserves_applyPropertyInjections.
      + intros _. apply preserves_bind; [done|by apply preserves_call_onInit|].
        intros _. apply preserves_bind; [done|apply Gstore|].
        intros _. by apply preserves_ret.
      + by apply (avoids_applyPropertyInjections classes this l).
      + intros _ _. eapply avoids_bind.
        * by apply preserves_call_onInit.
        * intros _. apply preserves_bind; [done|apply Gstore|].
          intros _. by apply preserves_ret.
        * by apply (avoids_call_onInit classes this l).
        * intros _ _. eapply avoids_bind.
          -- apply Gstore.
          -- intros _. by apply preserves_ret.
          -- by apply avoids_cache_store.
          -- intros _ _. by apply avoids_ret. }
  by apply Hchain.
Qed.

(** The result of a resolution is never a location that nothing refers to
    and that the call does not allocate; such a location stays
    unreferenced and the object at it untouched. *)
Theorem resolve_avoids fuel tok stack :
  avoids classes l (λ v, v ≠ VObj l) (resolve src classes fuel this tok stack).
Proof.
  revert tok stack. induction fuel as [|n IH]; intros tok stack.
  - by intros w Hun.
  - simpl. apply avoids_resolve_body; [|done].
    intros t s. apply resolve_heap_grows.
Qed.

End AvoidsResolve.

(** A resolution keeps the store closed and returns no dangling
    reference. *)
Theorem resolve_closed src classes fuel this tok stack w :
  closed classes w →
  match resolve src classes fuel this tok stack w with
  | Ret v w' => closed classes w' ∧ ∀ l, v = VObj l → l < length (heap w')
  | Throw _ w' => closed classes w'
  | OutOfFuel => True
  end.
Proof.
  intros Hcl.
  pose proof (resolve_heap_grows src classes fuel this tok stack w) as Hg.
  destruct (resolve src classes fuel this tok stack w) as [v w'|e w'|] eqn:E; [| |done].
  - assert (H : ∀ l, length (heap w') ≤ l → v ≠ VObj l ∧ unreferenced classes l w').
    { intros l Hl.
      pose proof (resolve_avoids src classes this l fuel tok stack w) as Ha.
      rewrite E in Ha. unfold heap_grows in Hg.
      destruct Ha as (? & ? & _); [apply Hcl; lia|by right|done]. }
    split.
    + intros l Hl. by apply H.
    + intros l ->. destruct (decide (l < length (heap w'))) as [|Hge]; [done|].
      destruct (H l) as [Hne _]; [lia|done].
  - intros l Hl.
    pose proof (resolve_avoids src classes this l fuel tok stack w) as Ha.
    rewrite E in Ha. unfold heap_grows in Hg.
    destruct Ha as (? & _); [apply Hcl; lia|by right|done].
Qed.

(** ** The object under construction *)

Section UnderConstruction.

Variable src : SourceFile.
Variable classes : ClassId → ClassDef.
Variable this : ContainerId.
Variable fuel : nat.

Lemma unreferenced_alloc l w Ctor args inits :
  unreferenced classes l w → cls_ctor (classes Ctor) = CtorAssign inits →
  Forall (λ v, v ≠ VObj l) args →
  unreferenced classes l
    (set_heap (heap w ++ [{| obj_constructor := Some Ctor;
                             obj_props := init_props args inits |}]) w).
Proof.
  intros (Hprov & Hcache & Hheap & Hcls) Hctor Hargs.
  split_and!; simpl; [done|done| |done].
  intros l' o k d [Ho|[_ Ho]]%lookup_app_Some Hin; [by eapply Hheap|].
  apply list_lookup_singleton_Some in Ho as [_ <-]. simpl in Hin.
  apply init_props_elem in Hin as (k' & i & Hi & ->). simpl.
  destruct i as [n|v]; simpl.
  - destruct (args !! n) as [v|] eqn:Hn; simpl; [|done].
    by eapply Forall_lookup_1 in Hargs.
  - intros ->. by eapply Hcls.
Qed.

Lemma unreferenced_define l l' key v w :
  v ≠ VObj l → unreferenced classes l w →
  unreferenced classes l (defineProperty l' key (data_property v) w).
Proof.
  intros Hv (Hprov & Hcache & Hheap & Hcls). unfold defineProperty.
  destruct (heap w !! l') as [o'|] eqn:Ho'; [|done].
  split_and!; simpl; [done|done| |done].
  intros l2 o k d. destruct (decide (l' = l2)) as [<-|Hne2].
  - rewrite list_lookup_insert_eq by by eapply lookup_lt_Some.
    intros [= <-]. simpl. intros [[= -> ->]|Hin]%put_prop_elem; [done|].
    by eapply Hheap.
  - rewrite list_lookup_insert_ne by done. apply Hheap.
Qed.

(** The object that a class provider builds is new, and nothing refers
    to it when the constructor returns. *)
Lemma instantiate_class_unreferenced Ctor stack w v w1 :
  closed classes w →
  instantiate_class classes (resolve src classes fuel this) Ctor stack w = Ret v w1 →
  ∃ l args inits,
    v = VObj l ∧ length (heap w) ≤ l
    ∧ cls_ctor (classes Ctor) = CtorAssign inits
    ∧ heap w1 !! l = Some {| obj_constructor := Some Ctor;
                             obj_props := init_props args inits |}
    ∧ unreferenced classes l w1.
Proof.
  intros Hcl H. unfold instantiate_class in H.
  apply bind_inv_ret in H as (args & w0 & Hargs & H).
  apply construct_fresh in H as (inits & Hctor & -> & ->).
  pose proof (resolve_all_respects src classes this heap_grows
                (heap_grows_respected this) fuel stack
                (default [] (cls_inject (classes Ctor))) w) as Hg.
  rewrite Hargs in Hg. unfold heap_grows in Hg.
  pose proof (avoids_mapM classes (length (heap w0))
                (λ dep, resolve src classes fuel this dep stack)
                (default [] (cls_inject (classes Ctor)))
                (λ dep, resolve_heap_grows src classes fuel this dep stack)
                (λ dep, resolve_avoids src classes this _ fuel dep stack) w) as Ha.
  rewrite Hargs in Ha. destruct Ha as (Hne & Hun & _); [by apply Hcl|by right|].
  exists (length (heap w0)), args, inits. split_and!; [done..| |].
  - simpl. by rewrite lookup_app_r, Nat.sub_diag.
  - by apply unreferenced_alloc.
Qed.

Lemma get_prop_put_prop_ne key key' d ps :
  key ≠ key' → get_prop key (put_prop key' d ps) = get_prop key ps.
Proof.
  intros Hne. induction ps as [|[k d'] ps IH]; simpl.
  - by rewrite decide_False.
  - destruct (decide (k = key')) as [->|Hk]; simpl.
    + by rewrite !decide_False.
    + destruct (decide (k = key)); [done|apply IH].
Qed.

Lemma own_property_defineProperty_ne w l key key' d :
  key ≠ key' → own_property (defineProperty l key' d w) l key = own_property w l key.
Proof.
  intros Hne. unfold own_property, defineProperty.
  destruct (heap w !! l) as [o|] eqn:Ho; simpl; [|by rewrite Ho].
  rewrite list_lookup_insert_eq by by eapply lookup_lt_Some.
  simpl. by apply get_prop_put_prop_ne.
Qed.

(** The injection loop on an object that nothing refers to: the nested
    resolutions cannot reach it, so each field keeps the value of its last
    declaration. *)
Lemma inject_loop l entries w w' :
  unreferenced classes l w → l < length (heap w) →
  for_of entries (inject_property (resolve src classes fuel this) l) w = Ret () w' →
  unreferenced classes l w' ∧ l < length (heap w')
  ∧ ∀ key, key ∉ entries.*1 → own_property w' l key = own_property w l key.
Proof.
  revert w. induction entries as [|[k t] entries IH]; intros w Hun Hlt; simpl.
  - by intros [= <-].
  - intros ([] & w2 & Hstep & Hrest)%bind_inv_ret.
    unfold inject_property in Hstep. simpl in Hstep.
    apply bind_inv_ret in Hstep as (v & w1 & Hv & [= <-]).
    pose proof (resolve_avoids src classes this l fuel t [] w Hun) as Ha.
    rewrite Hv in Ha. destruct Ha as (Hne & Hun1 & Hl1); [by left|].
    assert (Hlt1 : l < length (heap w1)).
    { apply lookup_lt_is_Some. rewrite Hl1. by apply lookup_lt_is_Some. }
    destruct (IH (defineProperty l k (data_property v) w1)) as (Hun' & Hlt' & Hkeys).
    + by apply unreferenced_define.
    + unfold defineProperty. destruct (heap w1 !! l); simpl; [|done].
      by rewrite length_insert.
    + done.
    + split_and!; [done..|]. intros key Hkey.
      apply not_elem_of_cons in Hkey as [Hk Hkey].
      rewrite Hkeys by done. rewrite own_property_defineProperty_ne by done.
      unfold own_property. by rewrite Hl1.
Qed.

End UnderConstruction.

Lemma applyPropertyInjections_self src classes this fuel l w w' :
  unreferenced classes l w → l < length (heap w) →
  applyPropertyInjections (resolve src classes fuel this) (VObj l) w = Ret () w' →
  unreferenced classes l w' ∧ l < length (heap w').
Proof.
  intros Hun Hlt H. unfold applyPropertyInjections in H. simpl in H.
  by apply inject_loop in H as (? & ? & _).
Qed.

Lemma unreferenced_uncached classes l w : unreferenced classes l w → uncached l w.
Proof. by intros (_ & H & _). Qed.

(** ** The hook and the cache, continued *)

(** C10.  In [src/test.ts] and in the commented copy, on a miss for a
    Singleton token: [resolve] writes the cache after the hook has
    returned, in the store that the hook left, and writes nothing when the
    hook throws.  So, for a class without dependencies and injections:
    a hook that resolves the same token once more on the same container
    gets a second object, built and cached by the inner call before the
    outer call overwrites the entry with the first object; and a hook that
    throws leaves the cache without an entry for the token. *)
Theorem cache_written_after_hook src classes fuel this tok p w :
  src ≠ DiTs →
  getProvider w this tok = Some p → effective_scope p = Singleton →
  cache_entry w this (token p) = None →
  (∀ stack inst w1 w2,
     tok ∉ stack →
     instantiate src classes (resolve src classes fuel this) p (stack ++ [tok]) w =
       Ret inst w1 →
     applyPropertyInjections (resolve src classes fuel this) inst w1 = Ret () w2 →
     resolve src classes (S fuel) this tok stack w =
       match call_onInit classes (resolve src classes fuel this) inst w2 with
       | Ret _ w3 => Ret inst (update_container this (singletons_set (token p) inst) w3)
       | Throw e w3 => Throw e w3
       | OutOfFuel => OutOfFuel
       end)
  ∧ (∀ Ctor inits,
       useClass p = Some Ctor →
       default [] (cls_inject (classes Ctor)) = [] →
       cls_ctor (classes Ctor) = CtorAssign inits →
       default [] (propertyInjections w !! Ctor) = [] →
       get_prop (KStr "onInit") (init_props [] inits) = None →
       (∀ flag,
          cls_onInit (classes Ctor) = Some [HookResolveOnce flag tok] →
          flag ∉ flags w →
          ∃ w' wd,
            resolve src classes (S (S fuel)) this tok [] w =
              Ret (VObj (length (heap w))) w'
            ∧ heap w' = heap w ++ [fresh_object Ctor inits; fresh_object Ctor inits]
            ∧ cache_entry w' this (token p) = Some (VObj (length (heap w)))
            ∧ resolve src classes (S fuel) this tok []
                (set_flags ({[flag]} ∪ flags w)
                   (set_heap (heap w ++ [fresh_object Ctor inits]) w)) =
                Ret (VObj (S (length (heap w)))) wd
            ∧ cache_entry wd this (token p) = Some (VObj (S (length (heap w)))))
       ∧ (∀ msg rest,
            cls_onInit (classes Ctor) = Some (HookThrow msg :: rest) →
            resolve src classes (S fuel) this tok [] w =
              Throw (UserError msg) (set_heap (heap w ++ [fresh_object Ctor inits]) w)
            ∧ cache_entry (set_heap (heap w ++ [fresh_object Ctor inits]) w)
                this (token p) = None)).
Proof.
  intros Hsrc Hp Hs Hentry.
  assert (Hmiss : cache_hit this p w = false).
  { unfold cache_hit. rewrite singletons_has_entry, Hentry. apply andb_false_r. }
  pose proof (getProvider_valid _ _ _ _ Hp) as Hvalid.
  split.
  - intros stack inst w1 w2 Hstack H1 H2. simpl resolve.
    rewrite (resolve_body_miss _ _ _ _ _ _ _ p) by done.
    erewrite bind_ret by exact H1. erewrite bind_ret by exact H2.
    unfold mbind at 1, M_bind at 1.
    destruct (call_onInit classes (resolve src classes fuel this) inst w2)
      as [[] w3|e w3|]; [|done..].
    erewrite bind_ret by (by apply cache_store_singleton). done.
  - intros Ctor inits HC Hinj Hctor Hpi Hown. split.
    + intros flag Hhook Hflag.
      set (o := fresh_object Ctor inits).
      set (wa := set_heap (heap w ++ [o]) w).
      set (wb := set_flags ({[flag]} ∪ flags w) wa).
      set (wc := set_heap (heap wb ++ [o]) wb).
      set (wd := update_container this
                   (singletons_set (token p) (VObj (S (length (heap w))))) wc).
      assert (Hlen : length (heap wb) = S (length (heap w))).
      { simpl. rewrite length_app. simpl. lia. }
      assert (Hinner : resolve src classes (S fuel) this tok [] wb =
                       Ret (VObj (S (length (heap w)))) wd).
      { simpl resolve.
        rewrite (resolve_body_plain_class _ _ _ _ _ _ wb p Ctor inits);
          [|apply not_elem_of_nil|by rewrite (getProvider_same_registry w wb)
           |exact HC|exact Hmiss|exact Hinj|exact Hctor|exact Hpi|exact Hown].
        rewrite Hhook. simpl for_of. fold wc.
        assert (Hstep : run_step (resolve src classes fuel this)
                          (HookResolveOnce flag tok) wc = Ret () wc).
        { simpl. rewrite bool_decide_eq_true_2; [done|]. set_solver. }
        erewrite bind_ret; [|by erewrite bind_ret by exact Hstep].
        erewrite bind_ret by (by apply cache_store_singleton).
        rewrite Hlen. done. }
      exists (update_container this (singletons_set (token p) (VObj (length (heap w)))) wd),
             wd.
      split_and!.
      * change (resolve src classes (S (S fuel)) this tok [] w)
          with (resolve_body src classes this (resolve src classes (S fuel) this) tok [] w).
        rewrite (resolve_body_plain_class _ _ _ _ _ _ w p Ctor inits);
          [|apply not_elem_of_nil|done..].
        rewrite Hhook. fold o. fold wa.
        assert (Hstep : run_step (resolve src classes (S fuel) this)
                          (HookResolveOnce flag tok) wa = Ret () wd).
        { unfold run_step. rewrite bool_decide_eq_false_2 by done.
          fold wb. by erewrite bind_ret by exact Hinner. }
        erewrite bind_ret; [|simpl for_of; by erewrite bind_ret by exact Hstep].
        erewrite bind_ret by (by apply cache_store_singleton). done.
      * simpl. by rewrite <-app_assoc.
      * apply cache_entry_write. unfold wd, update_container; simpl.
        by rewrite length_alter.
      * exact Hinner.
      * by apply cache_entry_write.
    + intros msg rest Hhook. split; [|done].
      simpl resolve.
      rewrite (resolve_body_plain_class _ _ _ _ _ _ w p Ctor inits);
        [|apply not_elem_of_nil|done..].
      rewrite Hhook. apply bind_throw. simpl for_of. by apply bind_throw.
Qed.

Lemma cache_written_after_hook_witness :
  Commented ≠ DiTs
  ∧ getProvider (service_world None) 0 (TStr "S") = Some (class_provider (TStr "S") 0 None)
  ∧ cache_entry (service_world None) 0 (Some (TStr "S")) = None
  ∧ (∃ w', resolve Commented reentrant_classes 2 0 (TStr "S") [] (service_world None) =
             Ret (VObj 0) w'
           ∧ heap w' = [fresh_object 0 []; fresh_object 0 []]
           ∧ cache_entry w' 0 (Some (TStr "S")) = Some (VObj 0))
  ∧ resolve Commented failing_classes 1 0 (TStr "S") [] (service_world None) =
      Throw (UserError "boom") (set_heap [fresh_object 0 []] (service_world None)).
Proof.
  split; [discriminate|]. split; [reflexivity|]. split; [reflexivity|]. split.
  - destruct (cache_written_after_hook Commented reentrant_classes 0 0 (TStr "S")
                (class_provider (TStr "S") 0 None) (service_world None))
      as [_ H]; [discriminate|reflexivity..|].
    destruct (H 0 []) as [H1 _]; [reflexivity..|].
    destruct (H1 0) as (w' & wd & Hres & Hheap & Hcache & _);
      [reflexivity|apply not_elem_of_empty|].
    exists w'. by split_and!.
  - destruct (cache_written_after_hook Commented failing_classes 0 0 (TStr "S")
                (class_provider (TStr "S") 0 None) (service_world None))
      as [_ H]; [discriminate|reflexivity..|].
    destruct (H 0 []) as [_ H2]; [reflexivity..|].
    exact (proj1 (H2 "boom" [] eq_refl)).
Defined.

Lemma greeter_world_closed : closed greeter_classes greeter_world.
Proof.
  intros l _. split_and!.
  - intros c ct k p Hc Hk.
    destruct c as [|c]; simpl in Hc; [|by rewrite lookup_nil in Hc].
    injection Hc as <-. simpl in Hk.
    apply lookup_insert_Some in Hk as [[_ <-]|[_ Hk]]; [by intros [|]|].
    apply lookup_singleton_Some in Hk as [_ <-]. by intros [|].
  - intros c ct k Hc.
    destruct c as [|c]; simpl in Hc; [|by rewrite lookup_nil in Hc].
    injection Hc as <-. simpl. by rewrite lookup_empty.
  - intros l' o k d Ho. simpl in Ho. by rewrite lookup_nil in Ho.
  - intros C inits k Hctor. destruct C; injection Hctor as <-; apply not_elem_of_nil.
Qed.


(** ** Parent and child, continued *)

(** One container with the token uncached, another that finds the same
    class provider: the object that the first builds is not what the
    second returns, whichever is asked first, and neither call touches the
    cache of the other container. *)
Lemma two_containers_distinct_closed src classes c1 c2 tok p Ctor w :
  c1 ≠ c2 → closed classes w →
  getProvider w c1 tok = Some p → getProvider w c2 tok = Some p →
  useClass p = Some Ctor →
  cache_entry w c2 (token p) = None →
  (∀ fuel fuel' v1 w1 v2 w2,
     resolve src classes fuel c1 tok [] w = Ret v1 w1 →
     resolve src classes fuel' c2 tok [] w1 = Ret v2 w2 →
     v1 ≠ v2 ∧ same_cache c2 w w1 ∧ same_cache c1 w1 w2)
  ∧ (∀ fuel fuel' v2 w1 v1 w2,
       resolve src classes fuel c2 tok [] w = Ret v2 w1 →
       resolve src classes fuel' c1 tok [] w1 = Ret v1 w2 →
       v1 ≠ v2 ∧ same_cache c1 w w1 ∧ same_cache c2 w1 w2).
Proof.
  intros Hne Hcl Hp1 Hp2 HC He2. split.
  - intros fuel fuel' v1 w1 v2 w2 H1 H2.
    pose proof (resolve_same_registry src classes fuel c1 tok [] w) as Hreg.
    rewrite H1 in Hreg.
    pose proof (resolve_same_cache src classes fuel c1 tok [] c2 (not_eq_sym Hne) w) as Hf1.
    rewrite H1 in Hf1.
    pose proof (resolve_same_cache src classes fuel' c2 tok [] c1 Hne w1) as Hf2.
    rewrite H2 in Hf2.
    pose proof (resolve_closed src classes fuel c1 tok [] w Hcl) as Hc1.
    rewrite H1 in Hc1. destruct Hc1 as [_ Halloc].
    split_and!; [|done..].
    eapply resolve_class_fresh in H2 as (l2 & -> & Hl2 & _).
    + intros ->. specialize (Halloc l2 eq_refl). lia.
    + by rewrite (getProvider_same_registry w w1).
    + done.
    + unfold cache_hit.
      rewrite singletons_has_entry, <-(same_cache_entry_of c2 _ w w1), He2 by done.
      apply andb_false_r.
  - intros fuel fuel' v2 w1 v1 w2 H2 H1.
    pose proof (resolve_same_registry src classes fuel c2 tok [] w) as Hreg.
    rewrite H2 in Hreg.
    pose proof (resolve_same_cache src classes fuel c2 tok [] c1 Hne w) as Hf2.
    rewrite H2 in Hf2.
    pose proof (resolve_same_cache src classes fuel' c1 tok [] c2 (not_eq_sym Hne) w1)
      as Hf1.
    rewrite H1 in Hf1.
    split_and!; [|done..].
    eapply resolve_class_fresh in H2 as (l2 & -> & Hl2 & Hl2');
      [|done|done|].
    2:{ unfold cache_hit. rewrite singletons_has_entry, He2. apply andb_false_r. }
    destruct fuel' as [|fuel']; [done|].
    pose proof H1 as H1'.
    apply resolve_ret_inv in H1' as (_ & p' & Hp' & Hcase).
    rewrite (getProvider_same_registry w w1) in Hp' by done.
    assert (p' = p) as -> by congruence.
    destruct Hcase as [(_ & -> & _)|(Hmiss & _)].
    + assert (Hunc : uncached l2 w) by (apply (unreferenced_uncached classes); by apply Hcl).
      assert (H : ∀ k, singletons_get c1 k w1 ≠ VObj l2).
      { intros k. unfold singletons_get. fold (cache_entry w1 c1 k).
        rewrite <-(same_cache_entry_of c1 k w w1) by done. unfold cache_entry.
        destruct (containers w !! c1) as [ct|] eqn:Hct; simpl; [|done].
        destruct (singletons ct !! k) as [x|] eqn:Hk; simpl; [|done].
        intros ->. by eapply Hunc. }
      unfold cache_read. destruct src; apply H.
    + eapply resolve_class_fresh in H1 as (l1 & -> & Hl1 & _); [| |done..].
      * intros [= ->]. lia.
      * by rewrite (getProvider_same_registry w w1).
Qed.


(** ** Parent and child: the claim *)

(** C5, as amended.  For a container [C] whose parent is [P]:
    a token without a local entry in [C] is looked up in [P];
    a token entered in no container but [C] is not found from [P], where
    [resolve] throws [ProviderNotFoundError];
    and, in a well-formed store without dangling references, for a token
    that [C] inherits from [P] with a class provider and has not cached
    itself, whether or not [P] has: [P.resolve] and [C.resolve], in either
    order, give two distinct objects, neither call touching the other
    container's cache; in the copies that write the cache, for a Singleton,
    each container then holds its own instance. *)
Theorem child_container src classes w P C ctC tok :
  chain_wf w → containers w !! C = Some ctC → parent ctC = Some P →
  (providers ctC !! tok = None → getProvider w C tok = getProvider w P tok)
  ∧ ((∀ c ct, c ≠ C → containers w !! c = Some ct → providers ct !! tok = None) →
     ∀ fuel, resolve src classes (S fuel) P tok [] w =
               Throw (ProviderNotFoundError
                        ("No provider for token: " +:+ tokenToString src classes tok)) w)
  ∧ (∀ p Ctor,
       registry_wf w → closed classes w →
       providers ctC !! tok = None →
       getProvider w P tok = Some p → useClass p = Some Ctor →
       cache_entry w C (token p) = None →
       (∀ fuel fuel' v1 w1 v2 w2,
          resolve src classes fuel P tok [] w = Ret v1 w1 →
          resolve src classes fuel' C tok [] w1 = Ret v2 w2 →
          v1 ≠ v2 ∧ same_cache C w w1 ∧ same_cache P w1 w2
          ∧ (src ≠ DiTs → effective_scope p = Singleton →
             cache_entry w2 P (token p) = Some v1
             ∧ cache_entry w2 C (token p) = Some v2))
       ∧ (∀ fuel fuel' v2 w1 v1 w2,
          resolve src classes fuel C tok [] w = Ret v2 w1 →
          resolve src classes fuel' P tok [] w1 = Ret v1 w2 →
          v1 ≠ v2 ∧ same_cache P w w1 ∧ same_cache C w1 w2
          ∧ (src ≠ DiTs → effective_scope p = Singleton →
             cache_entry w2 P (token p) = Some v1
             ∧ cache_entry w2 C (token p) = Some v2))).
Proof.
  intros Hwf HC HP. pose proof (Hwf C ctC P HC HP) as Hlt.
  split_and!.
  - intros Hnone. by eapply getProvider_delegates.
  - intros Hnone fuel. simpl resolve. apply resolve_body_not_found.
    + apply not_elem_of_nil.
    + apply getProvider_walk_none; [done|]. intros c ct Hle. apply Hnone. lia.
  - intros p Ctor Hrwf Hcl Hnone Hp HCtor HeC.
    assert (HpC : getProvider w C tok = Some p).
    { by rewrite (getProvider_delegates w C ctC P). }
    destruct (two_containers_distinct_closed src classes P C tok p Ctor w) as [HA HB];
      [lia|done..|].
    split.
    + intros fuel fuel' v1 w1 v2 w2 H1 H2.
      destruct (HA fuel fuel' v1 w1 v2 w2 H1 H2) as (Hd & Hf1 & Hf2).
      split_and!; [done..|].
      intros Hsrc Hs.
      pose proof (resolve_same_registry src classes fuel P tok [] w) as Hreg.
      rewrite H1 in Hreg. split.
      * rewrite <-(same_cache_entry_of P _ w1 w2) by done.
        by eapply resolve_singleton_cached.
      * eapply resolve_singleton_cached; [done| | |done|done].
        -- by eapply registry_wf_same_registry.
        -- by rewrite (getProvider_same_registry w w1).
    + intros fuel fuel' v2 w1 v1 w2 H2 H1.
      destruct (HB fuel fuel' v2 w1 v1 w2 H2 H1) as (Hd & Hf1 & Hf2).
      split_and!; [done..|].
      intros Hsrc Hs.
      pose proof (resolve_same_registry src classes fuel C tok [] w) as Hreg.
      rewrite H2 in Hreg. split.
      * eapply resolve_singleton_cached; [done| | |done|done].
        -- by eapply registry_wf_same_registry.
        -- by rewrite (getProvider_same_registry w w1).
      * rewrite <-(same_cache_entry_of C _ w1 w2) by done.
        by eapply resolve_singleton_cached.
Qed.

Lemma family_cached_world_wf :
  chain_wf family_cached_world ∧ registry_wf family_cached_world
  ∧ closed service_classes family_cached_world.
Proof.
  split_and!.
  - intros c ct pa Hc Hpa. destruct c as [|[|c]]; simpl in Hc; simplify_eq/=. lia.
  - intros c ct k p Hc Hk. destruct c as [|[|c]]; simpl in Hc; [| |done].
    + injection Hc as <-. simpl in Hk.
      by apply lookup_singleton_Some in Hk as [<- <-].
    + injection Hc as <-. simpl in Hk. by rewrite lookup_empty in Hk.
  - intros l Hl. simpl in Hl. split_and!.
    + intros c ct k p Hc Hk. destruct c as [|[|c]]; simpl in Hc; [| |done].
      * injection Hc as <-. simpl in Hk.
        apply lookup_singleton_Some in Hk as [_ <-]. by intros [|].
      * injection Hc as <-. simpl in Hk. by rewrite lookup_empty in Hk.
    + intros c ct k Hc. destruct c as [|[|c]]; simpl in Hc; [| |done].
      * injection Hc as <-. simpl.
        intros [_ [= <-]]%lookup_singleton_Some. lia.
      * injection Hc as <-. simpl. by rewrite lookup_empty.
    + intros l' o k d Ho Hin. destruct l' as [|l']; simpl in Ho; [|done].
      injection Ho as <-. by apply elem_of_nil in Hin.
    + intros C inits k [= <-]. apply not_elem_of_nil.
Qed.

(** The root has resolved ["S"] and holds its instance; the child, created
    afterwards, gets an instance of its own, and each cache ends with the
    instance of its container. *)
Lemma child_container_witness :
  chain_wf family_cached_world
  ∧ containers family_cached_world !! 1 =
      Some {| providers := ∅; singletons := ∅; parent := Some 0 |}
  ∧ registry_wf family_cached_world
  ∧ closed service_classes family_cached_world
  ∧ getProvider family_cached_world 1 (TStr "S") =
      getProvider family_cached_world 0 (TStr "S")
  ∧ cache_entry family_cached_world 0 (Some (TStr "S")) = Some (VObj 0)
  ∧ cache_entry family_cached_world 1 (Some (TStr "S")) = None
  ∧ ∃ w1 w2,
      resolve Commented service_classes 1 0 (TStr "S") [] family_cached_world =
        Ret (VObj 0) w1
      ∧ resolve Commented service_classes 1 1 (TStr "S") [] w1 = Ret (VObj 1) w2
      ∧ VObj 0 ≠ VObj 1
      ∧ cache_entry w2 0 (Some (TStr "S")) = Some (VObj 0)
      ∧ cache_entry w2 1 (Some (TStr "S")) = Some (VObj 1).
Proof.
  destruct family_cached_world_wf as (H1 & H2 & H3).
  pose proof (child_container Commented service_classes family_cached_world 0 1
                {| providers := ∅; singletons := ∅; parent := Some 0 |} (TStr "S")
                H1 eq_refl eq_refl) as (Ha & _ & Hc).
  split_and!; [done|reflexivity|done|done|by apply Ha|reflexivity|reflexivity|].
  assert (E : ∃ w1 w2,
    resolve Commented service_classes 1 0 (TStr "S") [] family_cached_world =
      Ret (VObj 0) w1
    ∧ resolve Commented service_classes 1 1 (TStr "S") [] w1 = Ret (VObj 1) w2)
    by (do 2 eexists; split; reflexivity).
  destruct E as (w1 & w2 & E1 & E2). exists w1, w2.
  destruct (Hc (class_provider (TStr "S") 0 None) 0 H2 H3
               eq_refl eq_refl eq_refl eq_refl) as [HA _].
  destruct (HA 1 1 (VObj 0) w1 (VObj 1) w2 E1 E2) as (Hd & _ & _ & Hcache).
  destruct Hcache as [Hc1 Hc2]; [discriminate|reflexivity|]. by split_and!.
Defined.

(** C5 as stated fails in each copy: parent and child both hand out the
    object that a value provider on the parent holds. *)
Lemma child_shares_value :
  ¬ child_never_shares DiTs
  ∧ ¬ child_never_shares TestTs
  ∧ ¬ child_never_shares Commented.
Proof.
  split_and!; intros H;
    (eapply (H service_classes 1 0 1 (TStr "Config")
               (value_provider (TStr "Config") (VObj 0) None)
               (config_world None) _ (VObj 0) _ (VObj 0) _);
     reflexivity).
Qed.

(** Why the child must not hold an entry of its own: in the copies that
    write the cache, a child that resolved the token under an earlier
    provider of the parent keeps what it cached then, and so does the
    parent; [src/di.ts], which caches nothing, builds two objects. *)
Lemma child_keeps_stale_entry :
  (∃ w, stale_run TestTs = Ret (VObj 0, VObj 0) w)
  ∧ (∃ w, stale_run Commented = Ret (VObj 0, VObj 0) w)
  ∧ (∃ w, stale_run DiTs = Ret (VObj 1, VObj 2) w).
Proof. split_and!; eexists; reflexivity. Qed.

(** ** Property injection: the claim *)

Lemma get_prop_init_props args inits key :
  key ∉ inits.*1 → get_prop key (init_props args inits) = None.
Proof.
  unfold init_props.
  assert (H : ∀ acc,
            key ∉ inits.*1 →
            get_prop key
              (foldl (λ ps '(k, i), put_prop k (data_property (field_value args i)) ps)
                     acc inits) = get_prop key acc).
  { induction inits as [|[k i] inits IH]; intros acc Hk; [done|].
    simpl in *. apply not_elem_of_cons in Hk as [Hne Hk].
    rewrite IH by done. by apply get_prop_put_prop_ne. }
  intros Hk. by rewrite H.
Qed.

(** The injection list of an object as its constructor left it, when the
    constructor assigns no field named [constructor]. *)
Lemma applyPropertyInjections_fresh rec l w Ctor args inits :
  heap w !! l = Some {| obj_constructor := Some Ctor;
                        obj_props := init_props args inits |} →
  KStr "constructor" ∉ inits.*1 →
  applyPropertyInjections rec (VObj l) w =
    for_of (default [] (propertyInjections w !! Ctor)) (inject_property rec l) w.
Proof.
  intros Hobj Hk. unfold applyPropertyInjections, constructor_of. simpl.
  rewrite Hobj. simpl. by rewrite get_prop_init_props.
Qed.

(** A resolution on [this] removes no entry of its cache and changes
    none: it writes an entry only where it found none. *)
Lemma cache_kept_respected this : Respected this (cache_kept this).
Proof.
  split; unfold cache_kept.
  - done.
  - intros w1 w2 w3 H12 H23 k x H. eauto.
  - done.
  - intros w l k d k' x. unfold defineProperty. by destruct (heap w !! l).
  - done.
  - intros w0 w tok p v Hp Hs Hmiss H k x Hk.
    assert (Hne : token p ≠ k).
    { intros <-. unfold cache_hit in Hmiss.
      rewrite singletons_has_entry, Hk in Hmiss.
      by rewrite !bool_decide_eq_true_2 in Hmiss by eauto. }
    rewrite cache_entry_write_ne by done. by apply H.
Qed.

Lemma resolve_cached src classes fuel this tok p w v :
  registry_wf w → getProvider w this tok = Some p → effective_scope p = Singleton →
  cache_entry w this (token p) = Some v →
  resolve src classes (S fuel) this tok [] w = Ret v w.
Proof.
  intros Hwf Hp Hs Hent. simpl resolve. rewrite (resolve_body_hit _ _ _ _ _ _ _ p).
  - f_equal. apply cache_read_entry; [by eapply getProvider_token|done].
  - apply not_elem_of_nil.
  - done.
  - unfold cache_hit. rewrite singletons_has_entry, Hent.
    by rewrite !bool_decide_eq_true_2.
Qed.

(** *** A class that injects its own token

    While the cache has no hit for the token of such a class, a resolution
    of that token does not return: it asks for the token again before it
    could store anything. *)

Section SelfInjection.

Variable src : SourceFile.
Variable classes : ClassId → ClassDef.
Variable this : ContainerId.
Variable tok : Token.
Variable p : Provider.
Variable Ctor : ClassId.
Variable key : PropertyKey.
Variable entries : list (PropertyKey * Token).
Variable w0 : World.
Hypothesis Hwf : registry_wf w0.
Hypothesis Hp : getProvider w0 this tok = Some p.
Hypothesis HC : useClass p = Some Ctor.
Hypothesis Hshadow :
  ∀ inits, cls_ctor (classes Ctor) = CtorAssign inits → KStr "constructor" ∉ inits.*1.
Hypothesis Hpi : propertyInjections w0 !! Ctor = Some entries.
Hypothesis Hin : (key, tok) ∈ entries.

Lemma still_missing_write u q v w :
  u ≠ tok → getProvider w this u = Some q →
  still_missing this p w0 w →
  still_missing this p w0 (update_container this (singletons_set (token q) v) w).
Proof.
  intros Hne Hq [Hreg Hmiss]. split.
  - eapply same_registry_trans; [done|apply same_registry_cache_write].
  - assert (Hkq : token q = Some u).
    { eapply getProvider_token; [|done]. by eapply registry_wf_same_registry. }
    assert (Hkp : token p = Some tok) by (by eapply getProvider_token).
    unfold cache_hit in *. rewrite singletons_has_entry in *.
    rewrite cache_entry_write_ne by congruence. done.
Qed.

Lemma self_injection_pending fuel u stack w :
  still_missing this p w0 w →
  match resolve src classes fuel this u stack w with
  | Ret _ w' => u ≠ tok ∧ still_missing this p w0 w'
  | Throw _ w' => still_missing this p w0 w'
  | OutOfFuel => True
  end.
Proof.
  revert u stack w. induction fuel as [|n IH]; intros u stack w Hm; [done|].
  pose (R := λ w w' : World, still_missing this p w0 w → still_missing this p w0 w').
  assert (HRr : ∀ w, R w w) by (by intros ??).
  assert (HRt : ∀ w1 w2 w3, R w1 w2 → R w2 w3 → R w1 w3) by (unfold R; eauto).
  assert (HRa : ∀ w o, R w (set_heap (heap w ++ [o]) w)) by (by intros ???).
  assert (HRd : ∀ w l k d, R w (defineProperty l k d w)).
  { intros w' l k d. unfold R, defineProperty. by destruct (heap w' !! l). }
  assert (HRf : ∀ w f, R w (set_flags ({[f]} ∪ flags w) w)) by (by intros ???).
  assert (Hrec : ∀ t s, preserves R (resolve src classes n this t s)).
  { intros t s w'. specialize (IH t s w').
    destruct (resolve src classes n this t s w'); [|done..].
    intros H. by destruct (IH H). }
  simpl resolve. unfold resolve_body.
  destruct (bool_decide (u ∈ stack)); [done|].
  destruct (getProvider w this u) as [q|] eqn:Hq; [|done].
  assert (Hq0 : u = tok → q = p).
  { intros ->. rewrite (getProvider_same_registry w0 w) in Hq by apply Hm. congruence. }
  destruct (cache_hit this q w) eqn:Hhit.
  { split; [|done]. intros Hu. rewrite (Hq0 Hu) in Hhit. destruct Hm. congruence. }
  assert (H1 : preserves R (instantiate src classes (resolve src classes n this) q
                              (stack ++ [u]))) by (by apply preserves_instantiate).
  specialize (H1 w). unfold mbind, M_bind.
  destruct (instantiate src classes (resolve src classes n this) q (stack ++ [u]) w)
    as [inst w1|e w1|] eqn:E1; [|by apply H1|done].
  specialize (H1 Hm).
  assert (H2 : preserves R (applyPropertyInjections (resolve src classes n this) inst))
    by (by apply preserves_applyPropertyInjections).
  specialize (H2 w1).
  destruct (decide (u = tok)) as [Hu|Hne].
  - rewrite (Hq0 Hu) in E1.
    rewrite (instantiate_useClass _ _ _ _ Ctor) in E1 by done.
    apply instantiate_class_fresh in E1 as (l & args & inits & -> & Hl & Hctor & Hobj);
      [|intros; apply resolve_heap_grows].
    rewrite (applyPropertyInjections_fresh _ _ _ Ctor args inits) by eauto.
    pose proof H1 as [(_ & _ & Hpi1) _].
    rewrite <-Hpi1, Hpi. simpl default.
    destruct (list_elem_of_split _ _ Hin) as (pre & post & Hsplit).
    rewrite Hsplit, for_of_app. unfold mbind, M_bind.
    assert (H3 : preserves R (for_of pre (inject_property (resolve src classes n this) l))).
    { apply preserves_for_of; [done..|]. intros e. by apply preserves_inject_property. }
    specialize (H3 w1).
    destruct (for_of pre (inject_property (resolve src classes n this) l) w1)
      as [[] w2|e w2|]; [| |done].
    + assert (Hm2 : still_missing this p w0 w2).
      { by apply H3. }
      simpl for_of. unfold mbind, M_bind, inject_property. simpl.
      unfold mbind, M_bind.
      pose proof (IH tok [] w2 Hm2) as H4.
      destruct (resolve src classes n this tok [] w2) as [v w3|e w3|]; [|done..].
      by destruct H4.
    + by apply H3.
  - destruct (applyPropertyInjections (resolve src classes n this) inst w1)
      as [[] w2|e w2|]; [|by apply H2|done].
    assert (H3 : preserves R (call_onInit classes (resolve src classes n this) inst))
      by (by apply preserves_call_onInit).
    specialize (H3 w2).
    destruct (call_onInit classes (resolve src classes n this) inst w2)
      as [[] w3|e w3|]; [|by apply H3, H2|done].
    assert (Hm3 : still_missing this p w0 w3) by (by apply H3, H2).
    destruct (cache_store src this q inst w3) as [[] w4|e w4|] eqn:E4.
    + split; [done|].
      apply cache_store_inv in E4 as [->|(_ & _ & ->)]; [done|].
      apply (still_missing_write u); [done| |done].
      rewrite (getProvider_same_registry w0 w3) by apply Hm3.
      by rewrite <-(getProvider_same_registry w0 w) by apply Hm.
    + unfold cache_store in E4. destruct src; try case_bool_decide; discriminate.
    + unfold cache_store in E4. destruct src; try case_bool_decide; discriminate.
Qed.

End SelfInjection.

Lemma self_injection_never_returns src classes fuel this tok stack w p Ctor key entries
    inst w' :
  registry_wf w → getProvider w this tok = Some p → useClass p = Some Ctor →
  cache_hit this p w = false →
  (∀ inits, cls_ctor (classes Ctor) = CtorAssign inits → KStr "constructor" ∉ inits.*1) →
  propertyInjections w !! Ctor = Some entries → (key, tok) ∈ entries →
  resolve src classes fuel this tok stack w ≠ Ret inst w'.
Proof.
  intros Hwf Hp HC Hmiss Hshadow Hpi Hin H.
  pose proof (self_injection_pending src classes this tok p Ctor key entries w
                Hwf Hp HC Hshadow Hpi Hin fuel tok stack w) as Hs.
  rewrite H in Hs. destruct Hs as [Hne _]; [|done].
  split; [apply same_registry_refl|done].
Qed.

(** The course of a resolution that builds an instance of a class with a
    declared injection: construction, the injections before the one
    declared for [key], the resolution of its token, the definition of the
    field, the injections after it, the hook and the final write. *)
Lemma injection_course src classes fuel this tok stack w inst w' p Ctor
    pre key t post :
  closed classes w →
  resolve src classes (S fuel) this tok stack w = Ret inst w' →
  getProvider w this tok = Some p → useClass p = Some Ctor →
  cache_hit this p w = false →
  (∀ inits, cls_ctor (classes Ctor) = CtorAssign inits → KStr "constructor" ∉ inits.*1) →
  propertyInjections w !! Ctor = Some (pre ++ (key, t) :: post) →
  ∃ l args inits w1 w2 v w3 wi w4,
    inst = VObj l
    ∧ instantiate src classes (resolve src classes fuel this) p (stack ++ [tok]) w =
        Ret (VObj l) w1
    ∧ length (heap w) ≤ l
    ∧ cls_ctor (classes Ctor) = CtorAssign inits
    ∧ heap w1 !! l = Some {| obj_constructor := Some Ctor;
                             obj_props := init_props args inits |}
    ∧ unreferenced classes l w1
    ∧ for_of pre (inject_property (resolve src classes fuel this) l) w1 = Ret () w2
    ∧ resolve src classes fuel this t [] w2 = Ret v w3
    ∧ for_of post (inject_property (resolve src classes fuel this) l)
        (defineProperty l key (data_property v) w3) = Ret () wi
    ∧ call_onInit classes (resolve src classes fuel this) (VObj l) wi = Ret () w4
    ∧ cache_store src this p (VObj l) w4 = Ret () w'.
Proof.
  intros Hcl (_ & p' & Hp' & Hcase)%resolve_ret_inv Hp HC Hmiss Hshadow Hpi.
  assert (p' = p) as -> by congruence.
  destruct Hcase as [(? & _)|(_ & w1 & wi & w4 & H1 & H2 & H3 & H4)]; [congruence|].
  pose proof (instantiate_respects src classes this same_registry
                (same_registry_respected this) fuel p (stack ++ [tok]) w) as Hreg1.
  rewrite H1 in Hreg1. destruct Hreg1 as (_ & _ & Hpi1).
  pose proof H1 as H1'.
  rewrite (instantiate_useClass _ _ _ _ Ctor) in H1' by done.
  apply instantiate_class_unreferenced in H1'
    as (l & args & inits & -> & Hl & Hctor & Hobj & Hun1); [|done].
  rewrite (applyPropertyInjections_fresh _ _ _ Ctor args inits) in H2 by eauto.
  rewrite <-Hpi1, Hpi in H2. simpl default in H2.
  rewrite for_of_app in H2.
  apply bind_inv_ret in H2 as ([] & w2 & Hpre & H2). simpl in H2.
  apply bind_inv_ret in H2 as ([] & w3' & Hstep & Hpost).
  unfold inject_property in Hstep. simpl in Hstep.
  apply bind_inv_ret in Hstep as (v & w3 & Hv & [= <-]).
  by exists l, args, inits, w1, w2, v, w3, wi, w4.
Qed.

(** Nothing refers to the object under construction, so neither the
    later injections nor the hook can reach the field: it holds at the
    return what the injection put there. *)
Lemma injected_field_kept src classes fuel this p l pre key t post v w1 w2 w3 wi w4 w' :
  unreferenced classes l w1 → l < length (heap w1) →
  for_of pre (inject_property (resolve src classes fuel this) l) w1 = Ret () w2 →
  resolve src classes fuel this t [] w2 = Ret v w3 →
  for_of post (inject_property (resolve src classes fuel this) l)
    (defineProperty l key (data_property v) w3) = Ret () wi →
  call_onInit classes (resolve src classes fuel this) (VObj l) wi = Ret () w4 →
  cache_store src this p (VObj l) w4 = Ret () w' →
  key ∉ post.*1 →
  own_property w' l key = Some (data_property v).
Proof.
  intros Hun1 Hlt1 Hpre Hv Hpost H3 H4 Hkey.
  destruct (inject_loop src classes this fuel l pre w1 w2 Hun1 Hlt1 Hpre)
    as (Hun2 & Hlt2 & _).
  pose proof (resolve_avoids src classes this l fuel t [] w2 Hun2) as Ha.
  rewrite Hv in Ha. destruct Ha as (Hne & Hun3 & Hl3); [by left|].
  assert (Hlt3 : l < length (heap w3)).
  { apply lookup_lt_is_Some. rewrite Hl3. by apply lookup_lt_is_Some. }
  apply inject_loop in Hpost as (Huni & Hlti & Hkeep).
  - rewrite (own_property_cache_store _ _ _ _ _ _ _ _ H4).
    pose proof (avoids_call_onInit classes this l (resolve src classes fuel this)
                  (λ t s, resolve_heap_grows src classes fuel this t s)
                  (λ t s, resolve_avoids src classes this l fuel t s)
                  (VObj l) wi Huni) as Hh.
    rewrite H3 in Hh. destruct Hh as (_ & _ & Hl4); [by left|].
    unfold own_property at 1. rewrite Hl4. fold (own_property wi l key).
    rewrite Hkeep by done. by apply own_property_defineProperty.
  - by apply unreferenced_define.
  - unfold defineProperty. destruct (heap w3 !! l); simpl; [|done].
    by rewrite length_insert.
Qed.

(** C6, as amended.  When [resolve] has built an instance of a class for
    which an injection [(key, t)] is declared, no later declaration of the
    class naming the same field, and whose constructor assigns no field
    named [constructor], in a well-formed store without dangling
    references:
    the instance is the object that the constructor made; the constructor
    had returned, leaving the object as it made it (a field that it does
    not assign is absent then), before anything was injected;
    the value of the field is what [resolve(t)] returned on the same
    container with an empty stack, whatever the stack of the call in
    progress;
    when [resolve] returns, after the other injections and after the hook
    if there is one (a hook here assigns no field), the field is a
    configurable, enumerable and writable data property holding this
    value;
    for a Singleton token, in the copies that write the cache, this value
    is what resolving [t] directly on the container returns from then on,
    and for a Transient token with a class provider a direct resolution
    builds another object. *)
Theorem property_injection src classes fuel this tok stack w inst w' p Ctor
    pre key t post :
  closed classes w → registry_wf w →
  resolve src classes (S fuel) this tok stack w = Ret inst w' →
  getProvider w this tok = Some p → useClass p = Some Ctor →
  cache_hit this p w = false →
  (∀ inits, cls_ctor (classes Ctor) = CtorAssign inits → KStr "constructor" ∉ inits.*1) →
  propertyInjections w !! Ctor = Some (pre ++ (key, t) :: post) →
  key ∉ post.*1 →
  ∃ l args inits w1 w2 v w3,
    inst = VObj l
    ∧ instantiate src classes (resolve src classes fuel this) p (stack ++ [tok]) w =
        Ret (VObj l) w1
    ∧ length (heap w) ≤ l
    ∧ cls_ctor (classes Ctor) = CtorAssign inits
    ∧ heap w1 !! l = Some {| obj_constructor := Some Ctor;
                             obj_props := init_props args inits |}
    ∧ (key ∉ inits.*1 → own_property w1 l key = None)
    ∧ for_of pre (inject_property (resolve src classes fuel this) l) w1 = Ret () w2
    ∧ resolve src classes fuel this t [] w2 = Ret v w3
    ∧ own_property w' l key =
        Some {| configurable := true; enumerable := true; writable := true; value := v |}
    ∧ (∀ pt, getProvider w this t = Some pt → effective_scope pt = Singleton →
             src ≠ DiTs →
             ∀ fuel', resolve src classes (S fuel') this t [] w' = Ret v w')
    ∧ (∀ pt C, getProvider w this t = Some pt → effective_scope pt = Transient →
               useClass pt = Some C →
               ∀ fuel' v' w'', resolve src classes fuel' this t [] w' = Ret v' w'' →
                               v' ≠ v).
Proof.
  intros Hcl Hwf H Hp HC Hmiss Hshadow Hpi Hkey.
  pose proof (resolve_same_registry src classes (S fuel) this tok stack w) as Hreg.
  rewrite H in Hreg.
  destruct (injection_course src classes fuel this tok stack w inst w' p Ctor
              pre key t post Hcl H Hp HC Hmiss Hshadow Hpi)
    as (l & args & inits & w1 & w2 & v & w3 & wi & w4
        & -> & H1 & Hl & Hctor & Hobj & Hun1 & Hpre & Hv & Hpost & H3 & H4).
  pose proof (lookup_lt_Some _ _ _ Hobj) as Hlt1.
  assert (Hreg2 : same_registry w w2).
  { eapply same_registry_trans.
    - pose proof (instantiate_respects src classes this same_registry
                    (same_registry_respected this) fuel p (stack ++ [tok]) w) as G.
      by rewrite H1 in G.
    - pose proof (inject_all_respects src classes this same_registry
                    (same_registry_respected this) fuel l pre w1) as G.
      by rewrite Hpre in G. }
  (* from the injection to the hook's return: the heap grows, the cache
     keeps its entries *)
  assert (Hlater : ∀ R, Respected this R → R w3 w4).
  { intros R HR. pose proof HR as [_ Ht _ Hd _ _].
    eapply Ht; [apply (Hd w3 l key (data_property v))|]. eapply Ht.
    - pose proof (inject_all_respects src classes this R HR fuel l post
                    (defineProperty l key (data_property v) w3)) as G.
      by rewrite Hpost in G.
    - pose proof (call_onInit_respects src classes this R HR fuel (VObj l) wi) as G.
      by rewrite H3 in G. }
  exists l, args, inits, w1, w2, v, w3. split_and!; [done..| |done|done| | |].
  - intros Hk. unfold own_property. rewrite Hobj. simpl. by apply get_prop_init_props.
  - by apply (injected_field_kept src classes fuel this p l pre key t post v
                w1 w2 w3 wi w4 w').
  - intros pt Hpt Hspt Hsrc fuel'.
    destruct (decide (t = tok)) as [->|Hntok].
    { exfalso.
      eapply (self_injection_never_returns src classes (S fuel) this tok stack w p Ctor key);
        [done..| |exact H].
      apply elem_of_app. right. by apply elem_of_cons; left. }
    assert (Hent3 : cache_entry w3 this (token pt) = Some v).
    { eapply (resolve_singleton_cached src classes fuel this t pt w2);
        [done|by eapply registry_wf_same_registry
        |by rewrite (getProvider_same_registry w w2)|done..]. }
    assert (Hent4 : cache_entry w4 this (token pt) = Some v).
    { by apply (Hlater (cache_kept this) (cache_kept_respected this)). }
    assert (Hent : cache_entry w' this (token pt) = Some v).
    { apply cache_store_inv in H4 as [->|(_ & _ & ->)]; [done|].
      rewrite cache_entry_write_ne; [done|].
      rewrite (getProvider_token w this tok p), (getProvider_token w this t pt) by done.
      congruence. }
    apply (resolve_cached src classes fuel' this t pt);
      [by eapply registry_wf_same_registry
      |by rewrite (getProvider_same_registry w w')|done..].
  - intros pt C Hpt Hspt HCt fuel' v' w'' Hdirect.
    eapply resolve_class_fresh in Hv as (lv & -> & _ & Hlv);
      [|by rewrite (getProvider_same_registry w w2)|done|by apply cache_hit_transient].
    eapply resolve_class_fresh in Hdirect as (l' & -> & Hl' & _);
      [|by rewrite (getProvider_same_registry w w')|done|by apply cache_hit_transient].
    pose proof (Hlater heap_grows (heap_grows_respected this)) as Hg.
    apply cache_store_heap in H4. rewrite H4 in Hl'. unfold heap_grows in Hg.
    intros [= ->]. lia.
Qed.

Lemma greeter_world_wf : registry_wf greeter_world.
Proof.
  intros c ct k p Hc Hk.
  destruct c as [|c]; simpl in Hc; [|by rewrite lookup_nil in Hc].
  injection Hc as <-. simpl in Hk.
  apply lookup_insert_Some in Hk as [[<- <-]|[_ Hk]]; [done|].
  by apply lookup_singleton_Some in Hk as [<- <-].
Qed.

(** [Greeter] with [@Inject("Logger") anotherLogger], the logger a
    Singleton, in the commented copy: the field holds the logger that a
    direct resolution returns afterwards. *)
Lemma property_injection_witness :
  closed greeter_classes greeter_world ∧ registry_wf greeter_world
  ∧ (KStr "anotherLogger" ∉ ([] : list (PropertyKey * Token)).*1)
  ∧ ∃ w', resolve Commented greeter_classes 2 0 (TStr "Greeter") [] greeter_world =
            Ret (VObj 0) w'
          ∧ own_property w' 0 (KStr "anotherLogger") = Some (data_property (VObj 1))
          ∧ resolve Commented greeter_classes 1 0 (TStr "Logger") [] w' = Ret (VObj 1) w'.
Proof.
  split; [apply greeter_world_closed|]. split; [apply greeter_world_wf|].
  split; [apply not_elem_of_nil|].
  assert (E : ∃ w',
    resolve Commented greeter_classes 2 0 (TStr "Greeter") [] greeter_world =
      Ret (VObj 0) w'
    ∧ own_property w' 0 (KStr "anotherLogger") = Some (data_property (VObj 1)))
    by (eexists; split; reflexivity).
  destruct E as (w' & E & Ef). exists w'. split; [exact E|]. split; [exact Ef|].
  destruct (property_injection Commented greeter_classes 1 0 (TStr "Greeter") []
              greeter_world (VObj 0) w'
              (class_provider (TStr "Greeter") 0 (Some Transient)) 0 []
              (KStr "anotherLogger") (TStr "Logger") [])
    as (l & args & inits & w1 & w2 & v & w3 & Hl & _ & _ & _ & _ & _ & _ & _ & Hf & Hs & _);
    [apply greeter_world_closed|apply greeter_world_wf|exact E|reflexivity|reflexivity
    |reflexivity| |reflexivity|apply not_elem_of_nil|].
  { intros inits Hctor. destruct inits; [apply not_elem_of_nil|discriminate]. }
  injection Hl as <-. rewrite Ef in Hf. injection Hf as <-.
  apply (Hs (class_provider (TStr "Logger") 1 None)); [reflexivity|reflexivity|discriminate].
Defined.

(** C6 as stated fails in each copy: of two declarations for one field,
    the later one fills it, so the field does not hold what resolving the
    token of the earlier one yields. *)
Lemma injection_overridden :
  ¬ every_pair_injected DiTs
  ∧ ¬ every_pair_injected TestTs
  ∧ ¬ every_pair_injected Commented.
Proof.
  assert (Hall : ∀ src, ¬ every_pair_injected src).
  { intros src H.
    assert (E : ∃ w',
      resolve src form_classes 2 0 (TStr "Form") [] form_world = Ret (VObj 0) w'
      ∧ own_property w' 0 (KStr "x") = Some (data_property (VNum 2))
      ∧ resolve src form_classes 2 0 (TStr "A") [] w' = Ret (VNum 1) w')
      by (destruct src; eexists; split_and!; reflexivity).
    destruct E as (w' & E1 & E2 & E3).
    destruct (H form_classes 2 0 (TStr "Form") form_world 0 w'
                (class_provider (TStr "Form") 0 (Some Transient)) 0
                [(KStr "x", TStr "A"); (KStr "x", TStr "B")]
                (KStr "x") (TStr "A") E1) as (v & w'' & Hv & Hf);
      [reflexivity..|apply list_elem_of_here|].
    rewrite E3 in Hv. injection Hv as <- <-. rewrite E2 in Hf. discriminate. }
  split_and!; apply Hall.
Qed.

(** Why the constructor must not assign a field named [constructor]: the
    list of injections is looked up under [instance.constructor], so an
    instance that owns such a field gets no injection. *)
Lemma shadowed_constructor_not_injected src :
  ∃ w', resolve src odd_classes 2 0 (TStr "Odd") [] odd_world = Ret (VObj 0) w'
        ∧ own_property w' 0 (KStr "x") = None
        ∧ own_property w' 0 (KStr "constructor") = Some (data_property (VNum 0)).
Proof. destruct src; eexists; split_and!; reflexivity. Qed.

(** [src/di.ts] never writes the cache, so there a direct resolution of
    the Singleton token builds another object than the one in the field. *)
Lemma injection_in_di_ts :
  ∃ w' w'',
    resolve DiTs greeter_classes 2 0 (TStr "Greeter") [] greeter_world = Ret (VObj 0) w'
    ∧ own_property w' 0 (KStr "anotherLogger") = Some (data_property (VObj 1))
    ∧ resolve DiTs greeter_classes 1 0 (TStr "Logger") [] w' = Ret (VObj 2) w''.
Proof. do 2 eexists. split_and!; reflexivity. Qed.

(** * Further properties of the container *)

(** ** [src/di.ts] never writes a cache *)

Section DiTsPreserves.

Variable classes : ClassId → ClassDef.
Variable this : ContainerId.
Variable R : World → World → Prop.
Hypothesis R_refl : ∀ w, R w w.
Hypothesis R_trans : ∀ w1 w2 w3, R w1 w2 → R w2 w3 → R w1 w3.
Hypothesis R_alloc : ∀ w o, R w (set_heap (heap w ++ [o]) w).
Hypothesis R_define : ∀ w l k d, R w (defineProperty l k d w).
Hypothesis R_flag : ∀ w f, R w (set_flags ({[f]} ∪ flags w) w).

Lemma preserves_resolve_body_di_ts rec tok stack :
  (∀ t s, preserves R (rec t s)) →
  preserves R (resolve_body DiTs classes this rec tok stack).
Proof.
  intros Hrec w. unfold resolve_body.
  destruct (bool_decide (tok ∈ stack)); [apply R_refl|].
  destruct (getProvider w this tok) as [p|]; [|apply R_refl].
  destruct (cache_hit this p w); [apply R_refl|].
  revert w. apply preserves_bind; [done|by apply preserves_instantiate|].
  intros inst. apply preserves_bind; [done|by apply preserves_applyPropertyInjections|].
  intros _. apply preserves_bind; [done|by apply preserves_call_onInit|].
  intros _. apply preserves_bind; [done|by apply preserves_ret|].
  intros _. by apply preserves_ret.
Qed.

Lemma resolve_di_ts_preserves fuel tok stack :
  preserves R (resolve DiTs classes fuel this tok stack).
Proof.
  revert tok stack. induction fuel as [|n IH]; intros tok stack.
  - by intros w.
  - simpl. by apply preserves_resolve_body_di_ts.
Qed.

End DiTsPreserves.

Lemma resolve_di_ts_same_caches classes fuel this tok stack :
  preserves same_caches (resolve DiTs classes fuel this tok stack).
Proof.
  apply resolve_di_ts_preserves; unfold same_caches.
  - done.
  - intros; congruence.
  - done.
  - intros w l k d. unfold defineProperty. by destruct (heap w !! l).
  - done.
Qed.

Lemma same_caches_entry w w' c k :
  same_caches w w' → cache_entry w c k = cache_entry w' c k.
Proof.
  intros H. apply same_cache_entry_of. unfold same_cache.
  by rewrite <-!list_lookup_fmap, H.
Qed.

(** In [src/di.ts] a resolution, whether it returns or throws, leaves
    every entry of the cache of every container as it was. *)
Theorem di_ts_never_caches classes fuel this tok stack w :
  match resolve DiTs classes fuel this tok stack w with
  | Ret _ w' | Throw _ w' => ∀ c k, cache_entry w' c k = cache_entry w c k
  | OutOfFuel => True
  end.
Proof.
  pose proof (resolve_di_ts_same_caches classes fuel this tok stack w) as H.
  destruct (resolve DiTs classes fuel this tok stack w); [| |done];
    intros c k; symmetry; by apply same_caches_entry.
Qed.

(** So in [src/di.ts] a class provider whose token is not in the cache is
    instantiated at every resolution, whatever its scope: two resolutions
    in a row give two objects, and the token is still not cached. *)
Theorem di_ts_rebuilds classes fuel fuel' this tok p Ctor w v1 w1 v2 w2 :
  getProvider w this tok = Some p → useClass p = Some Ctor →
  cache_entry w this (token p) = None →
  resolve DiTs classes fuel this tok [] w = Ret v1 w1 →
  resolve DiTs classes fuel' this tok [] w1 = Ret v2 w2 →
  v1 ≠ v2 ∧ cache_entry w2 this (token p) = None.
Proof.
  intros Hp HC He H1 H2.
  pose proof (resolve_di_ts_same_caches classes fuel this tok [] w) as Hc1.
  rewrite H1 in Hc1.
  pose proof (resolve_di_ts_same_caches classes fuel' this tok [] w1) as Hc2.
  rewrite H2 in Hc2.
  pose proof (resolve_same_registry DiTs classes fuel this tok [] w) as Hreg.
  rewrite H1 in Hreg.
  assert (He1 : cache_entry w1 this (token p) = None).
  { by rewrite <-(same_caches_entry w w1). }
  split; [|by rewrite <-(same_caches_entry w1 w2)].
  eapply resolve_class_fresh in H1 as (l1 & -> & _ & Hl1); [|done|done|].
  2:{ unfold cache_hit. rewrite singletons_has_entry, He. apply andb_false_r. }
  eapply resolve_class_fresh in H2 as (l2 & -> & Hl2 & _); [| |done|].
  - intros [= ->]. lia.
  - by rewrite (getProvider_same_registry w w1).
  - unfold cache_hit. rewrite singletons_has_entry, He1. apply andb_false_r.
Qed.

Lemma di_ts_rebuilds_witness :
  getProvider (service_world (Some Singleton)) 0 (TStr "S") =
    Some (class_provider (TStr "S") 0 (Some Singleton))
  ∧ cache_entry (service_world (Some Singleton)) 0 (Some (TStr "S")) = None
  ∧ VObj 0 ≠ VObj 1.
Proof.
  split; [reflexivity|]. split; [reflexivity|].
  refine (proj1 (di_ts_rebuilds service_classes 1 1 0 (TStr "S")
                   (class_provider (TStr "S") 0 (Some Singleton)) 0
                   (service_world (Some Singleton)) (VObj 0) _ (VObj 1) _
                   eq_refl eq_refl eq_refl _ _)); reflexivity.
Defined.

(** ** What a resolution leaves alone *)

(** A resolution, whether it returns or throws, registers nothing and
    creates no container: every lookup on every container answers as
    before, and the property-injection metadata is unchanged. *)
Theorem resolve_keeps_lookups src classes fuel this tok stack w :
  match resolve src classes fuel this tok stack w with
  | Ret _ w' | Throw _ w' =>
      (∀ c t, getProvider w' c t = getProvider w c t)
      ∧ length (containers w') = length (containers w)
      ∧ propertyInjections w' = propertyInjections w
  | OutOfFuel => True
  end.
Proof.
  pose proof (resolve_same_registry src classes fuel this tok stack w) as H.
  destruct (resolve src classes fuel this tok stack w); [| |done];
    (split_and!;
     [intros c t; by apply getProvider_same_registry
     |by apply same_registry_length
     |by destruct H as (_ & _ & ->)]).
Qed.

(** A resolution on one container, whether it returns or throws, leaves
    every entry of the cache of every other container as it was. *)
Theorem resolve_frames_other_caches src classes fuel this tok stack c w :
  c ≠ this →
  match resolve src classes fuel this tok stack w with
  | Ret _ w' | Throw _ w' => ∀ k, cache_entry w' c k = cache_entry w c k
  | OutOfFuel => True
  end.
Proof.
  intros Hne.
  pose proof (resolve_same_cache src classes fuel this tok stack c Hne w) as H.
  destruct (resolve src classes fuel this tok stack w); [| |done];
    intros k; symmetry; by apply same_cache_entry_of.
Qed.

Lemma resolve_frames_other_caches_witness :
  1 ≠ 0
  ∧ match resolve Commented service_classes 1 0 (TStr "S") [] (family_world None) with
    | Ret _ w' | Throw _ w' =>
        ∀ k, cache_entry w' 1 k = cache_entry (family_world None) 1 k
    | OutOfFuel => True
    end.
Proof.
  split; [discriminate|].
  apply (resolve_frames_other_caches Commented service_classes 1 0 (TStr "S") [] 1
           (family_world None)).
  discriminate.
Defined.

(** A resolution, whether it returns or throws, evicts nothing: every
    entry that the cache of the resolving container held when the call
    began is there, with the same value, when it ends.  The only write of
    [resolve] follows a lookup that found no entry under the same key. *)
Theorem resolve_keeps_cache_entries src classes fuel this tok stack w :
  match resolve src classes fuel this tok stack w with
  | Ret _ w' | Throw _ w' =>
      ∀ k x, cache_entry w this k = Some x → cache_entry w' this k = Some x
  | OutOfFuel => True
  end.
Proof.
  pose proof (resolve_respects src classes this (cache_kept this)
                (cache_kept_respected this) fuel tok stack w) as H.
  by destruct (resolve src classes fuel this tok stack w).
Qed.

(** A resolution never removes an object from the heap and never changes
    the class that an object is an instance of. *)
Theorem resolve_keeps_objects src classes fuel this tok stack w :
  match resolve src classes fuel this tok stack w with
  | Ret _ w' | Throw _ w' =>
      ∀ l o, heap w !! l = Some o →
             ∃ o', heap w' !! l = Some o' ∧ obj_constructor o' = obj_constructor o
  | OutOfFuel => True
  end.
Proof.
  pose proof (resolve_respects src classes this constructors_kept
                (constructors_kept_respected this) fuel tok stack w) as H.
  by destruct (resolve src classes fuel this tok stack w).
Qed.

(** ** Stores without dangling references *)

Lemma closed_no_objects classes w :
  heap w = [] →
  (∀ c ct k p, containers w !! c = Some ct → providers ct !! k = Some p →
               ∀ l, ¬ provider_holds p (VObj l)) →
  (∀ c ct, containers w !! c = Some ct → singletons ct = ∅) →
  (∀ C inits k l, cls_ctor (classes C) = CtorAssign inits →
                  (k, FromConst (VObj l)) ∉ inits) →
  closed classes w.
Proof.
  intros Hheap Hprov Hcache Hcls l _. split_and!.
  - intros c ct k p Hc Hk. by eapply Hprov.
  - intros c ct k Hc. by rewrite (Hcache c ct Hc), lookup_empty.
  - intros l' o k d Ho. by rewrite Hheap, lookup_nil in Ho.
  - intros C inits k. apply Hcls.
Qed.

(** In a store without dangling references a resolution returns no
    reference to an object that does not exist, and leaves the store
    without dangling references, whether it returns or throws. *)
Theorem resolve_no_dangling src classes fuel this tok stack w :
  closed classes w →
  match resolve src classes fuel this tok stack w with
  | Ret v w' => closed classes w' ∧ ∀ l, v = VObj l → is_Some (heap w' !! l)
  | Throw _ w' => closed classes w'
  | OutOfFuel => True
  end.
Proof.
  intros Hcl. pose proof (resolve_closed src classes fuel this tok stack w Hcl) as H.
  destruct (resolve src classes fuel this tok stack w); [|done..].
  destruct H as [H1 H2]. split; [done|]. intros l ->.
  apply lookup_lt_is_Some. by apply H2.
Qed.

Lemma resolve_no_dangling_witness :
  closed greeter_classes greeter_world
  ∧ match resolve Commented greeter_classes 2 0 (TStr "Greeter") [] greeter_world with
    | Ret v w' => closed greeter_classes w' ∧ ∀ l, v = VObj l → is_Some (heap w' !! l)
    | Throw _ w' => closed greeter_classes w'
    | OutOfFuel => True
    end.
Proof.
  split; [apply greeter_world_closed|].
  apply (resolve_no_dangling Commented greeter_classes 2 0 (TStr "Greeter") []
           greeter_world greeter_world_closed).
Defined.

(** ** The instance and the caches *)

(** In a store without dangling references, the object that a class
    provider builds is in no cache of any container when the constructor
    returns, when the injections are done, and when the hook returns or
    throws: only the final write of [resolve] can put it there. *)
Theorem instance_uncached_until_stored src classes fuel this tok stack p Ctor l w w1 w2 :
  closed classes w → useClass p = Some Ctor →
  instantiate src classes (resolve src classes fuel this) p (stack ++ [tok]) w =
    Ret (VObj l) w1 →
  applyPropertyInjections (resolve src classes fuel this) (VObj l) w1 = Ret () w2 →
  uncached l w ∧ uncached l w1 ∧ uncached l w2
  ∧ match call_onInit classes (resolve src classes fuel this) (VObj l) w2 with
    | Ret _ w3 | Throw _ w3 => uncached l w3
    | OutOfFuel => True
    end.
Proof.
  intros Hcl HC H1 H2.
  rewrite (instantiate_useClass _ _ _ _ Ctor) in H1 by done.
  apply instantiate_class_unreferenced in H1
    as (l' & args & inits & [= <-] & Hl & Hctor & Hobj & Hun1); [|done].
  pose proof (lookup_lt_Some _ _ _ Hobj) as Hlt1.
  destruct (applyPropertyInjections_self src classes this fuel l w1 w2 Hun1 Hlt1 H2)
    as (Hun2 & Hlt2).
  split_and!.
  - apply (unreferenced_uncached classes). by apply Hcl.
  - by apply (unreferenced_uncached classes).
  - by apply (unreferenced_uncached classes).
  - pose proof (avoids_call_onInit classes this l (resolve src classes fuel this)
                  (λ t s, resolve_heap_grows src classes fuel this t s)
                  (λ t s, resolve_avoids src classes this l fuel t s)
                  (VObj l) w2 Hun2) as Hh.
    destruct (call_onInit classes (resolve src classes fuel this) (VObj l) w2)
      as [[] w3|e w3|]; [| |done].
    + destruct Hh as (_ & Hun3 & _); [by left|].
      by apply (unreferenced_uncached classes).
    + destruct Hh as (Hun3 & _); [by left|].
      by apply (unreferenced_uncached classes).
Qed.

Lemma instance_uncached_until_stored_witness :
  closed greeter_classes greeter_world
  ∧ ∃ w1 w2,
      instantiate Commented greeter_classes (resolve Commented greeter_classes 1 0)
        (class_provider (TStr "Greeter") 0 (Some Transient)) ([] ++ [TStr "Greeter"])
        greeter_world = Ret (VObj 0) w1
      ∧ applyPropertyInjections (resolve Commented greeter_classes 1 0) (VObj 0) w1 =
          Ret () w2
      ∧ uncached 0 w2.
Proof.
  split; [apply greeter_world_closed|].
  assert (E : ∃ w1 w2,
    instantiate Commented greeter_classes (resolve Commented greeter_classes 1 0)
      (class_provider (TStr "Greeter") 0 (Some Transient)) ([] ++ [TStr "Greeter"])
      greeter_world = Ret (VObj 0) w1
    ∧ applyPropertyInjections (resolve Commented greeter_classes 1 0) (VObj 0) w1 =
        Ret () w2) by (do 2 eexists; split; reflexivity).
  destruct E as (w1 & w2 & H1 & H2). exists w1, w2. split_and!; [done..|].
  exact (proj1 (proj2 (proj2
           (instance_uncached_until_stored Commented greeter_classes 1 0
              (TStr "Greeter") [] (class_provider (TStr "Greeter") 0 (Some Transient))
              0 0 greeter_world w1 w2 greeter_world_closed eq_refl H1 H2)))).
Defined.

(** ** Registration *)

(** [setProvider] accepts a provider exactly when its token is present and
    is not the empty string; a provider whose token is [""] is turned down
    with the message for a missing token, and the store is left as it
    was. *)
Theorem setProvider_verdict this p w :
  ((token p = None ∨ token p = Some (TStr ""))
   ∧ setProvider this p w = Throw (ResolutionError "Invalid provider: missing token") w)
  ∨ (∃ k, token p = Some k ∧ k ≠ TStr ""
          ∧ setProvider this p w = Ret () (update_container this (providers_set k p) w)).
Proof.
  unfold setProvider. destruct (token p) as [k|]; [|left; split; [by left|done]].
  destruct k as [s|i d|c]; simpl.
  - destruct (String.eqb s "") eqn:E.
    + apply String.eqb_eq in E as ->. left. split; [by right|done].
    + right. exists (TStr s). split_and!; [done| |done].
      intros [= ->]. by rewrite String.eqb_refl in E.
  - right. by exists (TSym i d).
  - right. by exists (TClass c).
Qed.

Lemma for_of_setProvider_spec this ps w w' ct :
  for_of ps (setProvider this) w = Ret () w' → containers w !! this = Some ct →
  ∃ ct', containers w' !! this = Some ct'
    ∧ (∀ k, providers ct' !! k = match latest k ps with
                                 | Some p => Some p
                                 | None => providers ct !! k
                                 end)
    ∧ singletons ct' = singletons ct ∧ parent ct' = parent ct
    ∧ (∀ c, c ≠ this → containers w' !! c = containers w !! c)
    ∧ heap w' = heap w ∧ propertyInjections w' = propertyInjections w.
Proof.
  revert w ct. induction ps as [|p ps IH]; intros w ct; simpl.
  - intros [= <-] Hct. by exists ct.
  - intros ([] & w1 & (k & Hk & ->)%setProvider_inv & Hrest)%bind_inv_ret Hct.
    destruct (IH _ (providers_set k p ct) Hrest) as (ct' & Hct' & Hprov & Hs & Hpa & Hfr & Hh & Hpi).
    { unfold update_container; simpl. by rewrite list_lookup_alter_eq, Hct. }
    exists ct'. split_and!; [done| |done|done| |done|done].
    + intros k'. rewrite Hprov. destruct (latest k' ps); [done|]. simpl.
      rewrite lookup_insert, Hk. destruct (decide (k = k')) as [->|Hne].
      * by rewrite decide_True.
      * rewrite decide_False; [done|congruence].
    + intros c Hc. rewrite Hfr by done. unfold update_container; simpl.
      by rewrite list_lookup_alter_ne.
Qed.

(** After [register(...providers)] returns, the local table of the
    container holds, for each token, the last of the providers that
    carries it (later registrations overwrite earlier ones), and the entry
    it held before for every other token; the caches, the parent link, the
    other containers and the heap are as they were. *)
Theorem register_last_wins this ps w c w' ct :
  register this ps w = Ret c w' → containers w !! this = Some ct →
  c = this
  ∧ ∃ ct', containers w' !! this = Some ct'
      ∧ (∀ k, providers ct' !! k = match latest k ps with
                                   | Some p => Some p
                                   | None => providers ct !! k
                                   end)
      ∧ singletons ct' = singletons ct ∧ parent ct' = parent ct
      ∧ (∀ c', c' ≠ this → containers w' !! c' = containers w !! c')
      ∧ heap w' = heap w.
Proof.
  intros ([] & w1 & H1 & [= <- <-])%bind_inv_ret Hct. split; [done|].
  destruct (for_of_setProvider_spec this ps w w1 ct H1 Hct)
    as (ct' & ? & ? & ? & ? & ? & ? & ?).
  by exists ct'.
Qed.

Lemma register_last_wins_witness :
  ∃ w' ct',
    register 0 shadowing_providers root_world = Ret 0 w'
    ∧ containers w' !! 0 = Some ct'
    ∧ providers ct' !! TStr "S" = Some (value_provider (TStr "S") (VNum 1) None).
Proof.
  assert (E : ∃ w', register 0 shadowing_providers root_world = Ret 0 w')
    by (eexists; reflexivity).
  destruct E as [w' E].
  destruct (register_last_wins 0 shadowing_providers root_world 0 w'
              {| providers := ∅; singletons := ∅; parent := None |} E eq_refl)
    as (_ & ct' & Hct' & Hprov & _).
  exists w', ct'. split_and!; [done..|]. by rewrite Hprov.
Defined.

Lemma cache_entry_providers_set this k p w c key :
  cache_entry (update_container this (providers_set k p) w) c key = cache_entry w c key.
Proof.
  unfold cache_entry, update_container; simpl. rewrite list_lookup_alter.
  destruct (decide (this = c)) as [<-|]; [|done]. by destruct (containers w !! this).
Qed.

(** Registering does not evict: in the copies that write the cache, once
    a Singleton token has been resolved on a container, registering
    another Singleton provider for the token on that container changes
    nothing for [resolve], which keeps returning the instance of the
    provider that was overwritten. *)
Theorem register_keeps_cached_instance src classes fuel fuel' this tok p p' w v w1 :
  src ≠ DiTs → registry_wf w →
  getProvider w this tok = Some p → effective_scope p = Singleton →
  resolve src classes fuel this tok [] w = Ret v w1 →
  token p' = Some tok → tok ≠ TStr "" → effective_scope p' = Singleton →
  ∃ w2, register this [p'] w1 = Ret this w2
        ∧ getProvider w2 this tok = Some p'
        ∧ resolve src classes (S fuel') this tok [] w2 = Ret v w2.
Proof.
  intros Hsrc Hwf Hp Hs H Htok Hne Hs'.
  pose proof (resolve_same_registry src classes fuel this tok [] w) as Hreg.
  rewrite H in Hreg.
  pose proof (resolve_singleton_cached _ _ _ _ _ _ _ _ _ Hsrc Hwf Hp Hs H) as Hent.
  assert (Hvalid : this < length (containers w1)).
  { rewrite (same_registry_length w w1) by done. by eapply getProvider_valid. }
  destruct (lookup_lt_is_Some_2 _ _ Hvalid) as [ct Hct].
  exists (update_container this (providers_set tok p') w1).
  assert (Hset : setProvider this p' w1 =
                 Ret () (update_container this (providers_set tok p') w1)).
  { apply setProvider_accepts; [done|]. destruct tok as [s| |]; simpl; [|done..].
    apply String.eqb_neq. congruence. }
  assert (Hp2 : getProvider (update_container this (providers_set tok p') w1) this tok
                = Some p').
  { eapply getProvider_local.
    - unfold update_container; simpl. by rewrite list_lookup_alter_eq, Hct.
    - simpl. apply lookup_insert_eq. }
  split_and!; [|done|].
  - unfold register. simpl. unfold mbind, M_bind. by rewrite Hset.
  - assert (Htp : token p = Some tok) by by eapply getProvider_token.
    simpl resolve. rewrite (resolve_body_hit _ _ _ _ _ _ _ p').
    + f_equal. apply cache_read_entry; [done|].
      by rewrite Htok, <-Htp, cache_entry_providers_set.
    + apply not_elem_of_nil.
    + done.
    + unfold cache_hit.
      rewrite singletons_has_entry, Htok, <-Htp, cache_entry_providers_set, Hent.
      by rewrite !bool_decide_eq_true_2.
Qed.

Lemma register_keeps_cached_instance_witness :
  ∃ w1 w2,
    resolve Commented service_classes 1 0 (TStr "S") [] (service_world None) =
      Ret (VObj 0) w1
    ∧ register 0 [value_provider (TStr "S") (VNum 1) None] w1 = Ret 0 w2
    ∧ resolve Commented service_classes 1 0 (TStr "S") [] w2 = Ret (VObj 0) w2.
Proof.
  assert (E : ∃ w1, resolve Commented service_classes 1 0 (TStr "S") []
                      (service_world None) = Ret (VObj 0) w1)
    by (eexists; reflexivity).
  destruct E as [w1 E]. exists w1.
  destruct (register_keeps_cached_instance Commented service_classes 1 0 0 (TStr "S")
              (class_provider (TStr "S") 0 None)
              (value_provider (TStr "S") (VNum 1) None)
              (service_world None) (VObj 0) w1) as (w2 & H1 & _ & H2);
    [discriminate
    |apply (registry_wf_register 0 [class_provider (TStr "S") 0 None] root_world 0);
       [apply registry_wf_root|reflexivity]
    |reflexivity|reflexivity|exact E|reflexivity|discriminate|reflexivity|].
  by exists w2.
Defined.

(** ** Invariants of the store *)

Lemma for_of_setProvider_wf_any this ps w :
  registry_wf w →
  match for_of ps (setProvider this) w with
  | Ret _ w' | Throw _ w' => registry_wf w'
  | OutOfFuel => True
  end.
Proof.
  revert w. induction ps as [|p ps IH]; intros w Hwf; simpl; [done|].
  unfold mbind, M_bind.
  destruct (setProvider this p w) as [[] w1|e w1|] eqn:E; [| |done].
  - apply IH. by eapply registry_wf_setProvider.
  - unfold setProvider in E. destruct (token p) as [k|]; [|by injection E as _ <-].
    destruct (token_falsy (Some k)); [by injection E as _ <-|done].
Qed.

(** Every provider is filed under its own token: this holds of the empty
    program state, and [new Container], [register] and [resolve] keep it,
    also when they throw.  So the provider that a lookup returns for a
    token carries this very token, and the key of the cache write,
    [provider.token], is the token that was asked for. *)
Theorem registry_wf_invariant :
  registry_wf empty_world
  ∧ (∀ parent w c w',
       registry_wf w → new_Container parent w = Ret c w' → registry_wf w')
  ∧ (∀ this ps w,
       registry_wf w →
       match register this ps w with
       | Ret _ w' | Throw _ w' => registry_wf w'
       | OutOfFuel => True
       end)
  ∧ (∀ src classes fuel this tok stack w,
       registry_wf w →
       match resolve src classes fuel this tok stack w with
       | Ret _ w' | Throw _ w' => registry_wf w'
       | OutOfFuel => True
       end)
  ∧ (∀ w this tok p,
       registry_wf w → getProvider w this tok = Some p → token p = Some tok).
Proof.
  split_and!.
  - apply registry_wf_empty.
  - apply registry_wf_new_Container.
  - intros this ps w Hwf. unfold register, mbind, M_bind.
    pose proof (for_of_setProvider_wf_any this ps w Hwf) as H.
    by destruct (for_of ps (setProvider this) w).
  - intros src classes fuel this tok stack w Hwf.
    pose proof (resolve_same_registry src classes fuel this tok stack w) as H.
    destruct (resolve src classes fuel this tok stack w); [| |done];
      by eapply registry_wf_same_registry.
  - apply getProvider_token.
Qed.

Lemma registry_wf_invariant_witness :
  registry_wf (service_world None)
  ∧ token (class_provider (TStr "S") 0 None) = Some (TStr "S").
Proof.
  destruct registry_wf_invariant as (H0 & Hnew & Hreg & _ & Htok).
  assert (Hwf : registry_wf (service_world None)).
  { apply (Hreg 0 [class_provider (TStr "S") 0 None] root_world).
    by apply (Hnew None empty_world 0 root_world). }
  split; [exact Hwf|].
  by apply (Htok (service_world None) 0 (TStr "S")).
Defined.

Lemma getProvider_walk_app w x bound c tok :
  chain_wf w → c < length (containers w) →
  getProvider_walk bound (set_containers (containers w ++ [x]) w) c tok =
  getProvider_walk bound w c tok.
Proof.
  intros Hwf. revert c. induction bound as [|b IH]; intros c Hc; [done|]. simpl.
  rewrite lookup_app_l by done.
  destruct (containers w !! c) as [ct|] eqn:Hct; [|done].
  destruct (providers ct !! tok); [done|].
  destruct (parent ct) as [pa|] eqn:Hpa; [|done].
  pose proof (Hwf c ct pa Hct Hpa). apply IH. lia.
Qed.

(** [createChild] on an existing container, in a store whose parents are
    older than their children: the child is a new container that answers
    every lookup as its parent does, with an empty cache; the lookups and
    the caches of the containers that existed are unchanged, and parents
    are still older than their children. *)
Theorem createChild_inherits this w C w1 :
  chain_wf w → this < length (containers w) →
  createChild this w = Ret C w1 →
  chain_wf w1
  ∧ C = length (containers w)
  ∧ (∀ tok, getProvider w1 C tok = getProvider w this tok)
  ∧ (∀ c tok, c < length (containers w) → getProvider w1 c tok = getProvider w c tok)
  ∧ (∀ k, cache_entry w1 C k = None)
  ∧ (∀ c k, c < length (containers w) → cache_entry w1 c k = cache_entry w c k)
  ∧ heap w1 = heap w.
Proof.
  intros Hwf Hlt H.
  destruct (chain_wf_createChild this w C w1 Hwf Hlt H) as (Hwf1 & -> & Hcs).
  injection H as <-.
  assert (Hold : ∀ c tok, c < length (containers w) →
            getProvider
              (set_containers (containers w ++ [{| providers := ∅; singletons := ∅;
                                                   parent := Some this |}]) w) c tok
            = getProvider w c tok).
  { intros c tok Hc. unfold getProvider. simpl. rewrite length_app. simpl.
    rewrite getProvider_walk_app by done.
    apply getProvider_walk_bound; [done|lia..]. }
  split_and!; [done|done| |done| | |done].
  - intros tok. rewrite <-(Hold this tok Hlt).
    apply (getProvider_delegates _ _
             {| providers := ∅; singletons := ∅; parent := Some this |});
      [done| |done|done].
    simpl. by rewrite lookup_app_r, Nat.sub_diag.
  - intros k. unfold cache_entry. simpl. by rewrite lookup_app_r, Nat.sub_diag.
  - intros c k Hc. unfold cache_entry. simpl. by rewrite lookup_app_l.
Qed.

Lemma createChild_inherits_witness :
  chain_wf (service_world None)
  ∧ ∃ w1, createChild 0 (service_world None) = Ret 1 w1
          ∧ getProvider w1 1 (TStr "S") = Some (class_provider (TStr "S") 0 None).
Proof.
  assert (Hwf : chain_wf (service_world None)).
  { intros c ct pa Hc Hpa. destruct c as [|c]; simpl in Hc; [|done].
    injection Hc as <-. done. }
  split; [exact Hwf|]. eexists. split; [reflexivity|].
  destruct (createChild_inherits 0 (service_world None) 1 _ Hwf (le_n 1) eq_refl)
    as (_ & _ & H & _).
  by rewrite H.
Defined.

(** ** Modules *)

Lemma register_loader_eq p c w : register_loader p c w = setProvider c p w.
Proof.
  unfold register_loader, register. simpl. unfold mbind, M_bind.
  by destruct (setProvider c p w) as [[] w1|e w1|].
Qed.

(** [ContainerModule.load] runs the loaders in order and rolls nothing
    back: when a loader throws, the exception is what [load] throws, in
    the store that the loaders before it and the failing loader itself
    have left, and no later loader runs.  Loaders that register one
    provider each amount to one [register] call with the providers in
    that order. *)
Theorem load_in_order container w :
  (∀ pre fn post e w1 w2,
     load pre container w = Ret () w1 → fn container w1 = Throw e w2 →
     load (pre ++ fn :: post) container w = Throw e w2)
  ∧ (∀ l1 l2, load (l1 ++ l2) container w =
              (load l1 container ≫= λ _, load l2 container) w)
  ∧ (∀ ps, load (register_loader <$> ps) container w =
           (register container ps ≫= λ _, mret ()) w).
Proof.
  split_and!.
  - intros pre fn post e w1 w2 Hpre Hfn. unfold load in *.
    rewrite for_of_app. erewrite bind_ret by exact Hpre. simpl.
    by apply bind_throw.
  - intros l1 l2. unfold load. apply for_of_app.
  - intros ps. unfold load, register. revert w.
    induction ps as [|p ps IH]; intros w; simpl; [done|].
    unfold mbind, M_bind in *. rewrite register_loader_eq.
    destruct (setProvider container p w) as [[] w1|e w1|]; [|done..].
    apply IH.
Qed.

Lemma load_in_order_witness :
  load [register_loader (class_provider (TStr "S") 0 None);
        register_loader (bare_provider None);
        register_loader (class_provider (TStr "T") 0 None)] 0 root_world =
    Throw (ResolutionError "Invalid provider: missing token") (service_world None).
Proof.
  apply (proj1 (load_in_order 0 root_world)
           [register_loader (class_provider (TStr "S") 0 None)]
           (register_loader (bare_provider None))
           [register_loader (class_provider (TStr "T") 0 None)]
           (ResolutionError "Invalid provider: missing token")
           (service_world None) (service_world None)); reflexivity.
Defined.

(** ** The decorator *)



(** ** Errors of dependencies *)

Lemma mapM_app_throw {A} (f : A → M Value) pre d post vs e w w1 w2 :
  mapM f pre w = Ret vs w1 → f d w1 = Throw e w2 →
  mapM f (pre ++ d :: post) w = Throw e w2.
Proof.
  revert w vs. induction pre as [|x pre IH]; intros w vs; simpl.
  - intros [= _ <-] Hd. by apply bind_throw.
  - intros (y & wa & Hx & (k & wb & Hk & [= _ <-])%bind_inv_ret)%bind_inv_ret Hd.
    erewrite bind_ret by exact Hx. apply bind_throw. by eapply IH.
Qed.

(** When the resolution of a dependency of a class or factory provider
    throws, [resolve] of the dependent throws the same exception, in the
    store in which the dependency threw: the dependencies after it are
    not resolved, nothing is constructed and nothing is cached. *)
Theorem dependency_error_propagates src classes fuel this tok stack p w
    pre d post vs w1 e w2 :
  tok ∉ stack → getProvider w this tok = Some p → cache_hit this p w = false →
  (∃ Ctor, useClass p = Some Ctor
           ∧ default [] (cls_inject (classes Ctor)) = pre ++ d :: post)
  ∨ (∃ f, useClass p = None ∧ useValue p = VUndefined ∧ useFactory p = Some f
          ∧ default [] (deps p) = pre ++ d :: post) →
  mapM (λ dep, resolve src classes fuel this dep (stack ++ [tok])) pre w = Ret vs w1 →
  resolve src classes fuel this d (stack ++ [tok]) w1 = Throw e w2 →
  resolve src classes (S fuel) this tok stack w = Throw e w2.
Proof.
  intros Hstack Hp Hmiss Hkind Hpre Hd. simpl resolve.
  rewrite (resolve_body_miss _ _ _ _ _ _ _ p) by done. apply bind_throw.
  destruct Hkind as [(Ctor & HC & Hdeps)|(f & HC & Hv & Hf & Hdeps)].
  - rewrite (instantiate_useClass _ _ _ _ Ctor) by done.
    unfold instantiate_class. rewrite Hdeps. apply bind_throw.
    by eapply mapM_app_throw.
  - assert (Hinst : instantiate src classes (resolve src classes fuel this) p
                      (stack ++ [tok])
                    = instantiate_factory classes (resolve src classes fuel this) p f
                        (stack ++ [tok])).
    { unfold instantiate, isValueProvider. rewrite HC, Hf, Hv. by destruct src. }
    rewrite Hinst. unfold instantiate_factory. rewrite Hdeps. apply bind_throw.
    by eapply mapM_app_throw.
Qed.

Lemma dependency_error_propagates_witness :
  ∃ w1,
    mapM (λ dep, resolve Commented broken_classes 1 0 dep ([] ++ [TStr "S"]))
      [TStr "Repo"] broken_world = Ret [VObj 0] w1
    ∧ resolve Commented broken_classes 2 0 (TStr "S") [] broken_world =
        Throw (ProviderNotFoundError "No provider for token: Missing") w1.
Proof.
  assert (E : ∃ w1,
    mapM (λ dep, resolve Commented broken_classes 1 0 dep ([] ++ [TStr "S"]))
      [TStr "Repo"] broken_world = Ret [VObj 0] w1)
    by (eexists; reflexivity).
  destruct E as [w1 E]. exists w1. split; [exact E|].
  apply (dependency_error_propagates Commented broken_classes 1 0 (TStr "S") []
           (class_provider (TStr "S") 0 None) broken_world
           [TStr "Repo"] (TStr "Missing") [] [VObj 0] w1).
  - apply not_elem_of_nil.
  - reflexivity.
  - reflexivity.
  - left. by exists 0.
  - exact E.
  - apply resolve_body_not_found.
    + simpl. intros Hin%list_elem_of_singleton. discriminate.
    + pose proof (resolve_all_respects Commented broken_classes 0 same_registry
                    (same_registry_respected 0) 1 ([] ++ [TStr "S"]) [TStr "Repo"]
                    broken_world) as Hreg.
      rewrite E in Hreg. by rewrite (getProvider_same_registry broken_world w1).
Defined.

(** ** A provider with a value and a factory *)

(** For a provider that carries both [useValue] and [useFactory] (and no
    [useClass]) the copies disagree: [src/test.ts] tests for the value
    first and returns it without calling the factory, [src/di.ts] and the
    commented copy test for the factory first, resolve its dependencies
    and call it. *)
Theorem value_and_factory_precedence classes rec p f stack :
  useClass p = None → useValue p ≠ VUndefined → useFactory p = Some f →
  instantiate TestTs classes rec p stack = mret (useValue p)
  ∧ instantiate DiTs classes rec p stack = instantiate_factory classes rec p f stack
  ∧ instantiate Commented classes rec p stack = instantiate_factory classes rec p f stack.
Proof.
  intros HC Hv Hf. unfold instantiate, isValueProvider. rewrite HC, Hf.
  by rewrite bool_decide_eq_false_2.
Qed.

Lemma value_and_factory_precedence_witness :
  instantiate TestTs service_classes (resolve TestTs service_classes 0 0)
    value_and_factory [] root_world = Ret (VNum 1) root_world
  ∧ instantiate DiTs service_classes (resolve DiTs service_classes 0 0)
      value_and_factory [] root_world = Ret (VNum 2) root_world.
Proof.
  destruct (value_and_factory_precedence service_classes
              (resolve TestTs service_classes 0 0) value_and_factory
              (FnConst (VNum 2)) [] eq_refl) as (H1 & _); [discriminate|reflexivity|].
  destruct (value_and_factory_precedence service_classes
              (resolve DiTs service_classes 0 0) value_and_factory
              (FnConst (VNum 2)) [] eq_refl) as (_ & H2 & _); [discriminate|reflexivity|].
  rewrite H1, H2. split; reflexivity.
Defined.

(** ** A cycle through a property injection *)

Lemma injection_cycle_steps src classes this a b pa pb A B key rest initsB :
  a ≠ b →
  useClass pa = Some A → cls_inject (classes A) = Some [b] →
  useClass pb = Some B → default [] (cls_inject (classes B)) = [] →
  cls_ctor (classes B) = CtorAssign initsB → KStr "constructor" ∉ initsB.*1 →
  ∀ fuel w,
    getProvider w this a = Some pa → cache_hit this pa w = false →
    getProvider w this b = Some pb → cache_hit this pb w = false →
    propertyInjections w !! B = Some ((key, a) :: rest) →
    resolve src classes fuel this a [] w = OutOfFuel
    ∧ resolve src classes fuel this b [a] w = OutOfFuel.
Proof.
  intros Hab HA HiA HB HiB HctorB Hshadow.
  induction fuel as [|n IH]; intros w Hpa Hca Hpb Hcb Hpi; [done|]. split.
  - simpl resolve. rewrite (resolve_body_miss _ _ _ _ _ _ _ pa)
      by (done || apply not_elem_of_nil).
    apply bind_out_of_fuel. rewrite (instantiate_useClass _ _ _ _ A) by done.
    unfold instantiate_class. rewrite HiA. apply bind_out_of_fuel.
    change (mapM (λ dep, resolve src classes n this dep ([] ++ [a])) [b])
      with (resolve src classes n this b [a]
            ≫= λ y, mapM (λ dep, resolve src classes n this dep ([] ++ [a])) []
            ≫= λ k, mret (y :: k)).
    apply bind_out_of_fuel. by apply IH.
  - simpl resolve. rewrite (resolve_body_miss _ _ _ _ _ _ _ pb)
      by (done || by intros ->%list_elem_of_singleton).
    set (w1 := set_heap (heap w ++ [fresh_object B initsB]) w).
    assert (H1 : instantiate src classes (resolve src classes n this) pb ([a] ++ [b]) w =
                 Ret (VObj (length (heap w))) w1).
    { rewrite (instantiate_useClass _ _ _ _ B) by done.
      unfold instantiate_class. rewrite HiB. simpl.
      unfold mbind, M_bind, mret, M_ret, construct. by rewrite HctorB. }
    erewrite bind_ret by exact H1. apply bind_out_of_fuel.
    assert (Hobj : heap w1 !! length (heap w) = Some (fresh_object B initsB)).
    { simpl. by rewrite lookup_app_r, Nat.sub_diag. }
    rewrite (applyPropertyInjections_fresh _ _ _ B [] initsB) by done.
    change (propertyInjections w1) with (propertyInjections w). rewrite Hpi.
    simpl. apply bind_out_of_fuel. unfold inject_property. simpl.
    apply bind_out_of_fuel.
    apply IH; [|exact Hca| |exact Hcb|exact Hpi];
      by rewrite (getProvider_same_registry w w1).
Qed.

(** The cycle check does not see a cycle that goes through a property
    injection, because the injected token is resolved with a new empty
    stack: when the class of [a] takes [b] in its constructor and the class
    of [b] (whose constructor assigns no field named [constructor]) has a
    field injected with [a], resolving [a] recurses without end.  At no depth does [resolve] return or throw; in particular it
    throws no [CircularDependencyError]. *)
Theorem injection_cycle_never_ends src classes this a b pa pb A B key rest initsB w :
  a ≠ b →
  getProvider w this a = Some pa → useClass pa = Some A →
  cls_inject (classes A) = Some [b] → cache_hit this pa w = false →
  getProvider w this b = Some pb → useClass pb = Some B →
  default [] (cls_inject (classes B)) = [] →
  cls_ctor (classes B) = CtorAssign initsB → KStr "constructor" ∉ initsB.*1 →
  cache_hit this pb w = false →
  propertyInjections w !! B = Some ((key, a) :: rest) →
  ∀ fuel, resolve src classes fuel this a [] w = OutOfFuel.
Proof.
  intros Hab Hpa HA HiA Hca Hpb HB HiB HctorB Hshadow Hcb Hpi fuel.
  by apply (injection_cycle_steps src classes this a b pa pb A B key rest initsB).
Qed.

Lemma injection_cycle_never_ends_witness :
  TStr "A" ≠ TStr "B"
  ∧ (KStr "constructor" ∉ ([] : list (PropertyKey * FieldInit)).*1)
  ∧ resolve Commented injection_cycle_classes 7 0 (TStr "A") [] injection_cycle_world =
      OutOfFuel.
Proof.
  split; [discriminate|]. split; [apply not_elem_of_nil|].
  apply (injection_cycle_never_ends Commented injection_cycle_classes 0
           (TStr "A") (TStr "B")
           (class_provider (TStr "A") 0 None) (class_provider (TStr "B") 1 None)
           0 1 (KStr "a") [] [] injection_cycle_world);
    first [discriminate|reflexivity|apply not_elem_of_nil].
Defined.

(** ** Dependencies are resolved on the resolving container *)

Lemma resolve_value_primitive src classes fuel this tok stack p w :
  tok ∉ stack → getProvider w this tok = Some p →
  useClass p = None → useFactory p = None → useValue p ≠ VUndefined →
  (∀ l, useValue p ≠ VObj l) → cache_hit this p w = false →
  ∃ w', resolve src classes (S fuel) this tok stack w = Ret (useValue p) w'
        ∧ heap w' = heap w
        ∧ cache_store src this p (useValue p) w = Ret () w'.
Proof.
  intros Hstack Hp HC HF Hv Hobj Hmiss.
  assert (Hs : ∃ w', cache_store src this p (useValue p) w = Ret () w').
  { unfold cache_store. destruct src; [by eexists| |];
      (destruct (bool_decide (effective_scope p = Singleton)); by eexists). }
  destruct Hs as [w' Hs]. exists w'. split_and!; [|by eapply cache_store_heap|done].
  simpl resolve. rewrite (resolve_body_miss _ _ _ _ _ _ _ p) by done.
  assert (H1 : instantiate src classes (resolve src classes fuel this) p (stack ++ [tok]) w
               = Ret (useValue p) w).
  { unfold instantiate, isValueProvider. rewrite HC, HF.
    rewrite bool_decide_eq_false_2 by done. by destruct src. }
  erewrite bind_ret by exact H1.
  assert (H2 : applyPropertyInjections (resolve src classes fuel this) (useValue p) w
               = Ret () w).
  { unfold applyPropertyInjections.
    destruct (useValue p) as [| |x|n|s|l]; simpl; [done|done|by rewrite orb_true_r..|].
    by destruct (Hobj l). }
  erewrite bind_ret by exact H2.
  assert (H3 : call_onInit classes (resolve src classes fuel this) (useValue p) w
               = Ret () w).
  { unfold call_onInit. destruct (useValue p) as [| | | | |l]; simpl; try done.
    by destruct (Hobj l). }
  erewrite bind_ret by exact H3. erewrite bind_ret by exact Hs. done.
Qed.

(** A provider that a child inherits from its parent is instantiated with
    the child's own providers for its dependencies: when the class of [a],
    declared on the parent, takes [b] in its constructor and the child has
    registered a value for [b], the object that the child builds for [a]
    is constructed with the child's value, whatever the parent has for
    [b]. *)
Theorem child_overrides_dependency src classes fuel w P C ctC a b pa pb A inits :
  chain_wf w → containers w !! C = Some ctC → parent ctC = Some P →
  a ≠ b →
  providers ctC !! a = None → getProvider w P a = Some pa → useClass pa = Some A →
  cls_inject (classes A) = Some [b] → cls_ctor (classes A) = CtorAssign inits →
  providers ctC !! b = Some pb →
  useClass pb = None → useFactory pb = None → useValue pb ≠ VUndefined →
  (∀ l, useValue pb ≠ VObj l) → cache_hit C pb w = false →
  getProvider w C a = Some pa
  ∧ ∃ wb,
      resolve src classes (S fuel) C b [a] w = Ret (useValue pb) wb
      ∧ heap wb = heap w
      ∧ instantiate src classes (resolve src classes (S fuel) C) pa [a] w =
          Ret (VObj (length (heap w)))
              (set_heap (heap wb ++ [{| obj_constructor := Some A;
                                        obj_props := init_props [useValue pb] inits |}])
                 wb).
Proof.
  intros Hwf HC HP Hab Hna Hpa HA HiA Hctor Hpb HCb HFb Hvb Hob Hmiss.
  split; [by rewrite (getProvider_delegates w C ctC P)|].
  destruct (resolve_value_primitive src classes fuel C b [a] pb w)
    as (wb & Hres & Hheap & _); try done.
  { by intros ->%list_elem_of_singleton. }
  { by eapply getProvider_local. }
  exists wb. split_and!; [done..|].
  rewrite (instantiate_useClass _ _ _ _ A) by done.
  unfold instantiate_class. rewrite HiA.
  change (mapM (λ dep, resolve src classes (S fuel) C dep [a]) (default [] (Some [b])))
    with (resolve src classes (S fuel) C b [a]
          ≫= λ y, mapM (λ dep, resolve src classes (S fuel) C dep [a]) []
          ≫= λ k, mret (y :: k)).
  assert (Hargs : (resolve src classes (S fuel) C b [a]
                   ≫= λ y, mapM (λ dep, resolve src classes (S fuel) C dep [a]) []
                   ≫= λ k, mret (y :: k)) w = Ret [useValue pb] wb).
  { by erewrite bind_ret by exact Hres. }
  erewrite bind_ret by exact Hargs.
  unfold construct. by rewrite Hctor, Hheap.
Qed.

Lemma child_overrides_dependency_witness :
  chain_wf override_world
  ∧ ∃ w', resolve Commented client_classes 2 1 (TStr "Client") [] override_world =
            Ret (VObj 0) w'
          ∧ own_property w' 0 (KStr "url") = Some (data_property (VStr "test")).
Proof.
  assert (Hwf : chain_wf override_world).
  { intros c ct pa Hc Hpa. destruct c as [|[|c]]; simpl in Hc; [| |done].
    - injection Hc as <-. done.
    - injection Hc as <-. injection Hpa as <-. lia. }
  split; [exact Hwf|].
  destruct (child_overrides_dependency Commented client_classes 0 override_world 0 1
              {| providers := {[ TStr "Url" := value_provider (TStr "Url") (VStr "test")
                                                 None ]};
                 singletons := ∅; parent := Some 0 |}
              (TStr "Client") (TStr "Url")
              (class_provider (TStr "Client") 0 (Some Transient))
              (value_provider (TStr "Url") (VStr "test") None) 0
              [(KStr "url", FromArg 0)] Hwf)
    as (_ & wb & _ & _ & Hinst); try first [reflexivity|discriminate].
  eexists. split; reflexivity.
Defined.

(** ** The demonstration program *)

(** [buildRootContainer], from any store: the root is a new container
    without parent; its table holds the four providers of the module, the
    value provider holding the configuration object that the loader
    allocated; nothing is cached. *)
Theorem buildRootContainer_registers w :
  ∃ w',
    buildRootContainer w = Ret (length (containers w)) w'
    ∧ heap w' = heap w ++ [literal [(KStr "appName", VStr "MyApp")]]
    ∧ containers w' !! length (containers w) =
        Some {| providers :=
                  {[ TClass Greeter :=
                       class_provider (TClass Greeter) Greeter (Some Transient);
                     TOKENS_Config :=
                       value_provider TOKENS_Config (VObj (length (heap w))) None;
                     TOKENS_Clock :=
                       class_provider TOKENS_Clock SystemClock (Some Transient);
                     TOKENS_Logger :=
                       class_provider TOKENS_Logger ConsoleLogger (Some Singleton) ]};
                singletons := ∅; parent := None |}
    ∧ (∀ c, c < length (containers w) → containers w' !! c = containers w !! c).
Proof.
  eexists. split_and!.
  - unfold buildRootContainer, load, coreModule, new_Container.
    unfold mbind at 1, M_bind at 1. unfold mbind at 1, M_bind at 1.
    simpl for_of. unfold register, new_literal, setProvider. simpl.
    unfold mbind, M_bind, mret, M_ret, modify. simpl. reflexivity.
  - simpl. reflexivity.
  - unfold update_container. simpl.
    rewrite !list_lookup_alter_eq, lookup_app_r, Nat.sub_diag by done. done.
  - intros c Hc. unfold update_container. simpl.
    rewrite !list_lookup_alter_ne by lia. by rewrite lookup_app_l.
Qed.

(** The demonstration program of the commented copy prints what its
    comments announce: [false] for the logger of the root against the
    logger of the child, [true] for the logger of the root against
    itself. *)
Theorem demo_main_prints :
  ∃ w, demo_main Commented empty_world = Ret (false, true) w.
Proof. eexists. vm_compute. reflexivity. Qed.

(** ** Cycles of any length *)

Lemma dependency_chain_throws src classes this w t0 fuel rest t stack :
  NoDup (stack ++ t :: rest) → t0 ∈ stack ++ [t] →
  dependency_chain classes this w t rest t0 →
  resolve src classes (S (S (length rest + fuel))) this t stack w =
    Throw (CircularDependencyError
             ("Circular dependency detected: " +:+
              String.concat " -> "
                (tokenToString src classes <$> (stack ++ t :: rest) ++ [t0]))) w.
Proof.
  revert t stack. induction rest as [|t' rest IH]; intros t stack Hnd Hin Hchain.
  - destruct Hchain as (p & Ctor & ds & Hp & HC & Hi & Hmiss).
    apply NoDup_app in Hnd as (_ & Hnotin & _).
    change (resolve src classes (S (S (length (@nil Token) + fuel))) this t stack w)
      with (resolve_body src classes this (resolve src classes (S fuel) this) t stack w).
    rewrite (resolve_body_miss _ _ _ _ _ _ _ p); [|intros H|done..].
    2:{ eapply Hnotin; [done|]. by apply elem_of_cons; left. }
    apply bind_throw. rewrite (instantiate_useClass _ _ _ _ Ctor) by done.
    eapply instantiate_class_throw; [done|].
    simpl resolve. by rewrite resolve_body_cycle.
  - destruct Hchain as [(p & Ctor & ds & Hp & HC & Hi & Hmiss) Hchain].
    pose proof Hnd as Hnd'.
    apply NoDup_app in Hnd as (_ & Hnotin & _).
    change (resolve src classes (S (S (length (t' :: rest) + fuel))) this t stack w)
      with (resolve_body src classes this
              (resolve src classes (S (S (length rest + fuel))) this) t stack w).
    rewrite (resolve_body_miss _ _ _ _ _ _ _ p); [|intros H|done..].
    2:{ eapply Hnotin; [done|]. by apply elem_of_cons; left. }
    apply bind_throw. rewrite (instantiate_useClass _ _ _ _ Ctor) by done.
    eapply instantiate_class_throw; [done|].
    rewrite IH; [|by rewrite <-app_assoc| |done].
    + by rewrite <-(app_assoc stack [t] (t' :: rest)).
    + apply elem_of_app. left. done.
Qed.

(** A cycle of constructor dependencies of any length is detected: when
    [t0] leads back to itself through distinct tokens, each the first
    constructor dependency of the one before and none of them cached,
    resolving [t0] throws a [CircularDependencyError] whose message lists
    the whole chain, from [t0] to [t0], in the order of the visit, in the
    store as it was. *)
Theorem cycle_of_any_length src classes this w t0 rest fuel :
  NoDup (t0 :: rest) →
  dependency_chain classes this w t0 rest t0 →
  resolve src classes (S (S (length rest + fuel))) this t0 [] w =
    Throw (CircularDependencyError
             ("Circular dependency detected: " +:+
              String.concat " -> "
                (tokenToString src classes <$> (t0 :: rest) ++ [t0]))) w.
Proof.
  intros Hnd Hchain.
  apply (dependency_chain_throws src classes this w t0 fuel rest t0 []);
    [done|by apply list_elem_of_here|done].
Qed.

Lemma cycle_of_any_length_witness :
  NoDup [TStr "A"; TStr "B"; TStr "C"]
  ∧ resolve DiTs ring_classes 4 0 (TStr "A") [] ring_world =
      Throw (CircularDependencyError "Circular dependency detected: A -> B -> C -> A")
            ring_world.
Proof.
  assert (Hnd : NoDup [TStr "A"; TStr "B"; TStr "C"]).
  { repeat (apply NoDup_cons; split;
              [intros H; repeat (apply elem_of_cons in H as [H|H]; [discriminate|]);
               by apply elem_of_nil in H|]).
    apply NoDup_nil_2. }
  split; [exact Hnd|].
  apply (cycle_of_any_length DiTs ring_classes 0 ring_world (TStr "A")
           [TStr "B"; TStr "C"] 0 Hnd).
  split; [|split].
  - by exists (class_provider (TStr "A") 0 None), 0, [].
  - by exists (class_provider (TStr "B") 1 None), 1, [].
  - by exists (class_provider (TStr "C") 2 None), 2, [].
Defined.
